(** * smith_waterman.c: ranked enumeration of non-overlapping local alignments

    A shallow embedding of [src/smith_waterman.c] (the local-hit enumerator of
    seq-align) together with the parts of the sibling modules it calls
    (scoring lookup, the local DP fill, the traceback primitive, the result
    buffer), which are modelled from the written specification. *)

From Stdlib Require Import ZArith List Bool Lia Arith PeanoNat.
From Stdlib Require Import Permutation Sorted.
From Stdlib Require Import Strings.Byte Strings.String.
Import ListNotations.

Set Implicit Arguments.
Local Open Scope Z_scope.

(** ** Outcomes

    A C call either returns, or ends the process ([exit], or an access
    outside an array), or, in a model that runs loops on fuel, is still
    running when the fuel is spent. *)

Inductive outcome (A : Type) : Type :=
| Done (a : A)
| Abort
| OutOfFuel.

Arguments Done {A} a.
Arguments Abort {A}.
Arguments OutOfFuel {A}.

Definition bind {A B : Type} (m : outcome A) (k : A -> outcome B) : outcome B :=
  match m with
  | Done a => k a
  | Abort => Abort
  | OutOfFuel => OutOfFuel
  end.

Definition lift {A : Type} (o : option A) : outcome A :=
  match o with
  | Some a => Done a
  | None => Abort
  end.

Notation "x <- m ;; k" := (bind m (fun x => k))
  (at level 61, m at next level, right associativity).

(** ** Scoring configuration *)

Definition symbol := Byte.byte.

(** Modelled from the spec: [scoring_t] (declared in the scoring module's
    header, which is not part of the enumerator's file), section 3. *)
Record scoring_t : Type := {
  sc_match : Z;
  sc_mismatch : Z;
  gap_open : Z;
  gap_extend : Z;
  case_sensitive : bool;
  use_match_mismatch : bool;
  substitution_table : symbol -> symbol -> option Z;
  wildcards : symbol -> bool;
  no_start_gap_penalty : bool;
  no_end_gap_penalty : bool;
  no_gaps_in_a : bool;
  no_gaps_in_b : bool
}.

(** Canonical case: upper-case ASCII letters are folded to lower case. *)
Definition fold_case (c : symbol) : symbol :=
  let n := Byte.to_N c in
  if ((65 <=? n) && (n <=? 90))%N
  then match Byte.of_N (n + 32) with Some c' => c' | None => c end
  else c.

(** Modelled from the spec: [scoring_lookup] (scoring.c is not part of the
    enumerator's file), section 4.1: fold case unless case sensitive; a
    wildcard on either side scores [match]; then the substitution table;
    then match/mismatch when enabled; otherwise no score is defined. *)
Definition scoring_lookup (sc : scoring_t) (a b : symbol) : option (Z * bool) :=
  let a' := if case_sensitive sc then a else fold_case a in
  let b' := if case_sensitive sc then b else fold_case b in
  if wildcards sc a' || wildcards sc b' then Some (sc_match sc, true)
  else match substitution_table sc a' b' with
       | Some e => Some (e, Byte.eqb a' b')
       | None =>
           if use_match_mismatch sc
           then (if Byte.eqb a' b' then Some (sc_match sc, true)
                 else Some (sc_mismatch sc, false))
           else None
       end.

(** ** The three score planes *)

(** Modelled from the spec: [enum Matrix] (alignment.h), the matrix tag of
    the glossary. *)
Inductive Matrix : Type := MATCH | GAP_A | GAP_B.

(** Modelled from the spec: the entries of the gap matrices (section 4.2:
    "a large negative sentinel so they cannot be chosen", "forced to
    impossible").  An entry is [None] where the plane cannot be chosen (the
    border, or a suppressed plane).  Scores are unbounded integers: that
    they fit 32 bits is a stated precondition of the aligner (section 3). *)
Definition gscore := option Z.

Definition gmax (u v : gscore) : gscore :=
  match u, v with
  | Some p, Some q => Some (Z.max p q)
  | Some p, None => Some p
  | None, v' => v'
  end.

Definition gadd (u : gscore) (k : Z) : gscore := option_map (fun p => p + k) u.

(** Section 4.2 writes the gap-in-A recurrence with predecessor [x-1,y] and
    glosses it as "consume B only"; section 4.3 repeats the index form.  The
    two readings differ in which coordinate a GAP_A step moves.  The
    development carries the reading as a parameter: a result is established
    for both, or names the one it needs. *)
Inductive gap_reading : Type :=
| AsIndexed   (* GAP_A steps from [x-1,y], GAP_B from [x,y-1] *)
| AsGlossed.  (* GAP_A consumes B: from [x,y-1]; GAP_B consumes A: from [x-1,y] *)

Record cell : Type := { cM : Z; cGA : gscore; cGB : gscore }.

Definition border : cell := {| cM := 0; cGA := None; cGB := None |}.

Section Fill.

Variable rd : gap_reading.
Variable sc : scoring_t.
Variables seq_a0 seq_b0 : list symbol.

(** The substitution score of the pair consumed on entering cell (x,y),
    [x,y >= 1]. *)
Definition pair_score (x y : nat) : option Z :=
  match nth_error seq_a0 (x - 1), nth_error seq_b0 (y - 1) with
  | Some a, Some b => option_map fst (scoring_lookup sc a b)
  | _, _ => None
  end.

Definition pair_score0 (x y : nat) : Z :=
  match pair_score x y with Some s => s | None => 0 end.

Definition gap_from (pred : cell) (plane : cell -> gscore) (suppressed : bool)
  : gscore :=
  if suppressed then None
  else gmax (Some (cM pred + gap_open sc)) (gadd (plane pred) (gap_extend sc)).

Definition match_from (diag : cell) (s : Z) : Z :=
  Z.max (Z.max 0 (cM diag + s))
        (match gmax (gadd (cGA diag) s) (gadd (cGB diag) s) with
         | Some g => g
         | None => 0
         end).

(** Modelled from the spec: the local-mode fill of [aligner_align]
    (alignment.c is not part of the enumerator's file), section 4.2.  Row
    [y] is computed from row [y-1]; within a row, cell [x] from cell
    [x-1]. *)
Fixpoint dp_row (y : nat) : nat -> cell :=
  match y with
  | O => fun _ => border
  | S y' =>
      let up := dp_row y' in
      fix go (x : nat) : cell :=
        match x with
        | O => border
        | S x' =>
            let left := go x' in
            let pa := match rd with AsIndexed => left | AsGlossed => up (S x') end in
            let pb := match rd with AsIndexed => up (S x') | AsGlossed => left end in
            {| cM := match_from (up x') (pair_score0 (S x') (S y'));
               cGA := gap_from pa cGA (no_gaps_in_a sc);
               cGB := gap_from pb cGB (no_gaps_in_b sc) |}
        end
  end.

Definition dp (x y : nat) : cell := dp_row y x.

End Fill.

(** ** The aligner state (DP matrices of one [aligner_align] call) *)

(** Modelled from the spec: [aligner_t] (alignment.h), section 3; the fields
    are those smith_waterman.c reads. *)
Record aligner_t : Type := {
  seq_a : list symbol;
  seq_b : list symbol;
  score_width : nat;
  score_height : nat;
  match_scores : list Z;
  gap_a_scores : list gscore;
  gap_b_scores : list gscore;
  scoring : scoring_t
}.

(** Modelled from the spec: [ARR_2D_X], [ARR_2D_Y], [ARR_2D_INDEX]
    (alignment_macros.h), section 3: cell [(x,y)] is stored at
    [pos = y * score_width + x]. *)
Definition ARR_2D_X (pos width : nat) : nat := (pos mod width)%nat.
Definition ARR_2D_Y (pos width : nat) : nat := (pos / width)%nat.
Definition ARR_2D_INDEX (width x y : nat) : nat := (y * width + x)%nat.

Definition tabulate {A : Type} (n : nat) (f : nat -> A) : list A :=
  map f (seq 0 n).

Definition all_pairs_scored (sc : scoring_t) (a b : list symbol)
           (len_a len_b : nat) : bool :=
  forallb (fun y =>
    forallb (fun x =>
      match pair_score sc a b x y with Some _ => true | None => false end)
      (seq 1 len_a))
    (seq 1 len_b).

(** Modelled from the spec: [aligner_align] in local mode (alignment.c is not
    part of the enumerator's file), sections 4.2 and 4.4 steps 1-2.  The fill
    looks up every pair [(A[x-1], B[y-1])]; an undefined pair is fatal
    (section 7), so the matrices exist only when every pair has a score. *)
Definition aligner_align (rd : gap_reading) (a b : list symbol)
           (len_a len_b : nat) (sc : scoring_t) : outcome aligner_t :=
  if all_pairs_scored sc a b len_a len_b then
    let w := S len_a in
    let h := S len_b in
    let at_pos (pos : nat) := dp rd sc a b (ARR_2D_X pos w) (ARR_2D_Y pos w) in
    Done {| seq_a := a; seq_b := b;
            score_width := w; score_height := h;
            match_scores := tabulate (w * h) (fun pos => cM (at_pos pos));
            gap_a_scores := tabulate (w * h) (fun pos => cGA (at_pos pos));
            gap_b_scores := tabulate (w * h) (fun pos => cGB (at_pos pos));
            scoring := sc |}
  else Abort.

(** ** The traceback cursor

    Sizes and indices ([size_t]) are natural numbers: an index is used below
    the length of an array that exists, where no arithmetic wraps; a
    decrement at zero is written out and stops the run ([pred_nat],
    [seq_before]). *)

Record cursor : Type := {
  curr_matrix : Matrix;
  curr_score : Z;
  score_x : nat;
  score_y : nat;
  arr_index : nat
}.

Definition pred_nat (n : nat) : option nat :=
  match n with
  | O => None
  | S n' => Some n'
  end.

(** The cell a step leaves for, by plane: MATCH moves on both axes, a gap
    plane on one. *)
Definition step_back (rd : gap_reading) (m : Matrix) (x y : nat)
  : option (nat * nat) :=
  match m, rd with
  | MATCH, _ =>
      match pred_nat x, pred_nat y with
      | Some x', Some y' => Some (x', y')
      | _, _ => None
      end
  | GAP_A, AsIndexed | GAP_B, AsGlossed =>
      option_map (fun x' => (x', y)) (pred_nat x)
  | GAP_A, AsGlossed | GAP_B, AsIndexed =>
      option_map (fun y' => (x, y')) (pred_nat y)
  end.

Definition matches (stored : gscore) (edge curr : Z) : bool :=
  match stored with
  | Some v => v + edge =? curr
  | None => false
  end.

Definition gval (stored : gscore) : Z :=
  match stored with Some v => v | None => 0 end.

(** Modelled from the spec: [alignment_reverse_move] (alignment.c is not part
    of the enumerator's file), section 4.3.  The predecessor plane is the
    first, in the order MATCH, GAP_A, GAP_B, whose stored value plus the edge
    score gives the current score; [None] when a coordinate would drop below
    zero, an array is read outside its bounds, the lookup is undefined, or no
    plane matches. *)
Definition alignment_reverse_move (rd : gap_reading) (al : aligner_t)
           (c : cursor) : option cursor :=
  match step_back rd (curr_matrix c) (score_x c) (score_y c) with
  | None => None
  | Some (x', y') =>
      let pos := ARR_2D_INDEX (score_width al) x' y' in
      let sc := scoring al in
      match nth_error (match_scores al) pos,
            nth_error (gap_a_scores al) pos,
            nth_error (gap_b_scores al) pos with
      | Some m, Some ga, Some gb =>
          let mk (t : Matrix) (v : Z) :=
            Some {| curr_matrix := t; curr_score := v;
                    score_x := x'; score_y := y'; arr_index := pos |} in
          match curr_matrix c with
          | MATCH =>
              match pair_score sc (seq_a al) (seq_b al) (score_x c) (score_y c) with
              | None => None
              | Some s =>
                  if m + s =? curr_score c then mk MATCH m
                  else if matches ga s (curr_score c) then mk GAP_A (gval ga)
                  else if matches gb s (curr_score c) then mk GAP_B (gval gb)
                  else None
              end
          | GAP_A =>
              if m + gap_open sc =? curr_score c then mk MATCH m
              else if matches ga (gap_extend sc) (curr_score c) then mk GAP_A (gval ga)
              else None
          | GAP_B =>
              if m + gap_open sc =? curr_score c then mk MATCH m
              else if matches gb (gap_extend sc) (curr_score c) then mk GAP_B (gval gb)
              else None
          end
      | _, _, _ => None
      end
  end.

(** ** The bit array (consumed-cell bitmap)

    Modelled from the spec: the bit-array primitive (bit_array.h is an
    external collaborator): a fixed-length vector of bits with test, clear,
    set-all and resize; a bit set means the cell is still available. *)

Definition BIT_ARRAY := list bool.

Definition bit_array_create (nbits : nat) : BIT_ARRAY := repeat false nbits.

Definition bit_array_get_bit (ba : BIT_ARRAY) (i : nat) : option bool :=
  nth_error ba i.

Fixpoint bit_array_clear_bit (ba : BIT_ARRAY) (i : nat) : option BIT_ARRAY :=
  match ba, i with
  | [], _ => None
  | _ :: tl, O => Some (false :: tl)
  | b :: tl, S i' => option_map (cons b) (bit_array_clear_bit tl i')
  end.

Definition bit_array_set_all (ba : BIT_ARRAY) : BIT_ARRAY :=
  map (fun _ => true) ba.

Definition bit_array_resize (ba : BIT_ARRAY) (nbits : nat) : BIT_ARRAY :=
  firstn nbits ba ++ repeat false (nbits - List.length ba).

(** Modelled from the spec: [ROUNDUP2POW] (alignment_macros.h), section 5:
    capacities are rounded up to a power of two. *)
Definition ROUNDUP2POW (n : nat) : nat := (2 ^ Nat.log2_up n)%nat.

(** ** Enumerator state *)

Record sw_history_t : Type := {
  match_scores_mask : BIT_ARRAY;
  (* the first [num_of_hits] entries of the array; the rest of the
     allocation is never read *)
  sorted_match_indices : list nat;
  hits_capacity : nat;
  num_of_hits : nat;
  next_hit : nat
}.

Record sw_aligner_t : Type := {
  aligner : aligner_t;
  history : sw_history_t
}.

Record MatrixSort : Type := {
  ms_match_scores : list Z;
  ms_score_width : Z      (* unsigned int *)
}.

Definition to_uint (z : Z) : Z := z mod 2 ^ 32.
Definition to_int (z : Z) : Z := (z + 2 ^ 31) mod 2 ^ 32 - 2 ^ 31.

(** [sort_match_indices]: descending score, then ascending [pos %
    score_width]; the difference of the two remainders is returned through
    [int]. *)
Definition sort_match_indices (tmp : MatrixSort) (a b : nat) : Z :=
  let match_scores := ms_match_scores tmp in
  let score_width := ms_score_width tmp in
  let diff := nth b match_scores 0 - nth a match_scores 0 in
  if diff =? 0
  then to_int (Z.of_nat a mod score_width - Z.of_nat b mod score_width)
  else if diff >? 0 then 1 else -1.

(** Modelled from the spec: the sort primitive with a user-data argument
    ([sort_r], an external collaborator), as a stable insertion sort driven by
    the sign of the comparator. *)
Fixpoint sort_insert (cmp : nat -> nat -> Z) (v : nat) (l : list nat) : list nat :=
  match l with
  | [] => [v]
  | u :: l' => if cmp v u <=? 0 then v :: l else u :: sort_insert cmp v l'
  end.

Definition sort_r (l : list nat) (cmp : nat -> nat -> Z) : list nat :=
  fold_right (sort_insert cmp) [] l.

(** The zeroed aligner of [calloc]; its scoring pointer is null until the
    first alignment and is not read before, the model keeps a placeholder. *)
Definition aligner_empty (sc : scoring_t) : aligner_t :=
  {| seq_a := []; seq_b := []; score_width := 0; score_height := 0;
     match_scores := []; gap_a_scores := []; gap_b_scores := [];
     scoring := sc |}.

Definition _init_history : sw_history_t :=
  {| match_scores_mask := bit_array_create 256;
     sorted_match_indices := [];
     hits_capacity := 256;
     num_of_hits := 0;
     next_hit := 0 |}.

(** Allocation is taken to succeed (the code exits when it does not). *)
Definition _ensure_history_capacity (hist : sw_history_t) (arr_size : nat)
  : sw_history_t :=
  if (hits_capacity hist <? arr_size)%nat then
    let cap := ROUNDUP2POW arr_size in
    {| match_scores_mask := bit_array_resize (match_scores_mask hist) cap;
       sorted_match_indices := sorted_match_indices hist;
       hits_capacity := cap;
       num_of_hits := num_of_hits hist;
       next_hit := next_hit hist |}
  else hist.

Definition smith_waterman_new (sc : scoring_t) : sw_aligner_t :=
  {| aligner := aligner_empty sc; history := _init_history |}.

(** The scan of [smith_waterman_align2]: every position with a positive
    match score is appended, in increasing position. *)
Definition collect_hits (ms : list Z) (arr_size : nat) : list nat :=
  fold_left (fun hits pos => if nth pos ms 0 >? 0 then hits ++ [pos] else hits)
            (seq 0 arr_size) [].

Definition smith_waterman_align2 (rd : gap_reading) (a b : list symbol)
           (len_a len_b : nat) (sc : scoring_t) (sw : sw_aligner_t)
  : outcome sw_aligner_t :=
  al <- aligner_align rd a b len_a len_b sc ;;
  let arr_size := (score_width al * score_height al)%nat in
  let hist := _ensure_history_capacity (history sw) arr_size in
  let hits := collect_hits (match_scores al) arr_size in
  let tmp_struct := {| ms_match_scores := match_scores al;
                       ms_score_width := to_uint (Z.of_nat (score_width al)) |} in
  Done {| aligner := al;
          history :=
            {| match_scores_mask := bit_array_set_all (match_scores_mask hist);
               sorted_match_indices := sort_r hits (sort_match_indices tmp_struct);
               hits_capacity := hits_capacity hist;
               num_of_hits := List.length hits;
               next_hit := 0 |} |}.

(** [strlen]: the bytes before the first NUL (or all of them, the terminator
    following the list). *)
Fixpoint strlen (s : list symbol) : nat :=
  match s with
  | [] => O
  | c :: s' => if Byte.eqb c x00 then O else S (strlen s')
  end.

Definition smith_waterman_align (rd : gap_reading) (a b : list symbol)
           (sc : scoring_t) (sw : sw_aligner_t) : outcome sw_aligner_t :=
  smith_waterman_align2 rd a b (strlen a) (strlen b) sc sw.

(** ** The alignment result buffer *)

(** Modelled from the spec: [alignment_t] (alignment.h), section 3; the two
    buffers are lists of [capacity] bytes. *)
Record alignment_t : Type := {
  result_a : list symbol;   (* [capacity] bytes *)
  result_b : list symbol;
  capacity : nat;
  length : nat;
  pos_a : nat;
  pos_b : nat;
  len_a : nat;
  len_b : nat;
  score : Z
}.

Definition gap_char : symbol := "-"%byte.

Definition buf_resize (buf : list symbol) (n : nat) : list symbol :=
  firstn n buf ++ repeat x00 (n - List.length buf).

Fixpoint buf_store (buf : list symbol) (i : nat) (v : symbol) : option (list symbol) :=
  match buf, i with
  | [], _ => None
  | _ :: tl, O => Some (v :: tl)
  | c :: tl, S i' => option_map (cons c) (buf_store tl i' v)
  end.

(** Modelled from the spec: [alignment_ensure_capacity] (alignment.c is not
    part of the enumerator's file), section 4.5 step 3 and section 5: room for
    [strlength] bytes and the terminator, grown to a power of two. *)
Definition alignment_ensure_capacity (res : alignment_t) (strlength : nat)
  : alignment_t :=
  if (capacity res <? strlength + 1)%nat then
    let cap := ROUNDUP2POW (strlength + 1) in
    {| result_a := buf_resize (result_a res) cap;
       result_b := buf_resize (result_b res) cap;
       capacity := cap;
       length := length res;
       pos_a := pos_a res; pos_b := pos_b res;
       len_a := len_a res; len_b := len_b res;
       score := score res |}
  else res.

(** An empty result record, before any buffer is reserved. *)
Definition alignment_create : alignment_t :=
  {| result_a := []; result_b := []; capacity := 0; length := 0;
     pos_a := 0; pos_b := 0; len_a := 0; len_b := 0; score := 0 |}.

(** ** [_follow_hit] *)

(** The first loop: test and clear the bit of every cell on the way back,
    counting the steps; [None] in the result is the early [return 0]. *)
Fixpoint probe (fuel : nat) (rd : gap_reading) (al : aligner_t)
         (mask : BIT_ARRAY) (c : cursor) (len : nat)
  : outcome (BIT_ARRAY * option nat) :=
  match fuel with
  | O => OutOfFuel
  | S fuel' =>
      bit <- lift (bit_array_get_bit mask (arr_index c)) ;;
      if negb bit then Done (mask, None)
      else
        mask' <- lift (bit_array_clear_bit mask (arr_index c)) ;;
        if curr_score c =? 0 then Done (mask', Some len)
        else
          c' <- lift (alignment_reverse_move rd al c) ;;
          probe fuel' rd al mask' c' (S len)
  end.

(** [seq[n - 1]] with [n] a [size_t]: at [n = 0] the index wraps and the read
    is outside the sequence. *)
Definition seq_before (s : list symbol) (n : nat) : option symbol :=
  match n with
  | O => None
  | S n' => nth_error s n'
  end.

(** The body of the second loop's [switch]. *)
Definition emit_column (al : aligner_t) (c : cursor) : option (symbol * symbol) :=
  match curr_matrix c with
  | MATCH =>
      match seq_before (seq_a al) (score_x c), seq_before (seq_b al) (score_y c) with
      | Some ca, Some cb => Some (ca, cb)
      | _, _ => None
      end
  | GAP_A => option_map (fun cb => (gap_char, cb)) (seq_before (seq_b al) (score_y c))
  | GAP_B => option_map (fun ca => (ca, gap_char)) (seq_before (seq_a al) (score_x c))
  end.

(** The second loop: [i] is an [unsigned int]. *)
Fixpoint emit (fuel : nat) (rd : gap_reading) (al : aligner_t)
         (c : cursor) (i : Z) (ra rb : list symbol)
  : outcome (cursor * list symbol * list symbol) :=
  match fuel with
  | O => OutOfFuel
  | S fuel' =>
      if curr_score c >? 0 then
        col <- lift (emit_column al c) ;;
        ra' <- lift (buf_store ra (Z.to_nat i) (fst col)) ;;
        rb' <- lift (buf_store rb (Z.to_nat i) (snd col)) ;;
        c' <- lift (alignment_reverse_move rd al c) ;;
        emit fuel' rd al c' (to_uint (i - 1)) ra' rb'
      else Done (c, ra, rb)
  end.

Definition set_mask (sw : sw_aligner_t) (mask : BIT_ARRAY) : sw_aligner_t :=
  {| aligner := aligner sw;
     history := {| match_scores_mask := mask;
                   sorted_match_indices := sorted_match_indices (history sw);
                   hits_capacity := hits_capacity (history sw);
                   num_of_hits := num_of_hits (history sw);
                   next_hit := next_hit (history sw) |} |}.

Definition hit_cursor (al : aligner_t) (pos : nat) (v : Z) : cursor :=
  {| curr_matrix := MATCH; curr_score := v;
     score_x := ARR_2D_X pos (score_width al);
     score_y := ARR_2D_Y pos (score_width al);
     arr_index := pos |}.

Definition _follow_hit (fuel : nat) (rd : gap_reading) (sw : sw_aligner_t)
           (pos : nat) (result : alignment_t)
  : outcome (bool * sw_aligner_t * alignment_t) :=
  let al := aligner sw in
  end_score <- lift (nth_error (match_scores al) pos) ;;
  let start := hit_cursor al pos end_score in
  pr <- probe fuel rd al (match_scores_mask (history sw)) start 0 ;;
  match pr with
  | (mask, None) => Done (false, set_mask sw mask, result)
  | (mask, Some len) =>
      let res := alignment_ensure_capacity result len in
      em <- emit fuel rd al start (to_uint (Z.of_nat len - 1))
                 (result_a res) (result_b res) ;;
      let '(c, ra, rb) := em in
      ra' <- lift (buf_store ra len x00) ;;
      rb' <- lift (buf_store rb len x00) ;;
      Done (true, set_mask sw mask,
            {| result_a := ra'; result_b := rb';
               capacity := capacity res;
               length := len;
               pos_a := score_x c; pos_b := score_y c;
               len_a := score_x start - score_x c;
               len_b := score_y start - score_y c;
               score := end_score |})
  end.

(** ** [smith_waterman_fetch] *)

Definition advance (sw : sw_aligner_t) : sw_aligner_t :=
  {| aligner := aligner sw;
     history := {| match_scores_mask := match_scores_mask (history sw);
                   sorted_match_indices := sorted_match_indices (history sw);
                   hits_capacity := hits_capacity (history sw);
                   num_of_hits := num_of_hits (history sw);
                   next_hit := S (next_hit (history sw)) |} |}.

Fixpoint smith_waterman_fetch (fuel : nat) (rd : gap_reading)
         (sw : sw_aligner_t) (result : alignment_t)
  : outcome (bool * sw_aligner_t * alignment_t) :=
  match fuel with
  | O => OutOfFuel
  | S fuel' =>
      let hist := history sw in
      if (next_hit hist <? num_of_hits hist)%nat then
        pos <- lift (nth_error (sorted_match_indices hist) (next_hit hist)) ;;
        let sw1 := advance sw in
        bit <- lift (bit_array_get_bit (match_scores_mask hist) pos) ;;
        if bit then
          r <- _follow_hit fuel' rd sw1 pos result ;;
          let '(found, sw2, res2) := r in
          if found then Done (true, sw2, res2)
          else smith_waterman_fetch fuel' rd sw2 res2
        else smith_waterman_fetch fuel' rd sw1 result
      else Done (false, sw, result)
  end.

(** ** Observations on a run

    The functions below do not belong to the program: they read off a run
    what the statements about it need (which cells a loop visits, which
    indices it writes). *)

(** Number of bits still set. *)
Definition count_set (ba : BIT_ARRAY) : nat := List.length (filter (fun b => b) ba).

(** [ba'] has no bit that [ba] lacks. *)
Definition mask_le (ba' ba : BIT_ARRAY) : Prop :=
  List.length ba' = List.length ba /\
  forall j, nth_error ba' j = Some true -> nth_error ba j = Some true.

Definition is_clear (ba : BIT_ARRAY) (pos : nat) : Prop :=
  nth_error ba pos = Some false.

Definition is_set (ba : BIT_ARRAY) (pos : nat) : Prop :=
  nth_error ba pos = Some true.

(** The cursors of the traceback from [c], the bitmap left aside: [c], its
    predecessor, and so on down to the first cursor of score zero. *)
Fixpoint walk (fuel : nat) (rd : gap_reading) (al : aligner_t) (c : cursor)
  : list cursor :=
  match fuel with
  | O => []
  | S fuel' =>
      c :: (if curr_score c =? 0 then []
            else match alignment_reverse_move rd al c with
                 | Some c' => walk fuel' rd al c'
                 | None => []
                 end)
  end.

(** The cells of the traceback that starts at the hit [pos]. *)
Definition traceback_cells (rd : gap_reading) (al : aligner_t) (pos : nat)
  : list nat :=
  let start := hit_cursor al pos (nth pos (match_scores al) 0) in
  map arr_index (walk (S (score_x start + score_y start)) rd al start).

(** The cells whose bit the first loop of [_follow_hit] tests, in order; the
    last one is where the loop leaves (by [break] or by [return 0]). *)
Fixpoint probe_visits (fuel : nat) (rd : gap_reading) (al : aligner_t)
         (mask : BIT_ARRAY) (c : cursor) : list nat :=
  match fuel with
  | O => []
  | S fuel' =>
      arr_index c ::
      match bit_array_get_bit mask (arr_index c),
            bit_array_clear_bit mask (arr_index c) with
      | Some true, Some mask' =>
          if curr_score c =? 0 then []
          else match alignment_reverse_move rd al c with
               | Some c' => probe_visits fuel' rd al mask' c'
               | None => []
               end
      | _, _ => []
      end
  end.

(** The iterations of the second loop of [_follow_hit]: the value of [i] and
    the cell of each. *)
Fixpoint emit_steps (fuel : nat) (rd : gap_reading) (al : aligner_t)
         (c : cursor) (i : Z) : list (Z * nat) :=
  match fuel with
  | O => []
  | S fuel' =>
      if curr_score c >? 0 then
        (i, arr_index c) ::
        match alignment_reverse_move rd al c with
        | Some c' => emit_steps fuel' rd al c' (to_uint (i - 1))
        | None => []
        end
      else []
  end.

(** [n] consecutive calls of [smith_waterman_fetch] on one session and one
    result record; the alignments of the calls that returned 1, in order. *)
Fixpoint fetch_many (n fuel : nat) (rd : gap_reading) (sw : sw_aligner_t)
         (result : alignment_t)
  : outcome (list alignment_t * sw_aligner_t * alignment_t) :=
  match n with
  | O => Done ([], sw, result)
  | S n' =>
      r <- smith_waterman_fetch fuel rd sw result ;;
      let '(found, sw1, res1) := r in
      rest <- fetch_many n' fuel rd sw1 res1 ;;
      let '(als, sw2, res2) := rest in
      Done ((if found : bool then res1 :: als else als), sw2, res2)
  end.

(** The end cell of a returned alignment, from its fields. *)
Definition end_cell (al : aligner_t) (r : alignment_t) : nat :=
  ARR_2D_INDEX (score_width al) (pos_a r + len_a r) (pos_b r + len_b r).

(** The bitmap and the hit array have the allocated size. *)
Definition hist_ok (hist : sw_history_t) : Prop :=
  List.length (match_scores_mask hist) = hits_capacity hist.

(** Sessions primed by [smith_waterman_align2] on [(a, b, len_a, len_b, sc)]
    and then used for any number of [smith_waterman_fetch] calls. *)
Inductive primed (rd : gap_reading) (a b : list symbol) (la lb : nat)
          (sc : scoring_t) : sw_aligner_t -> Prop :=
| primed_align : forall sw0 sw,
    hist_ok (history sw0) ->
    smith_waterman_align2 rd a b la lb sc sw0 = Done sw ->
    primed rd a b la lb sc sw
| primed_fetch : forall sw fuel res found sw' res',
    primed rd a b la lb sc sw ->
    smith_waterman_fetch fuel rd sw res = Done (found, sw', res') ->
    primed rd a b la lb sc sw'.

(** A complete traceback: the cursors from [c] down to the first one of
    score zero. *)
Inductive path (rd : gap_reading) (al : aligner_t) : cursor -> list cursor -> Prop :=
| path_end : forall c, curr_score c = 0 -> path rd al c [c]
| path_step : forall c c' cs,
    curr_score c <> 0 ->
    alignment_reverse_move rd al c = Some c' ->
    path rd al c' cs ->
    path rd al c (c :: cs).

(** ** Invariants of a filled aligner and of a traceback cursor *)

Definition dp_of (rd : gap_reading) (al : aligner_t) (x y : nat) : cell :=
  dp rd (scoring al) (seq_a al) (seq_b al) x y.

(** The matrices of [al] hold the recurrence of the fill. *)
Definition filled (rd : gap_reading) (al : aligner_t) : Prop :=
  (0 < score_width al)%nat /\
  (forall x y, (x < score_width al)%nat -> (y < score_height al)%nat ->
     let pos := ARR_2D_INDEX (score_width al) x y in
     nth_error (match_scores al) pos = Some (cM (dp_of rd al x y)) /\
     nth_error (gap_a_scores al) pos = Some (cGA (dp_of rd al x y)) /\
     nth_error (gap_b_scores al) pos = Some (cGB (dp_of rd al x y))) /\
  (forall x y, (0 < x < score_width al)%nat -> (0 < y < score_height al)%nat ->
     exists s, pair_score (scoring al) (seq_a al) (seq_b al) x y = Some s) /\
  List.length (match_scores al) = (score_width al * score_height al)%nat.

(** The cursor is inside the matrices and carries the score stored for its
    cell in its plane. *)
Definition on_plane (rd : gap_reading) (al : aligner_t) (c : cursor) : Prop :=
  (score_x c < score_width al)%nat /\
  (score_y c < score_height al)%nat /\
  arr_index c = ARR_2D_INDEX (score_width al) (score_x c) (score_y c) /\
  match curr_matrix c with
  | MATCH => cM (dp_of rd al (score_x c) (score_y c)) = curr_score c
  | GAP_A => cGA (dp_of rd al (score_x c) (score_y c)) = Some (curr_score c)
  | GAP_B => cGB (dp_of rd al (score_x c) (score_y c)) = Some (curr_score c)
  end.

(** A cursor in a gap plane carries a positive score. *)
Definition gap_positive (c : cursor) : Prop :=
  curr_matrix c <> MATCH -> 0 < curr_score c.

(** Gap scores as the interface documents them. *)
Definition gap_penalties (sc : scoring_t) : Prop :=
  gap_open sc <= 0 /\ gap_extend sc <= 0.

(** The score of the edge a step walks back over. *)
Definition edge_score (al : aligner_t) (c c' : cursor) : Z :=
  match curr_matrix c with
  | MATCH => pair_score0 (scoring al) (seq_a al) (seq_b al) (score_x c) (score_y c)
  | GAP_A | GAP_B =>
      match curr_matrix c' with
      | MATCH => gap_open (scoring al)
      | _ => gap_extend (scoring al)
      end
  end.

(** A gap plane is left for MATCH or for itself. *)
Definition plane_after (m m' : Matrix) : Prop :=
  match m, m' with
  | MATCH, _ => True
  | GAP_A, MATCH | GAP_A, GAP_A => True
  | GAP_B, MATCH | GAP_B, GAP_B => True
  | _, _ => False
  end.

(** What one traceback step from [c] to [c'] guarantees. *)
Definition step_ok (rd : gap_reading) (al : aligner_t) (c c' : cursor) : Prop :=
  on_plane rd al c' /\
  step_back rd (curr_matrix c) (score_x c) (score_y c)
    = Some (score_x c', score_y c') /\
  curr_score c = curr_score c' + edge_score al c c' /\
  plane_after (curr_matrix c) (curr_matrix c') /\
  (gap_penalties (scoring al) -> gap_positive c -> gap_positive c').

(** The caller's result record owns [capacity] bytes in each buffer. *)
Definition result_ok (res : alignment_t) : Prop :=
  List.length (result_a res) = capacity res /\
  List.length (result_b res) = capacity res.

(** What [smith_waterman_align2] establishes and [smith_waterman_fetch]
    keeps: filled matrices, a bitmap over all cells, hits inside the
    matrices. *)
Definition session_ok (rd : gap_reading) (sw : sw_aligner_t) : Prop :=
  let al := aligner sw in
  let hist := history sw in
  filled rd al /\
  (score_width al * score_height al <= List.length (match_scores_mask hist))%nat /\
  Forall (fun pos => (pos < score_width al * score_height al)%nat)
         (sorted_match_indices hist) /\
  num_of_hits hist = List.length (sorted_match_indices hist).

(** Two sessions that differ at most in the bitmap and the cursor. *)
Definition same_hits (sw sw' : sw_aligner_t) : Prop :=
  aligner sw' = aligner sw /\
  sorted_match_indices (history sw') = sorted_match_indices (history sw) /\
  num_of_hits (history sw') = num_of_hits (history sw) /\
  hits_capacity (history sw') = hits_capacity (history sw).

(** [sw1] is [sw] later in the same enumeration: same hits, no bit gained,
    cursor not moved back. *)
Definition later (sw sw1 : sw_aligner_t) : Prop :=
  same_hits sw sw1 /\
  mask_le (match_scores_mask (history sw1)) (match_scores_mask (history sw)) /\
  (next_hit (history sw) <= next_hit (history sw1))%nat.

(** The order of the hit list: descending score, ties by ascending
    [pos mod score_width]. *)
Definition hit_before (ms : list Z) (w : nat) (p q : nat) : Prop :=
  nth q ms 0 < nth p ms 0 \/
  (nth q ms 0 = nth p ms 0 /\ (p mod w <= q mod w)%nat).

(** ** Concrete inputs *)

Definition bytes (s : string) : list symbol := list_byte_of_string s.

(** Match/mismatch scoring, case sensitive, no table, no wildcard. *)
Definition simple_scoring (m mm go ge : Z) : scoring_t :=
  {| sc_match := m; sc_mismatch := mm; gap_open := go; gap_extend := ge;
     case_sensitive := true; use_match_mismatch := true;
     substitution_table := fun _ _ => None; wildcards := fun _ => false;
     no_start_gap_penalty := false; no_end_gap_penalty := false;
     no_gaps_in_a := false; no_gaps_in_b := false |}.

(** The situation of the strong reading of C7, at hit 23 of "ACA" against
    "ACCAA": a primed session whose next hit is 23, on which [_follow_hit]
    returns 0, while cell 10 of the traceback from 23 still has its bit
    set. *)
Definition abort_leaves_cell (rd : gap_reading) : Prop :=
  let sc := simple_scoring 5 (-4) (-3) (-1) in
  exists sw res sw' res',
    primed rd (bytes "ACA") (bytes "ACCAA") 3 5 sc sw /\
    nth_error (sorted_match_indices (history sw)) (next_hit (history sw))
      = Some 23%nat /\
    is_set (match_scores_mask (history sw)) 23 /\
    _follow_hit 20 rd (advance sw) 23 res = Done (false, sw', res') /\
    probe_visits 20 rd (aligner sw) (match_scores_mask (history sw))
      (hit_cursor (aligner sw) 23 (nth 23 (match_scores (aligner sw)) 0))
      = [23; 18; 14]%nat /\
    traceback_cells rd (aligner sw) 23 = [23; 18; 14; 10; 5; 0]%nat /\
    is_set (match_scores_mask (history sw')) 10.

(** The cells of the traceback of a returned alignment. *)
Definition cells_of (rd : gap_reading) (al : aligner_t) (r : alignment_t)
  : list nat :=
  traceback_cells rd al (end_cell al r).

Definition disjoint (l1 l2 : list nat) : Prop :=
  forall p, In p l1 -> In p l2 -> False.

(** The alignments [als] end at hits taken from the hit array at increasing
    indices, the first at or after [k], each with the match score of its end
    cell as its score. *)
Fixpoint hits_from (sw : sw_aligner_t) (k : nat) (als : list alignment_t) : Prop :=
  match als with
  | [] => True
  | r :: rest =>
      exists j, (k <= j)%nat /\
        nth_error (sorted_match_indices (history sw)) j
          = Some (end_cell (aligner sw) r) /\
        nth_error (match_scores (aligner sw)) (end_cell (aligner sw) r)
          = Some (score r) /\
        hits_from sw (S j) rest
  end.

(** The column the second loop writes at cursor [c]. *)
Definition column_at (al : aligner_t) (c : cursor) : symbol * symbol :=
  match emit_column al c with
  | Some col => col
  | None => (x00, x00)
  end.

(** The columns of a traceback, in the order it walks them (last column of
    the alignment first); the cursor of score zero writes none. *)
Definition path_columns (al : aligner_t) (cs : list cursor)
  : list (symbol * symbol) :=
  map (column_at al) (removelast cs).

(** The values [i] takes from [k - 1] down to 0. *)
Definition countdown (k : nat) : list Z := map Z.of_nat (rev (seq 0 k)).

(** What a successful [_follow_hit] at hit [pos] left in the result [r],
    in terms of the path [cs] it walked: [fuel] and [mask] are those of the
    call. *)
Definition follow_trace (rd : gap_reading) (al : aligner_t) (mask : BIT_ARRAY)
           (fuel pos : nat) (r : alignment_t) (cs : list cursor) : Prop :=
  let start := hit_cursor al pos (score r) in
  let k := (List.length cs - 1)%nat in
  nth_error (match_scores al) pos = Some (score r) /\
  path rd al start cs /\
  length r = k /\
  firstn k (result_a r) = rev (map fst (path_columns al cs)) /\
  firstn k (result_b r) = rev (map snd (path_columns al cs)) /\
  nth_error (result_a r) k = Some x00 /\
  nth_error (result_b r) k = Some x00 /\
  (k < capacity r)%nat /\ result_ok r /\
  pos_a r = score_x (last cs start) /\
  pos_b r = score_y (last cs start) /\
  len_a r = (score_x start - score_x (last cs start))%nat /\
  len_b r = (score_y start - score_y (last cs start))%nat /\
  emit_steps fuel rd al start (to_uint (Z.of_nat k - 1))
    = combine (countdown k) (map arr_index (removelast cs)) /\
  probe_visits fuel rd al mask start = map arr_index cs.

(** The input of the counterexamples to the "never '-'" readings: both
    sequences are the single byte '-', which matches itself. *)
Definition dash_alignment (rd : gap_reading) : Prop :=
  let sc := simple_scoring 2 (-2) (-2) (-1) in
  exists sw sw' res',
    smith_waterman_align2 rd (bytes "-") (bytes "-") 1 1 sc
      (smith_waterman_new sc) = Done sw /\
    smith_waterman_fetch 20 rd sw alignment_create = Done (true, sw', res') /\
    length res' = 1%nat /\ score res' = 2 /\
    pos_a res' = 0%nat /\ len_a res' = 1%nat /\
    pos_b res' = 0%nat /\ len_b res' = 1%nat /\
    firstn (length res') (result_a res') = [gap_char] /\
    firstn (length res') (result_b res') = [gap_char].

(** ** Reading an alignment back *)

(** Deleting every '-' byte. *)
Definition strip_gaps (s : list symbol) : list symbol :=
  filter (fun c => negb (Byte.eqb c gap_char)) s.

(** The [len] bytes of [s] from offset [pos]. *)
Definition substring (s : list symbol) (pos len : nat) : list symbol :=
  firstn len (skipn pos s).

(** The two rows of a result, up to its length. *)
Definition row_a (r : alignment_t) : list symbol := firstn (length r) (result_a r).
Definition row_b (r : alignment_t) : list symbol := firstn (length r) (result_b r).

(** The score of an alignment recomputed from its columns, as the spec words
    it: a symbol column scores its lookup; a gap column scores [gap_open]
    when it opens a run of gaps in its row and [gap_extend] when it
    continues one. *)
Inductive col_kind : Type := KSym | KGapA | KGapB.

Definition kind_of (col : symbol * symbol) : col_kind :=
  if Byte.eqb (fst col) gap_char then KGapA
  else if Byte.eqb (snd col) gap_char then KGapB
  else KSym.

Definition column_score (sc : scoring_t) (prev : col_kind) (col : symbol * symbol)
  : option Z :=
  match kind_of col with
  | KSym => option_map fst (scoring_lookup sc (fst col) (snd col))
  | KGapA => Some (match prev with KGapA => gap_extend sc | _ => gap_open sc end)
  | KGapB => Some (match prev with KGapB => gap_extend sc | _ => gap_open sc end)
  end.

Fixpoint rescore (sc : scoring_t) (prev : col_kind) (cols : list (symbol * symbol))
  : option Z :=
  match cols with
  | [] => Some 0
  | col :: rest =>
      match column_score sc prev col, rescore sc (kind_of col) rest with
      | Some s, Some t => Some (s + t)
      | _, _ => None
      end
  end.

Definition alignment_score (sc : scoring_t) (r : alignment_t) : option Z :=
  rescore sc KSym (combine (row_a r) (row_b r)).

Definition plane_kind (m : Matrix) : col_kind :=
  match m with
  | MATCH => KSym
  | GAP_A => KGapA
  | GAP_B => KGapB
  end.

Definition last_kind (prev : col_kind) (cols : list (symbol * symbol)) : col_kind :=
  last (map kind_of cols) prev.

(** What a caller reads from a result. *)
Definition summary (r : alignment_t)
  : list symbol * list symbol * Z * (nat * nat) * (nat * nat) :=
  (row_a r, row_b r, score r, (pos_a r, len_a r), (pos_b r, len_b r)).

(** [n] fetches on a fresh session for [(a, b, sc)]: the summaries of the
    alignments returned, [None] when the run does not return. *)
Definition enumerate (rd : gap_reading) (a b : string) (sc : scoring_t) (n : nat)
  : option (list (list symbol * list symbol * Z * (nat * nat) * (nat * nat))) :=
  match smith_waterman_align rd (bytes a) (bytes b) sc (smith_waterman_new sc) with
  | Done sw =>
      match fetch_many n 40 rd sw alignment_create with
      | Done (als, _, _) => Some (map summary als)
      | _ => None
      end
  | _ => None
  end.

(** The result [r] was written by a successful [_follow_hit] on the aligner
    [al], at the end cell of [r], and the cells that call's first loop
    visited are those of the traceback from that cell. *)
Definition walked_by (rd : gap_reading) (al : aligner_t) (r : alignment_t) : Prop :=
  exists fuel0 sw0 res0 sw1,
    aligner sw0 = al /\
    _follow_hit fuel0 rd sw0 (end_cell al r) res0 = Done (true, sw1, r) /\
    probe_visits fuel0 rd al (match_scores_mask (history sw0))
      (hit_cursor al (end_cell al r) (score r))
    = cells_of rd al r.

(** Sessions a caller can hold: a new one, then any sequence of
    [smith_waterman_align2] and [smith_waterman_fetch] calls that return. *)
Inductive reachable (rd : gap_reading) : sw_aligner_t -> Prop :=
| reach_new : forall sc, reachable rd (smith_waterman_new sc)
| reach_align : forall a b la lb sc sw sw',
    reachable rd sw ->
    smith_waterman_align2 rd a b la lb sc sw = Done sw' ->
    reachable rd sw'
| reach_fetch : forall fuel sw res found sw' res',
    reachable rd sw ->
    smith_waterman_fetch fuel rd sw res = Done (found, sw', res') ->
    reachable rd sw'.

(** The allocations of a session hold what the code stores in them. *)
Definition within_capacity (sw : sw_aligner_t) : Prop :=
  let al := aligner sw in
  let hist := history sw in
  let arr_size := (score_width al * score_height al)%nat in
  List.length (match_scores_mask hist) = hits_capacity hist /\
  (256 <= hits_capacity hist)%nat /\
  (arr_size <= hits_capacity hist)%nat /\
  (num_of_hits hist <= arr_size)%nat /\
  (next_hit hist <= num_of_hits hist)%nat /\
  Forall (fun pos => (pos < arr_size)%nat) (sorted_match_indices hist).

(** Two sessions that look the same to the enumerator: same matrices, same
    hits, same cursor, and bitmaps that agree on the cells of the matrices
    (the bits past them are allocated but never read). *)
Definition same_view (s t : sw_aligner_t) : Prop :=
  let n := (score_width (aligner s) * score_height (aligner s))%nat in
  aligner t = aligner s /\
  sorted_match_indices (history t) = sorted_match_indices (history s) /\
  num_of_hits (history t) = num_of_hits (history s) /\
  next_hit (history t) = next_hit (history s) /\
  firstn n (match_scores_mask (history t)) = firstn n (match_scores_mask (history s)).

(** The number of cells of the matrices whose bit is still set. *)
Definition cells_left (sw : sw_aligner_t) : nat :=
  count_set (firstn (score_width (aligner sw) * score_height (aligner sw))
                    (match_scores_mask (history sw))).





(** ** A matrix more than 2^31 columns wide

    The input on which the order of the hits goes wrong: sequence A is 'A',
    [n] times 'C', 'A'; sequence B is the single byte 'A'; match 2, mismatch
    -2, gap open -2, gap extend -1.  With [n = 2^31] the matrix has
    [2^31 + 3] columns and two rows, and two cells of score 2: one in column 1
    and one in column [2^31 + 2]. *)
Definition wide_a (n : nat) : list symbol :=
  "A"%byte :: repeat "C"%byte n ++ ["A"%byte].

Definition wide_b : list symbol := ["A"%byte].

Definition wide_sc : scoring_t := simple_scoring 2 (-2) (-2) (-1).

(** The number of 'C' bytes of the failing input. *)
Definition wide_n : nat := Z.to_nat (2 ^ 31).

(** * Properties *)

(** ** Outcomes *)

Lemma bind_Done {A B : Type} (m : outcome A) (k : A -> outcome B) (b : B) :
  bind m k = Done b -> exists a, m = Done a /\ k a = Done b.
Proof. destruct m; simpl; intros H; try discriminate. eauto. Qed.

Lemma lift_Done {A : Type} (o : option A) (a : A) :
  lift o = Done a -> o = Some a.
Proof. destruct o; simpl; intros H; inversion H; reflexivity. Qed.

(** [from H by L get p]: the consequences [p] of lemma [L] at hypothesis [H],
    which is kept. *)
Tactic Notation "from" hyp(H) "by" uconstr(L) "get" simple_intropattern(p) :=
  let H' := fresh in
  pose proof H as H'; eapply L in H'; [revert H'; intros p | ..].

Ltac inv_bind H :=
  let a := fresh "v" in
  let H1 := fresh "Hm" in
  apply bind_Done in H; destruct H as (a & H1 & H);
  try (apply lift_Done in H1).

(** ** The bit array *)

Lemma clear_bit_length ba : forall i ba',
  bit_array_clear_bit ba i = Some ba' -> List.length ba' = List.length ba.
Proof.
  induction ba as [|b tl IH]; intros [|i] ba' H; simpl in H; try discriminate.
  - inversion H; reflexivity.
  - destruct (bit_array_clear_bit tl i) eqn:E; simpl in H; inversion H; subst.
    simpl. f_equal. eauto.
Qed.

Lemma clear_bit_defined ba : forall i,
  (i < List.length ba)%nat -> exists ba', bit_array_clear_bit ba i = Some ba'.
Proof.
  induction ba as [|b tl IH]; intros [|i] H; simpl in *; try lia; eauto.
  destruct (IH i) as (ba' & E); [lia|]. rewrite E. simpl. eauto.
Qed.

Lemma clear_bit_same ba : forall i ba',
  bit_array_clear_bit ba i = Some ba' -> nth_error ba' i = Some false.
Proof.
  induction ba as [|b tl IH]; intros [|i] ba' H; simpl in H; try discriminate.
  - inversion H; reflexivity.
  - destruct (bit_array_clear_bit tl i) eqn:E; simpl in H; inversion H; subst.
    simpl. eauto.
Qed.

Lemma clear_bit_other ba : forall i j ba',
  bit_array_clear_bit ba i = Some ba' -> j <> i ->
  nth_error ba' j = nth_error ba j.
Proof.
  induction ba as [|b tl IH]; intros [|i] j ba' H Hj; simpl in H; try discriminate.
  - inversion H; subst. destruct j; [congruence | reflexivity].
  - destruct (bit_array_clear_bit tl i) eqn:E; simpl in H; inversion H; subst.
    destruct j; simpl; [reflexivity|]. eapply IH; eauto.
Qed.

Lemma clear_bit_count ba : forall i ba',
  nth_error ba i = Some true ->
  bit_array_clear_bit ba i = Some ba' ->
  S (count_set ba') = count_set ba.
Proof.
  unfold count_set.
  induction ba as [|b tl IH]; intros [|i] ba' Hg H; simpl in *; try discriminate.
  - inversion Hg; subst. inversion H; subst. reflexivity.
  - destruct (bit_array_clear_bit tl i) as [tl'|] eqn:E; simpl in H;
      inversion H; subst.
    simpl. destruct b; simpl; rewrite (IH i tl'); auto.
Qed.

Lemma mask_le_refl ba : mask_le ba ba.
Proof. split; auto. Qed.

Lemma mask_le_trans b1 b2 b3 : mask_le b1 b2 -> mask_le b2 b3 -> mask_le b1 b3.
Proof. intros [L1 H1] [L2 H2]. split; [congruence | auto]. Qed.

Lemma clear_bit_le ba i ba' :
  bit_array_clear_bit ba i = Some ba' -> mask_le ba' ba.
Proof.
  intros H. split; [eapply clear_bit_length; eauto|].
  intros j Hj. destruct (Nat.eq_dec j i) as [->|Hne].
  - rewrite (clear_bit_same _ _ H) in Hj. discriminate.
  - rewrite <- (clear_bit_other _ H Hne). exact Hj.
Qed.

Lemma mask_le_clear ba' ba pos : mask_le ba' ba -> is_clear ba pos -> is_clear ba' pos.
Proof.
  unfold is_clear. intros [L H] Hc.
  destruct (nth_error ba' pos) as [[|]|] eqn:E.
  - apply H in E. congruence.
  - reflexivity.
  - apply nth_error_None in E. assert (nth_error ba pos <> None) by congruence.
    apply nth_error_Some in H0. lia.
Qed.

(** ** The first loop of [_follow_hit] *)

Section Probe.

Variable rd : gap_reading.
Variable al : aligner_t.


Lemma probe_mono : forall fuel fuel' mask c len r,
  probe fuel rd al mask c len = Done r -> (fuel <= fuel')%nat ->
  probe fuel' rd al mask c len = Done r.
Proof.
  induction fuel as [|fuel IH]; intros [|fuel'] mask c len r H Hle;
    simpl in H; try discriminate; try lia.
  simpl.
  destruct (lift (bit_array_get_bit mask (arr_index c))) as [[|]| |]; simpl in *;
    try discriminate; auto.
  destruct (lift (bit_array_clear_bit mask (arr_index c))) as [mask'| |];
    simpl in *; try discriminate.
  destruct (curr_score c =? 0); auto.
  destruct (lift (alignment_reverse_move rd al c)) as [c'| |]; simpl in *;
    try discriminate.
  eapply IH; eauto. lia.
Qed.

Lemma probe_le : forall fuel mask c len mask' r,
  probe fuel rd al mask c len = Done (mask', r) -> mask_le mask' mask.
Proof.
  induction fuel as [|fuel IH]; intros mask c len mask' r H; simpl in H;
    [discriminate|].
  inv_bind H. destruct v.
  - simpl in H. inv_bind H.
    destruct (curr_score c =? 0).
    + inversion H; subst. eapply clear_bit_le; eauto.
    + inv_bind H. apply IH in H.
      eapply mask_le_trans; eauto. eapply clear_bit_le; eauto.
  - simpl in H. inversion H; subst. apply mask_le_refl.
Qed.

(** On return, by [break] or by [return 0], every cell the loop looked at
    has its bit clear. *)
Lemma probe_visits_clear : forall fuel mask c len mask' r,
  probe fuel rd al mask c len = Done (mask', r) ->
  Forall (is_clear mask') (probe_visits fuel rd al mask c).
Proof.
  induction fuel as [|fuel IH]; intros mask c len mask' r H; simpl in H;
    [discriminate|].
  inv_bind H. simpl. rewrite Hm. destruct v.
  - simpl in H. inv_bind H. rewrite Hm0.
    pose proof (clear_bit_same _ _ Hm0) as Hs.
    destruct (curr_score c =? 0).
    + inversion H; subst. constructor; [exact Hs | constructor].
    + inv_bind H. rewrite Hm1. constructor.
      * eapply mask_le_clear; [eapply probe_le; eauto | exact Hs].
      * eapply IH; eauto.
  - simpl in H. inversion H; subst.
    constructor; [exact Hm | constructor].
Qed.

(** A probe that completes has walked the whole path, over set bits. *)
Lemma probe_success : forall fuel mask c len mask' n,
  probe fuel rd al mask c len = Done (mask', Some n) ->
  exists cs,
    path rd al c cs /\
    (n + 1 = len + List.length cs)%nat /\
    (List.length cs <= fuel)%nat /\
    probe_visits fuel rd al mask c = map arr_index cs /\
    Forall (is_set mask) (map arr_index cs).
Proof.
  induction fuel as [|fuel IH]; intros mask c len mask' n H; simpl in H;
    [discriminate|].
  inv_bind H. simpl. rewrite Hm. destruct v; simpl in H; [|discriminate].
  inv_bind H. rewrite Hm0.
  destruct (curr_score c =? 0) eqn:Ez.
  - inversion H; subst. exists [c]. apply Z.eqb_eq in Ez.
    repeat split; simpl; try lia.
    + constructor; assumption.
    + constructor; [exact Hm | constructor].
  - inv_bind H. rewrite Hm1. apply Z.eqb_neq in Ez.
    destruct (IH _ _ _ _ _ H) as (cs & Hp & Hn & Hl & Hv & Hs).
    exists (c :: cs). repeat split; simpl; try lia.
    + econstructor; eauto.
    + congruence.
    + constructor; [exact Hm|].
      eapply Forall_impl; [|exact Hs]. intros p Hp'.
      apply (clear_bit_le _ _ Hm0). exact Hp'.
Qed.

Lemma path_walk : forall c cs,
  path rd al c cs -> forall fuel, (List.length cs <= fuel)%nat ->
  walk fuel rd al c = cs.
Proof.
  induction 1 as [c Hz | c c' cs Hnz Hst Hp IH]; intros [|fuel] Hle;
    simpl in *; try lia.
  - rewrite Hz. reflexivity.
  - apply Z.eqb_neq in Hnz. rewrite Hnz, Hst. f_equal. apply IH. lia.
Qed.

Lemma path_nonempty c cs : path rd al c cs -> cs <> [].
Proof. destruct 1; discriminate. Qed.

End Probe.

(** ** The fill *)

Section FillFacts.

Variable rd : gap_reading.
Variable sc : scoring_t.
Variables a b : list symbol.

Lemma dp_border_x y : dp rd sc a b 0 y = border.
Proof. unfold dp. destruct y; reflexivity. Qed.

Lemma dp_border_y x : dp rd sc a b x 0 = border.
Proof. reflexivity. Qed.

Lemma dp_interior x y :
  dp rd sc a b (S x) (S y) =
  {| cM := match_from (dp rd sc a b x y) (pair_score0 sc a b (S x) (S y));
     cGA := gap_from sc
              (match rd with
               | AsIndexed => dp rd sc a b x (S y)
               | AsGlossed => dp rd sc a b (S x) y
               end) cGA (no_gaps_in_a sc);
     cGB := gap_from sc
              (match rd with
               | AsIndexed => dp rd sc a b (S x) y
               | AsGlossed => dp rd sc a b x (S y)
               end) cGB (no_gaps_in_b sc) |}.
Proof. reflexivity. Qed.

Lemma match_from_nonneg d s : 0 <= match_from d s.
Proof. unfold match_from. lia. Qed.

Lemma cM_nonneg x y : 0 <= cM (dp rd sc a b x y).
Proof.
  destruct x as [|x]; [rewrite dp_border_x; simpl; lia|].
  destruct y as [|y]; [rewrite dp_border_y; simpl; lia|].
  rewrite dp_interior. simpl. apply match_from_nonneg.
Qed.

End FillFacts.

Lemma nth_error_tabulate {A : Type} (n : nat) (f : nat -> A) (i : nat) :
  (i < n)%nat -> nth_error (tabulate n f) i = Some (f i).
Proof.
  intros H. unfold tabulate. rewrite nth_error_map.
  rewrite nth_error_seq. destruct (Nat.ltb_spec i n); [reflexivity | lia].
Qed.

Lemma length_tabulate {A : Type} (n : nat) (f : nat -> A) :
  List.length (tabulate n f) = n.
Proof. unfold tabulate. rewrite length_map, length_seq. reflexivity. Qed.

Lemma ARR_2D_X_INDEX w x y : (x < w)%nat -> ARR_2D_X (ARR_2D_INDEX w x y) w = x.
Proof.
  intros H. unfold ARR_2D_X, ARR_2D_INDEX.
  rewrite Nat.add_comm, Nat.Div0.mod_add. apply Nat.mod_small; assumption.
Qed.

Lemma ARR_2D_Y_INDEX w x y : (x < w)%nat -> ARR_2D_Y (ARR_2D_INDEX w x y) w = y.
Proof.
  intros H. unfold ARR_2D_Y, ARR_2D_INDEX.
  rewrite Nat.add_comm, Nat.div_add by lia. rewrite Nat.div_small by assumption.
  reflexivity.
Qed.

Lemma ARR_2D_INDEX_lt w h x y :
  (x < w)%nat -> (y < h)%nat -> (ARR_2D_INDEX w x y < w * h)%nat.
Proof. unfold ARR_2D_INDEX. intros. nia. Qed.

Lemma ARR_2D_INDEX_XY w pos :
  (0 < w)%nat -> ARR_2D_INDEX w (ARR_2D_X pos w) (ARR_2D_Y pos w) = pos.
Proof.
  intros H. unfold ARR_2D_INDEX, ARR_2D_X, ARR_2D_Y.
  pose proof (Nat.div_mod_eq pos w). lia.
Qed.

Lemma all_pairs_scored_spec sc a b la lb :
  all_pairs_scored sc a b la lb = true ->
  forall x y, (0 < x <= la)%nat -> (0 < y <= lb)%nat ->
  exists s, pair_score sc a b x y = Some s.
Proof.
  unfold all_pairs_scored. intros H x y Hx Hy.
  rewrite forallb_forall in H.
  specialize (H y). rewrite forallb_forall in H.
  assert (Hiy : In y (seq 1 lb)) by (apply in_seq; lia).
  assert (Hix : In x (seq 1 la)) by (apply in_seq; lia).
  specialize (H Hiy x Hix).
  destruct (pair_score sc a b x y) as [s|]; [eauto | discriminate].
Qed.

Lemma aligner_align_filled rd a b la lb sc al :
  aligner_align rd a b la lb sc = Done al ->
  filled rd al /\ score_width al = S la /\ score_height al = S lb /\
  seq_a al = a /\ seq_b al = b /\ scoring al = sc.
Proof.
  unfold aligner_align. destruct (all_pairs_scored sc a b la lb) eqn:E;
    [|discriminate].
  intros H.
  assert (Hal : al = {| seq_a := a; seq_b := b;
            score_width := S la; score_height := S lb;
            match_scores := tabulate (S la * S lb) (fun pos =>
              cM (dp rd sc a b (ARR_2D_X pos (S la)) (ARR_2D_Y pos (S la))));
            gap_a_scores := tabulate (S la * S lb) (fun pos =>
              cGA (dp rd sc a b (ARR_2D_X pos (S la)) (ARR_2D_Y pos (S la))));
            gap_b_scores := tabulate (S la * S lb) (fun pos =>
              cGB (dp rd sc a b (ARR_2D_X pos (S la)) (ARR_2D_Y pos (S la))));
            scoring := sc |}) by congruence.
  clear H. subst al.
  unfold filled, dp_of.
  cbn [seq_a seq_b score_width score_height match_scores gap_a_scores
       gap_b_scores scoring].
  repeat split; try lia.
  - rewrite nth_error_tabulate
      by (apply ARR_2D_INDEX_lt; assumption).
    rewrite ARR_2D_X_INDEX, ARR_2D_Y_INDEX by assumption. reflexivity.
  - rewrite nth_error_tabulate
      by (apply ARR_2D_INDEX_lt; assumption).
    rewrite ARR_2D_X_INDEX, ARR_2D_Y_INDEX by assumption. reflexivity.
  - rewrite nth_error_tabulate
      by (apply ARR_2D_INDEX_lt; assumption).
    rewrite ARR_2D_X_INDEX, ARR_2D_Y_INDEX by assumption. reflexivity.
  - intros x y Hx Hy. eapply all_pairs_scored_spec; eauto; lia.
  - apply length_tabulate.
Qed.

(** ** One traceback step on a filled aligner *)

Lemma gap_from_cases sc pred plane sup v :
  gap_from sc pred plane sup = Some v ->
  sup = false /\
  (v = cM pred + gap_open sc \/
   exists g, plane pred = Some g /\ v = g + gap_extend sc) /\
  cM pred + gap_open sc <= v /\
  (forall g, plane pred = Some g -> g + gap_extend sc <= v).
Proof.
  unfold gap_from. destruct sup; [discriminate|].
  destruct (plane pred) as [g|]; simpl; intros H; inversion H; subst; clear H.
  - split; [reflexivity|]. split; [|split; [lia|]].
    + destruct (Z.max_spec (cM pred + gap_open sc) (g + gap_extend sc))
        as [[_ ->]|[_ ->]]; eauto.
    + intros g' Hg; inversion Hg; subst. lia.
  - split; [reflexivity|]. split; [left; reflexivity|]. split; [lia|].
    intros g' Hg; discriminate.
Qed.

Lemma match_from_cases d s v :
  match_from d s = v -> v <> 0 ->
  (v = cM d + s \/
   (exists g, cGA d = Some g /\ v = g + s) \/
   (exists g, cGB d = Some g /\ v = g + s)) /\
  cM d + s <= v.
Proof.
  unfold match_from. intros H Hnz.
  destruct (cGA d) as [ga|], (cGB d) as [gb|]; simpl in H; split; try lia.
  - destruct (Z.eq_dec v (cM d + s)); [auto|].
    destruct (Z.eq_dec v (ga + s)); [right; left; eauto|].
    right; right. exists gb. split; [reflexivity | lia].
  - destruct (Z.eq_dec v (cM d + s)); [auto|].
    right; left. exists ga. split; [reflexivity | lia].
  - destruct (Z.eq_dec v (cM d + s)); [auto|].
    right; right. exists gb. split; [reflexivity | lia].
Qed.

Ltac cursor_fields :=
  cbn [curr_matrix curr_score score_x score_y arr_index gval plane_after].

Lemma step_match rd al v x y idx :
  filled rd al ->
  on_plane rd al {| curr_matrix := MATCH; curr_score := v;
                    score_x := x; score_y := y; arr_index := idx |} ->
  v <> 0 ->
  exists c',
    alignment_reverse_move rd al
      {| curr_matrix := MATCH; curr_score := v;
         score_x := x; score_y := y; arr_index := idx |} = Some c' /\
    step_ok rd al {| curr_matrix := MATCH; curr_score := v;
                     score_x := x; score_y := y; arr_index := idx |} c'.
Proof.
  intros (Hw & Harr & Hps & _) (Hx & Hy & Hidx & Hpl) Hnz. simpl in *.
  unfold dp_of in Hpl.
  destruct x as [|x]; [rewrite dp_border_x in Hpl; simpl in Hpl; lia|].
  destruct y as [|y]; [rewrite dp_border_y in Hpl; simpl in Hpl; lia|].
  rewrite dp_interior in Hpl. cbn [cM] in Hpl.
  destruct (Hps (S x) (S y)) as (s & Hs); [lia | lia |].
  unfold pair_score0 in Hpl. rewrite Hs in Hpl.
  destruct (Harr x y) as (Hm & Hga & Hgb); [lia | lia |].
  fold (dp_of rd al x y) in Hpl.
  destruct (match_from_cases _ _ Hpl Hnz) as (Hcase & Hge).
  pose proof (cM_nonneg rd (scoring al) (seq_a al) (seq_b al) x y) as Hnn.
  fold (dp_of rd al x y) in Hnn.
  unfold alignment_reverse_move, step_ok, on_plane, edge_score, pair_score0,
    gap_positive.
  cbn [curr_matrix curr_score score_x score_y arr_index step_back pred_nat].
  rewrite Hm, Hga, Hgb, Hs.
  destruct (Z.eqb_spec (cM (dp_of rd al x y) + s) v) as [E1|E1].
  { eexists; split; [reflexivity|]. cursor_fields.
    repeat split; try lia; try congruence. }
  unfold matches.
  destruct (cGA (dp_of rd al x y)) as [ga|] eqn:Ega.
  - destruct (Z.eqb_spec (ga + s) v) as [E2|E2].
    { eexists; split; [reflexivity|]. cursor_fields. rewrite ?Ega.
      repeat split; try lia; try congruence. }
    destruct (cGB (dp_of rd al x y)) as [gb|] eqn:Egb.
    + destruct (Z.eqb_spec (gb + s) v) as [E3|E3].
      { eexists; split; [reflexivity|]. cursor_fields. rewrite ?Egb.
        repeat split; try lia; try congruence. }
      exfalso. destruct Hcase as [H|[(g & Hg & H)|(g & Hg & H)]];
        try inversion Hg; subst; lia.
    + exfalso. destruct Hcase as [H|[(g & Hg & H)|(g & Hg & H)]];
        try inversion Hg; subst; lia.
  - destruct (cGB (dp_of rd al x y)) as [gb|] eqn:Egb.
    + destruct (Z.eqb_spec (gb + s) v) as [E3|E3].
      { eexists; split; [reflexivity|]. cursor_fields. rewrite ?Egb.
        repeat split; try lia; try congruence. }
      exfalso. destruct Hcase as [H|[(g & Hg & H)|(g & Hg & H)]];
        try inversion Hg; subst; lia.
    + exfalso. destruct Hcase as [H|[(g & Hg & H)|(g & Hg & H)]];
        try inversion Hg; subst; lia.
Qed.

Lemma step_gap_a rd al v x y idx :
  filled rd al ->
  on_plane rd al {| curr_matrix := GAP_A; curr_score := v;
                    score_x := x; score_y := y; arr_index := idx |} ->
  exists c',
    alignment_reverse_move rd al
      {| curr_matrix := GAP_A; curr_score := v;
         score_x := x; score_y := y; arr_index := idx |} = Some c' /\
    step_ok rd al {| curr_matrix := GAP_A; curr_score := v;
                     score_x := x; score_y := y; arr_index := idx |} c'.
Proof.
  intros (Hw & Harr & Hps & _) (Hx & Hy & Hidx & Hpl). simpl in *.
  unfold dp_of in Hpl.
  destruct x as [|x]; [rewrite dp_border_x in Hpl; discriminate|].
  destruct y as [|y]; [rewrite dp_border_y in Hpl; discriminate|].
  rewrite dp_interior in Hpl. cbn [cGA] in Hpl.
  apply gap_from_cases in Hpl. destruct Hpl as (_ & Hcase & Hge & Hge').
  unfold alignment_reverse_move, step_ok, on_plane, edge_score, gap_positive,
    gap_penalties.
  cbn [curr_matrix curr_score score_x score_y arr_index].
  destruct rd; cbn [step_back pred_nat option_map].
  - destruct (Harr x (S y)) as (Hm & Hga & Hgb); [lia | lia |].
    pose proof (cM_nonneg AsIndexed (scoring al) (seq_a al) (seq_b al) x (S y)) as Hnn.
    fold (dp_of AsIndexed al x (S y)) in *.
    rewrite Hm, Hga, Hgb.
    destruct (Z.eqb_spec (cM (dp_of AsIndexed al x (S y)) + gap_open (scoring al)) v)
      as [E1|E1].
    { eexists; split; [reflexivity|]. cursor_fields.
      repeat split; try lia; try congruence. }
    unfold matches.
    destruct (cGA (dp_of AsIndexed al x (S y))) as [ga|] eqn:Ega.
    + specialize (Hge' ga eq_refl).
      destruct (Z.eqb_spec (ga + gap_extend (scoring al)) v) as [E2|E2].
      { eexists; split; [reflexivity|]. cursor_fields. rewrite ?Ega.
        repeat split; try lia; try congruence.
        intros [? ?] Hp _. specialize (Hp ltac:(discriminate)). lia. }
      exfalso. destruct Hcase as [H|(g & Hg & H)]; try inversion Hg; subst; lia.
    + exfalso. destruct Hcase as [H|(g & Hg & H)]; try inversion Hg; subst; lia.
  - destruct (Harr (S x) y) as (Hm & Hga & Hgb); [lia | lia |].
    pose proof (cM_nonneg AsGlossed (scoring al) (seq_a al) (seq_b al) (S x) y) as Hnn.
    fold (dp_of AsGlossed al (S x) y) in *.
    rewrite Hm, Hga, Hgb.
    destruct (Z.eqb_spec (cM (dp_of AsGlossed al (S x) y) + gap_open (scoring al)) v)
      as [E1|E1].
    { eexists; split; [reflexivity|]. cursor_fields.
      repeat split; try lia; try congruence. }
    unfold matches.
    destruct (cGA (dp_of AsGlossed al (S x) y)) as [ga|] eqn:Ega.
    + specialize (Hge' ga eq_refl).
      destruct (Z.eqb_spec (ga + gap_extend (scoring al)) v) as [E2|E2].
      { eexists; split; [reflexivity|]. cursor_fields. rewrite ?Ega.
        repeat split; try lia; try congruence.
        intros [? ?] Hp _. specialize (Hp ltac:(discriminate)). lia. }
      exfalso. destruct Hcase as [H|(g & Hg & H)]; try inversion Hg; subst; lia.
    + exfalso. destruct Hcase as [H|(g & Hg & H)]; try inversion Hg; subst; lia.
Qed.

Lemma step_gap_b rd al v x y idx :
  filled rd al ->
  on_plane rd al {| curr_matrix := GAP_B; curr_score := v;
                    score_x := x; score_y := y; arr_index := idx |} ->
  exists c',
    alignment_reverse_move rd al
      {| curr_matrix := GAP_B; curr_score := v;
         score_x := x; score_y := y; arr_index := idx |} = Some c' /\
    step_ok rd al {| curr_matrix := GAP_B; curr_score := v;
                     score_x := x; score_y := y; arr_index := idx |} c'.
Proof.
  intros (Hw & Harr & Hps & _) (Hx & Hy & Hidx & Hpl). simpl in *.
  unfold dp_of in Hpl.
  destruct x as [|x]; [rewrite dp_border_x in Hpl; discriminate|].
  destruct y as [|y]; [rewrite dp_border_y in Hpl; discriminate|].
  rewrite dp_interior in Hpl. cbn [cGB] in Hpl.
  apply gap_from_cases in Hpl. destruct Hpl as (_ & Hcase & Hge & Hge').
  unfold alignment_reverse_move, step_ok, on_plane, edge_score, gap_positive,
    gap_penalties.
  cbn [curr_matrix curr_score score_x score_y arr_index].
  destruct rd; cbn [step_back pred_nat option_map].
  - destruct (Harr (S x) y) as (Hm & Hga & Hgb); [lia | lia |].
    pose proof (cM_nonneg AsIndexed (scoring al) (seq_a al) (seq_b al) (S x) y) as Hnn.
    fold (dp_of AsIndexed al (S x) y) in *.
    rewrite Hm, Hga, Hgb.
    destruct (Z.eqb_spec (cM (dp_of AsIndexed al (S x) y) + gap_open (scoring al)) v)
      as [E1|E1].
    { eexists; split; [reflexivity|]. cursor_fields.
      repeat split; try lia; try congruence. }
    unfold matches.
    destruct (cGB (dp_of AsIndexed al (S x) y)) as [gb|] eqn:Egb.
    + specialize (Hge' gb eq_refl).
      destruct (Z.eqb_spec (gb + gap_extend (scoring al)) v) as [E2|E2].
      { eexists; split; [reflexivity|]. cursor_fields. rewrite ?Egb.
        repeat split; try lia; try congruence.
        intros [? ?] Hp _. specialize (Hp ltac:(discriminate)). lia. }
      exfalso. destruct Hcase as [H|(g & Hg & H)]; try inversion Hg; subst; lia.
    + exfalso. destruct Hcase as [H|(g & Hg & H)]; try inversion Hg; subst; lia.
  - destruct (Harr x (S y)) as (Hm & Hga & Hgb); [lia | lia |].
    pose proof (cM_nonneg AsGlossed (scoring al) (seq_a al) (seq_b al) x (S y)) as Hnn.
    fold (dp_of AsGlossed al x (S y)) in *.
    rewrite Hm, Hga, Hgb.
    destruct (Z.eqb_spec (cM (dp_of AsGlossed al x (S y)) + gap_open (scoring al)) v)
      as [E1|E1].
    { eexists; split; [reflexivity|]. cursor_fields.
      repeat split; try lia; try congruence. }
    unfold matches.
    destruct (cGB (dp_of AsGlossed al x (S y))) as [gb|] eqn:Egb.
    + specialize (Hge' gb eq_refl).
      destruct (Z.eqb_spec (gb + gap_extend (scoring al)) v) as [E2|E2].
      { eexists; split; [reflexivity|]. cursor_fields. rewrite ?Egb.
        repeat split; try lia; try congruence.
        intros [? ?] Hp _. specialize (Hp ltac:(discriminate)). lia. }
      exfalso. destruct Hcase as [H|(g & Hg & H)]; try inversion Hg; subst; lia.
    + exfalso. destruct Hcase as [H|(g & Hg & H)]; try inversion Hg; subst; lia.
Qed.

Lemma step_filled rd al c :
  filled rd al -> on_plane rd al c -> curr_score c <> 0 ->
  exists c', alignment_reverse_move rd al c = Some c' /\ step_ok rd al c c'.
Proof.
  intros Hf Hp Hnz. destruct c as [m v x y idx]. destruct m.
  - apply step_match; assumption.
  - apply step_gap_a; assumption.
  - apply step_gap_b; assumption.
Qed.

Lemma step_back_less rd m x y x' y' :
  step_back rd m x y = Some (x', y') ->
  (x' <= x /\ y' <= y /\ x' + y' < x + y)%nat.
Proof.
  unfold step_back.
  destruct m, rd, x as [|x0], y as [|y0]; simpl; intros H; inversion H; lia.
Qed.

(** On a filled aligner every cursor on its plane has a complete traceback,
    of at most [x + y + 1] cursors, all on their planes. *)
Lemma path_exists rd al : filled rd al -> forall n c,
  (score_x c + score_y c < n)%nat -> on_plane rd al c ->
  exists cs, path rd al c cs /\ (List.length cs <= n)%nat /\
             Forall (on_plane rd al) cs.
Proof.
  intros Hf. induction n as [|n IH]; intros c Hn Hp; [lia|].
  destruct (Z.eq_dec (curr_score c) 0) as [Hz|Hnz].
  - exists [c]. repeat split; simpl; try lia; [constructor; assumption|].
    constructor; [assumption | constructor].
  - destruct (step_filled Hf Hp Hnz) as (c' & Hst & Hp' & Hsb & _).
    apply step_back_less in Hsb.
    destruct (IH c') as (cs & Hpath & Hlen & Hall); [lia | assumption |].
    exists (c :: cs). repeat split; simpl; try lia.
    + econstructor; eauto.
    + constructor; assumption.
Qed.

Lemma path_unique rd al c cs1 :
  path rd al c cs1 -> forall cs2, path rd al c cs2 -> cs1 = cs2.
Proof.
  induction 1 as [c Hz | c c' cs Hnz Hst Hp IH]; intros cs2 H2; inversion H2; subst;
    try congruence.
  f_equal. apply IH. congruence.
Qed.

Lemma on_plane_index rd al c :
  on_plane rd al c -> (arr_index c < score_width al * score_height al)%nat.
Proof.
  intros (Hx & Hy & Hi & _). rewrite Hi. apply ARR_2D_INDEX_lt; assumption.
Qed.

(** On a filled aligner the first loop returns: no read leaves the arrays
    and every step finds its predecessor. *)
Lemma probe_done rd al : filled rd al -> forall fuel mask c len,
  on_plane rd al c ->
  (score_width al * score_height al <= List.length mask)%nat ->
  (score_x c + score_y c < fuel)%nat ->
  exists mask' r, probe fuel rd al mask c len = Done (mask', r).
Proof.
  intros Hf. induction fuel as [|fuel IH]; intros mask c len Hp Hlen Hfu; [lia|].
  simpl. pose proof (on_plane_index Hp) as Hidx.
  unfold bit_array_get_bit.
  destruct (nth_error mask (arr_index c)) as [bit|] eqn:Eb.
  2:{ apply nth_error_None in Eb. lia. }
  simpl. destruct bit; simpl; [|eauto].
  destruct (@clear_bit_defined mask (arr_index c)) as (mask1 & Ec); [lia|].
  rewrite Ec. simpl.
  destruct (Z.eqb_spec (curr_score c) 0) as [Hz|Hnz]; [eauto|].
  destruct (step_filled Hf Hp Hnz) as (c' & Hst & Hp' & Hsb & _).
  rewrite Hst. simpl. apply step_back_less in Hsb.
  apply IH; try assumption; try lia.
  rewrite (clear_bit_length _ _ Ec). assumption.
Qed.

(** ** The second loop of [_follow_hit] *)

Lemma buf_store_spec buf : forall i v buf',
  buf_store buf i v = Some buf' ->
  (i < List.length buf)%nat /\ buf' = firstn i buf ++ v :: skipn (S i) buf.
Proof.
  induction buf as [|c tl IH]; intros [|i] v buf' H; simpl in H; try discriminate.
  - inversion H; subst. simpl. split; [lia | reflexivity].
  - destruct (buf_store tl i v) as [tl'|] eqn:E; simpl in H; inversion H; subst.
    destruct (IH _ _ _ E) as (Hl & ->). simpl. split; [lia | reflexivity].
Qed.

Lemma buf_store_defined buf : forall i v,
  (i < List.length buf)%nat -> exists buf', buf_store buf i v = Some buf'.
Proof.
  induction buf as [|c tl IH]; intros [|i] v H; simpl in *; try lia; eauto.
  destruct (IH i v) as (buf' & E); [lia|]. rewrite E. simpl. eauto.
Qed.

Lemma buf_store_length buf : forall i v buf',
  buf_store buf i v = Some buf' -> List.length buf' = List.length buf.
Proof.
  induction buf as [|c tl IH]; intros [|i] v buf' H; simpl in H; try discriminate.
  - inversion H; reflexivity.
  - destruct (buf_store tl i v) as [tl'|] eqn:E; simpl in H; inversion H; subst.
    simpl. f_equal. eauto.
Qed.

(** A cursor that is not at score zero in MATCH, or that is in a gap plane,
    sits on an interior cell, whose two symbols exist. *)
Lemma on_plane_interior rd al c :
  filled rd al -> on_plane rd al c ->
  (curr_matrix c = MATCH -> curr_score c <> 0) ->
  exists x y ca cb,
    score_x c = S x /\ score_y c = S y /\
    nth_error (seq_a al) x = Some ca /\ nth_error (seq_b al) y = Some cb.
Proof.
  intros (Hw & Harr & Hps & _) (Hx & Hy & Hidx & Hpl) Hnz.
  unfold dp_of in Hpl.
  destruct (score_x c) as [|x] eqn:Ex.
  { rewrite dp_border_x in Hpl. destruct (curr_matrix c); simpl in Hpl;
      try discriminate. exfalso. apply Hnz; [reflexivity | congruence]. }
  destruct (score_y c) as [|y] eqn:Ey.
  { rewrite dp_border_y in Hpl. destruct (curr_matrix c); simpl in Hpl;
      try discriminate. exfalso. apply Hnz; [reflexivity | congruence]. }
  destruct (Hps (S x) (S y)) as (s & Hs); [lia | lia |].
  unfold pair_score in Hs. simpl in Hs. rewrite !Nat.sub_0_r in Hs.
  destruct (nth_error (seq_a al) x) as [ca|] eqn:Ea; [|discriminate].
  destruct (nth_error (seq_b al) y) as [cb|] eqn:Eb; [|discriminate].
  exists x, y, ca, cb. repeat split; auto.
Qed.

Lemma emit_column_defined rd al c :
  filled rd al -> on_plane rd al c -> 0 < curr_score c ->
  exists col, emit_column al c = Some col.
Proof.
  intros Hf Hp Hpos.
  destruct (on_plane_interior Hf Hp) as (x & y & ca & cb & Ex & Ey & Ha & Hb);
    [lia|].
  unfold emit_column. rewrite Ex, Ey. simpl. rewrite Ha, Hb.
  destruct (curr_matrix c); simpl; eauto.
Qed.

Lemma to_uint_range z : 0 <= to_uint z < 2 ^ 32.
Proof. unfold to_uint. apply Z.mod_pos_bound. lia. Qed.

Lemma to_uint_small z : 0 <= z < 2 ^ 32 -> to_uint z = z.
Proof. unfold to_uint. intros. apply Z.mod_small; assumption. Qed.

(** The second loop returns whenever the first one has: it runs over at most
    the cursors the first loop walked, and its index stays below the counted
    length even when that length does not fit an [unsigned int]. *)
Lemma emit_done rd al : filled rd al -> forall cs c,
  path rd al c cs -> on_plane rd al c ->
  forall fuel i ra rb (L : nat),
  (List.length cs <= fuel)%nat ->
  (L <= List.length ra)%nat -> (L <= List.length rb)%nat ->
  (List.length cs = 1%nat \/
   (0 <= i < 2 ^ 32 /\ i < Z.of_nat L /\
    (Z.of_nat L <= 2 ^ 32 -> Z.of_nat (List.length cs) - 1 <= i + 1))) ->
  exists c' ra' rb',
    emit fuel rd al c i ra rb = Done (c', ra', rb') /\
    List.length ra' = List.length ra /\ List.length rb' = List.length rb.
Proof.
  intros Hf. induction 1 as [c Hz | c c' cs Hnz Hst Hp IH];
    intros Hon fuel i ra rb L Hfu Hra Hrb Hi; destruct fuel as [|fuel];
    simpl in Hfu; try lia; simpl.
  - rewrite Hz. simpl. exists c, ra, rb. auto.
  - destruct (Z.gtb_spec (curr_score c) 0) as [Hpos|Hneg];
      [|exists c, ra, rb; auto].
    destruct Hi as [Hi|(Hi0 & HiL & Hbound)].
    { pose proof (path_nonempty Hp). destruct cs; simpl in Hi; [congruence | lia]. }
    change (List.length (c :: cs)) with (S (List.length cs)) in Hbound.
    rewrite Nat2Z.inj_succ in Hbound.
    destruct (emit_column_defined Hf Hon Hpos) as (col & Hcol). rewrite Hcol. simpl.
    destruct (@buf_store_defined ra (Z.to_nat i) (fst col)) as (ra1 & Ea); [lia|].
    destruct (@buf_store_defined rb (Z.to_nat i) (snd col)) as (rb1 & Eb); [lia|].
    rewrite Ea, Eb, Hst. simpl.
    destruct (step_filled Hf Hon Hnz) as (c2 & Hst2 & Hon2 & _).
    assert (c2 = c') by congruence. subst c2.
    destruct (IH Hon2 fuel (to_uint (i - 1)) ra1 rb1 L) as (cf & ra' & rb' & He & La & Lb).
    + lia.
    + rewrite (buf_store_length _ _ _ Ea). assumption.
    + rewrite (buf_store_length _ _ _ Eb). assumption.
    + destruct (Nat.eq_dec (List.length cs) 1) as [E1|E1]; [left; assumption|].
      right. pose proof (path_nonempty Hp) as Hne.
      assert (2 <= List.length cs)%nat by (destruct cs; simpl in *; [congruence | lia]).
      pose proof (to_uint_range (i - 1)).
      destruct (Z.eq_dec i 0) as [->|Hi1].
      * change (to_uint (0 - 1)) with (2 ^ 32 - 1) in *. lia.
      * rewrite to_uint_small by lia. lia.
    + exists cf, ra', rb'. rewrite He.
      rewrite La, Lb, (buf_store_length _ _ _ Ea), (buf_store_length _ _ _ Eb). auto.
Qed.

(** ** [_follow_hit] on a primed session *)

Lemma ROUNDUP2POW_ge n : (n <= ROUNDUP2POW n)%nat.
Proof.
  unfold ROUNDUP2POW. destruct (Nat.le_gt_cases n 1) as [H|H].
  - pose proof (Nat.pow_nonzero 2 (Nat.log2_up n)). lia.
  - apply Nat.log2_up_spec in H. lia.
Qed.

Lemma buf_resize_length buf n : List.length (buf_resize buf n) = n.
Proof.
  unfold buf_resize. rewrite length_app, length_firstn, repeat_length. lia.
Qed.

Lemma ensure_capacity_ok res n :
  result_ok res ->
  result_ok (alignment_ensure_capacity res n) /\
  (n + 1 <= capacity (alignment_ensure_capacity res n))%nat.
Proof.
  intros [Ha Hb]. unfold alignment_ensure_capacity, result_ok.
  destruct (Nat.ltb_spec (capacity res) (n + 1)); simpl.
  - rewrite !buf_resize_length. pose proof (ROUNDUP2POW_ge (n + 1)). lia.
  - lia.
Qed.

Lemma hit_cursor_on_plane rd al pos v :
  filled rd al ->
  (pos < score_width al * score_height al)%nat ->
  nth_error (match_scores al) pos = Some v ->
  on_plane rd al (hit_cursor al pos v).
Proof.
  intros (Hw & Harr & _ & _) Hpos Hv. unfold on_plane, hit_cursor. simpl.
  assert (Hx : (ARR_2D_X pos (score_width al) < score_width al)%nat)
    by (apply Nat.mod_upper_bound; lia).
  assert (Hy : (ARR_2D_Y pos (score_width al) < score_height al)%nat)
    by (apply Nat.Div0.div_lt_upper_bound; assumption).
  pose proof (ARR_2D_INDEX_XY pos Hw) as Hi.
  repeat split; try assumption; [congruence|].
  destruct (Harr _ _ Hx Hy) as (Hm & _). simpl in Hm. rewrite Hi in Hm. congruence.
Qed.

Lemma same_hits_refl sw : same_hits sw sw.
Proof. repeat split. Qed.

Lemma same_hits_trans s1 s2 s3 : same_hits s1 s2 -> same_hits s2 s3 -> same_hits s1 s3.
Proof. unfold same_hits. intuition congruence. Qed.

Lemma session_ok_set_mask rd sw mask :
  session_ok rd sw -> mask_le mask (match_scores_mask (history sw)) ->
  session_ok rd (set_mask sw mask).
Proof.
  intros (Hf & Hl & Hh & Hn) [Hlen _]. unfold session_ok. simpl.
  split; [exact Hf|]. split; [lia|]. split; assumption.
Qed.

(** The two ways [_follow_hit] returns. *)
Lemma follow_inv fuel rd sw pos res found sw' res' :
  _follow_hit fuel rd sw pos res = Done (found, sw', res') ->
  exists v mask',
    nth_error (match_scores (aligner sw)) pos = Some v /\
    sw' = set_mask sw mask' /\
    ((found = false /\ res' = res /\
      probe fuel rd (aligner sw) (match_scores_mask (history sw))
            (hit_cursor (aligner sw) pos v) 0 = Done (mask', None))
     \/
     (found = true /\
      exists len c ra rb ra' rb',
        let start := hit_cursor (aligner sw) pos v in
        let res1 := alignment_ensure_capacity res len in
        probe fuel rd (aligner sw) (match_scores_mask (history sw)) start 0
          = Done (mask', Some len) /\
        emit fuel rd (aligner sw) start (to_uint (Z.of_nat len - 1))
             (result_a res1) (result_b res1) = Done (c, ra, rb) /\
        buf_store ra len x00 = Some ra' /\
        buf_store rb len x00 = Some rb' /\
        res' = {| result_a := ra'; result_b := rb';
                  capacity := capacity res1;
                  length := len;
                  pos_a := score_x c; pos_b := score_y c;
                  len_a := score_x start - score_x c;
                  len_b := score_y start - score_y c;
                  score := v |})).
Proof.
  unfold _follow_hit. intros H.
  inv_bind H. rename v into v0. inv_bind H. destruct v as [mask' [len|]].
  - inv_bind H. destruct v as [[c ra] rb]. inv_bind H. inv_bind H.
    inversion H; subst; clear H.
    exists v0, mask'. repeat split; try assumption.
    right. split; [reflexivity|].
    exists len, c, ra, rb, v, v1. repeat split; assumption.
  - inversion H; subst; clear H.
    exists v0, mask'. repeat split; try assumption.
    left. repeat split. assumption.
Qed.

Lemma to_uint_le z : 0 <= z -> to_uint z <= z.
Proof. intros H. unfold to_uint. apply Z.mod_le; lia. Qed.

(** On a primed session [_follow_hit] returns, for any hit inside the
    matrices, once the fuel exceeds [x + y + 1]. *)
Lemma follow_done rd sw pos res fuel :
  session_ok rd sw -> result_ok res ->
  (pos < score_width (aligner sw) * score_height (aligner sw))%nat ->
  (score_width (aligner sw) + score_height (aligner sw) <= fuel)%nat ->
  exists found sw' res',
    _follow_hit fuel rd sw pos res = Done (found, sw', res').
Proof.
  intros (Hf & Hl & Hh & Hn) Hres Hpos Hfuel.
  unfold _follow_hit.
  destruct (nth_error (match_scores (aligner sw)) pos) as [v|] eqn:Ev.
  2:{ apply nth_error_None in Ev. destruct Hf as (_ & _ & _ & Hlen). lia. }
  simpl.
  pose proof (hit_cursor_on_plane Hf Hpos Ev) as Hon.
  set (start := hit_cursor (aligner sw) pos v) in *.
  assert (Hxy : (score_x start + score_y start < fuel)%nat).
  { destruct Hon as (Hx & Hy & _). lia. }
  destruct (probe_done Hf (match_scores_mask (history sw)) 0 Hon Hl Hxy)
    as (mask' & r & Hpr).
  rewrite Hpr. simpl. destruct r as [len|]; [|eauto].
  destruct (probe_success _ _ _ _ _ _ Hpr) as (cs & Hpath & Hn' & Hlen & _).
  destruct (ensure_capacity_ok len Hres) as ((Ha & Hb) & Hcap).
  set (res1 := alignment_ensure_capacity res len) in *.
  destruct (@emit_done rd (aligner sw) Hf cs start Hpath Hon fuel
              (to_uint (Z.of_nat len - 1)) (result_a res1) (result_b res1) len)
    as (c & ra & rb & Hem & La & Lb); try lia.
  { destruct (Nat.eq_dec len 0) as [E|E]; [left; lia|]. right.
    pose proof (to_uint_range (Z.of_nat len - 1)).
    pose proof (@to_uint_le (Z.of_nat len - 1)).
    repeat split; try lia.
    intros Hsmall. rewrite to_uint_small by lia. lia. }
  rewrite Hem. simpl.
  destruct (@buf_store_defined ra len x00) as (ra' & Ea); [lia|].
  destruct (@buf_store_defined rb len x00) as (rb' & Eb); [lia|].
  rewrite Ea, Eb. simpl. eauto.
Qed.

Lemma emit_length rd al : forall fuel c i ra rb c' ra' rb',
  emit fuel rd al c i ra rb = Done (c', ra', rb') ->
  List.length ra' = List.length ra /\ List.length rb' = List.length rb.
Proof.
  induction fuel as [|fuel IH]; intros c i ra rb c' ra' rb' H; simpl in H;
    [discriminate|].
  destruct (curr_score c >? 0).
  - inv_bind H. inv_bind H. inv_bind H. inv_bind H.
    apply IH in H. destruct H as [Ha Hb].
    rewrite Ha, Hb, (buf_store_length _ _ _ Hm0), (buf_store_length _ _ _ Hm1).
    auto.
  - inversion H; subst. auto.
Qed.

Lemma emit_mono rd al : forall fuel fuel' c i ra rb r,
  emit fuel rd al c i ra rb = Done r -> (fuel <= fuel')%nat ->
  emit fuel' rd al c i ra rb = Done r.
Proof.
  induction fuel as [|fuel IH]; intros [|fuel'] c i ra rb r H Hle;
    simpl in H; try discriminate; try lia.
  simpl. destruct (curr_score c >? 0); [|assumption].
  destruct (lift (emit_column al c)) as [col| |]; simpl in *; try discriminate.
  destruct (lift (buf_store ra (Z.to_nat i) (fst col))) as [ra1| |]; simpl in *;
    try discriminate.
  destruct (lift (buf_store rb (Z.to_nat i) (snd col))) as [rb1| |]; simpl in *;
    try discriminate.
  destruct (lift (alignment_reverse_move rd al c)) as [c1| |]; simpl in *;
    try discriminate.
  eapply IH; eauto. lia.
Qed.

Lemma follow_mono fuel fuel' rd sw pos res r :
  _follow_hit fuel rd sw pos res = Done r -> (fuel <= fuel')%nat ->
  _follow_hit fuel' rd sw pos res = Done r.
Proof.
  unfold _follow_hit. intros H Hle.
  destruct (lift (nth_error (match_scores (aligner sw)) pos)) as [v| |];
    simpl in *; try discriminate.
  destruct (probe fuel rd (aligner sw) (match_scores_mask (history sw))
              (hit_cursor (aligner sw) pos v) 0) as [[mask' r0]| |] eqn:Ep;
    simpl in H; try discriminate.
  rewrite (probe_mono _ _ _ _ _ Ep Hle). simpl.
  destruct r0 as [len|]; [|assumption].
  destruct (emit fuel rd (aligner sw) (hit_cursor (aligner sw) pos v)
              (to_uint (Z.of_nat len - 1))
              (result_a (alignment_ensure_capacity res len))
              (result_b (alignment_ensure_capacity res len)))
    as [[[c ra] rb]| |] eqn:Ee; simpl in H; try discriminate.
  rewrite (emit_mono _ _ _ _ _ _ Ee Hle). simpl. assumption.
Qed.

Lemma follow_keeps fuel rd sw pos res found sw' res' :
  _follow_hit fuel rd sw pos res = Done (found, sw', res') ->
  same_hits sw sw' /\
  next_hit (history sw') = next_hit (history sw) /\
  mask_le (match_scores_mask (history sw')) (match_scores_mask (history sw)) /\
  (found = false -> res' = res) /\
  (session_ok rd sw -> session_ok rd sw') /\
  (result_ok res -> result_ok res').
Proof.
  intros H. apply follow_inv in H.
  destruct H as (v & mask' & Hv & -> & Hcase).
  assert (Hle : mask_le mask' (match_scores_mask (history sw))).
  { destruct Hcase as [(_ & _ & Hp)|(_ & len & c & ra & rb & ra' & rb' & Hp & _)];
      eapply probe_le; eauto. }
  split; [repeat split|]. split; [reflexivity|]. split; [exact Hle|].
  split; [|split].
  - destruct Hcase as [(_ & E & _)|(E & _)]; [auto | congruence].
  - intros Hs. apply session_ok_set_mask; assumption.
  - intros Hr.
    destruct Hcase as [(_ & -> & _)|(_ & len & c & ra & rb & ra' & rb' & Hp & He & Ha & Hb & ->)];
      [assumption|].
    destruct (ensure_capacity_ok len Hr) as ((La & Lb) & _).
    apply emit_length in He. destruct He as [Ea Eb].
    unfold result_ok. simpl.
    rewrite (buf_store_length _ _ _ Ha), (buf_store_length _ _ _ Hb). lia.
Qed.

(** ** [smith_waterman_fetch] *)

Lemma later_refl sw : later sw sw.
Proof. split; [apply same_hits_refl|]. split; [apply mask_le_refl | lia]. Qed.

Lemma later_trans s1 s2 s3 : later s1 s2 -> later s2 s3 -> later s1 s3.
Proof.
  intros (H1 & M1 & N1) (H2 & M2 & N2). split; [eapply same_hits_trans; eauto|].
  split; [eapply mask_le_trans; eauto | lia].
Qed.

Lemma later_advance sw : later sw (advance sw).
Proof.
  split; [repeat split|]. split; [apply mask_le_refl | simpl; lia].
Qed.

Lemma session_ok_advance rd sw : session_ok rd sw -> session_ok rd (advance sw).
Proof. intros H. exact H. Qed.

Lemma follow_later fuel rd sw pos res found sw' res' :
  _follow_hit fuel rd sw pos res = Done (found, sw', res') -> later sw sw'.
Proof.
  intros H. destruct (follow_keeps _ _ _ _ _ H) as (Hs & Hn & Hm & _).
  split; [assumption|]. split; [assumption | lia].
Qed.

(** What a returning [smith_waterman_fetch] has done. *)
Lemma fetch_keeps rd : forall fuel sw res found sw' res',
  smith_waterman_fetch fuel rd sw res = Done (found, sw', res') ->
  later sw sw' /\
  (found = false ->
     (num_of_hits (history sw') <= next_hit (history sw'))%nat /\ res' = res) /\
  (found = true -> (next_hit (history sw) < next_hit (history sw'))%nat) /\
  (session_ok rd sw -> session_ok rd sw') /\
  (result_ok res -> result_ok res').
Proof.
  induction fuel as [|fuel IH]; intros sw res found sw' res' H; simpl in H;
    [discriminate|].
  destruct (Nat.ltb_spec (next_hit (history sw)) (num_of_hits (history sw)))
    as [Hlt|Hge].
  - inv_bind H. inv_bind H. destruct v0.
    + inv_bind H. destruct v0 as [[f sw2] res2].
      destruct (follow_keeps _ _ _ _ _ Hm1) as (Hs & Hn & Hmk & Hres & Hok & Hrok).
      pose proof (follow_later _ _ _ _ _ Hm1) as Hl2.
      pose proof (later_advance sw) as Hl1.
      destruct f.
      * inversion H; subst; clear H.
        split; [eapply later_trans; eauto|]. split; [discriminate|].
        split; [intros _; simpl in Hn; lia|]. split; [|assumption].
        intros Hsok. apply Hok. apply session_ok_advance. assumption.
      * apply IH in H. destruct H as (Hl3 & Hf & Ht & Hok3 & Hrok3).
        rewrite (Hres eq_refl) in *.
        split; [eapply later_trans; [eapply later_trans|]; eauto|].
        split; [assumption|].
        split; [intros E; specialize (Ht E); simpl in Hn; lia|].
        split; [|assumption].
        intros Hsok. apply Hok3, Hok, session_ok_advance. assumption.
    + apply IH in H. destruct H as (Hl3 & Hf & Ht & Hok3 & Hrok3).
      pose proof (later_advance sw) as Hl1.
      split; [eapply later_trans; eauto|]. split; [assumption|].
      split; [intros E; specialize (Ht E); simpl in Ht; lia|].
      split; [|assumption].
      intros Hsok. apply Hok3, session_ok_advance. assumption.
  - inversion H; subst; clear H.
    split; [apply later_refl|]. split; [auto|]. split; [discriminate|]. auto.
Qed.

(** A call that returns 1 has followed the hit just before the new cursor,
    from a state later than the one it was called in. *)
Lemma fetch_true_inv rd : forall fuel sw res sw' res',
  smith_waterman_fetch fuel rd sw res = Done (true, sw', res') ->
  exists fuel0 sw0 pos,
    (fuel0 < fuel)%nat /\
    later sw sw0 /\
    (next_hit (history sw) <= next_hit (history sw0))%nat /\
    nth_error (sorted_match_indices (history sw)) (next_hit (history sw0)) = Some pos /\
    is_set (match_scores_mask (history sw0)) pos /\
    (session_ok rd sw -> session_ok rd sw0) /\
    _follow_hit fuel0 rd (advance sw0) pos res = Done (true, sw', res').
Proof.
  induction fuel as [|fuel IH]; intros sw res sw' res' H; simpl in H;
    [discriminate|].
  destruct (Nat.ltb_spec (next_hit (history sw)) (num_of_hits (history sw)))
    as [Hlt|Hge]; [|discriminate].
  inv_bind H. inv_bind H. destruct v0.
  - inv_bind H. destruct v0 as [[f sw2] res2]. destruct f.
    + inversion H; subst; clear H.
      exists fuel, sw, v. split; [lia|]. split; [apply later_refl|].
      split; [lia|]. split; [assumption|]. split; [exact Hm0|].
      split; [auto | assumption].
    + destruct (follow_keeps _ _ _ _ _ Hm1) as (Hs & Hn & Hmk & Hres & Hok & _).
      rewrite (Hres eq_refl) in *.
      apply IH in H.
      destruct H as (fuel0 & sw0 & pos & Hfu & Hl & Hnx & Hnth & Hset & Hok0 & Hfo).
      pose proof (follow_later _ _ _ _ _ Hm1) as Hl2.
      exists fuel0, sw0, pos. split; [lia|].
      split; [eapply later_trans; [apply later_advance|]; eapply later_trans; eauto|].
      split; [simpl in Hn; lia|].
      split; [destruct Hs as (_ & E & _); simpl in E; congruence|].
      split; [assumption|]. split; [|assumption].
      intros Hsok. apply Hok0, Hok, session_ok_advance. assumption.
  - apply IH in H.
    destruct H as (fuel0 & sw0 & pos & Hfu & Hl & Hnx & Hnth & Hset & Hok0 & Hfo).
    exists fuel0, sw0, pos. split; [lia|].
    split; [eapply later_trans; [apply later_advance|]; eauto|].
    split; [simpl in Hnx; lia|]. split; [assumption|].
    split; [assumption|]. split; [|assumption].
    intros Hsok. apply Hok0, session_ok_advance. assumption.
Qed.

Lemma fetch_mono rd : forall fuel fuel' sw res r,
  smith_waterman_fetch fuel rd sw res = Done r -> (fuel <= fuel')%nat ->
  smith_waterman_fetch fuel' rd sw res = Done r.
Proof.
  induction fuel as [|fuel IH]; intros [|fuel'] sw res r H Hle;
    simpl in H; try discriminate; try lia.
  simpl.
  destruct (next_hit (history sw) <? num_of_hits (history sw))%nat; [|assumption].
  destruct (lift (nth_error (sorted_match_indices (history sw))
                    (next_hit (history sw)))) as [pos| |]; simpl in *;
    try discriminate.
  destruct (lift (bit_array_get_bit (match_scores_mask (history sw)) pos))
    as [bit| |]; simpl in *; try discriminate.
  destruct bit.
  - destruct (_follow_hit fuel rd (advance sw) pos res) as [[[f sw2] res2]| |] eqn:Ef;
      simpl in H; try discriminate.
    rewrite (follow_mono _ _ _ _ Ef (fuel' := fuel')) by lia. simpl.
    destruct f; [assumption|]. eapply IH; eauto. lia.
  - eapply IH; eauto. lia.
Qed.

(** On a primed session [smith_waterman_fetch] returns: every iteration
    moves [next_hit] forward, and each [_follow_hit] returns. *)
Lemma fetch_done rd : forall fuel sw res,
  session_ok rd sw -> result_ok res ->
  (num_of_hits (history sw) - next_hit (history sw)
   + score_width (aligner sw) + score_height (aligner sw) < fuel)%nat ->
  exists found sw' res', smith_waterman_fetch fuel rd sw res = Done (found, sw', res').
Proof.
  induction fuel as [|fuel IH]; intros sw res Hok Hres Hfu; [lia|].
  simpl.
  destruct (Nat.ltb_spec (next_hit (history sw)) (num_of_hits (history sw)))
    as [Hlt|Hge]; [|eauto].
  pose proof (session_ok_advance Hok) as Hok1.
  destruct Hok as (Hf & Hl & Hh & Hn).
  destruct (nth_error (sorted_match_indices (history sw)) (next_hit (history sw)))
    as [pos|] eqn:Epos.
  2:{ apply nth_error_None in Epos. lia. }
  simpl.
  assert (Hpos : (pos < score_width (aligner sw) * score_height (aligner sw))%nat).
  { rewrite Forall_forall in Hh. apply Hh. eapply nth_error_In; eauto. }
  unfold bit_array_get_bit.
  destruct (nth_error (match_scores_mask (history sw)) pos) as [bit|] eqn:Eb.
  2:{ apply nth_error_None in Eb. lia. }
  simpl.
  destruct bit.
  - destruct (@follow_done rd (advance sw) pos res fuel Hok1 Hres)
      as (f & sw2 & res2 & Hfo); [assumption | simpl; lia |].
    rewrite Hfo. simpl. destruct f; [eauto|].
    destruct (follow_keeps _ _ _ _ _ Hfo) as (Hs & Hnx & _ & _ & Hok2 & Hrok2).
    apply IH; auto.
    destruct Hs as (Ea & _ & En & _). rewrite Ea, En, Hnx. simpl. lia.
  - apply IH; auto. simpl. lia.
Qed.

(** ** [smith_waterman_align2] *)

Lemma to_int_small z : - 2 ^ 31 <= z < 2 ^ 31 -> to_int z = z.
Proof. intros H. unfold to_int. rewrite Z.mod_small; lia. Qed.

(** The comparator is negative or zero exactly on pairs in hit order, as
    long as the remainders' difference fits an [int]. *)
Lemma sort_match_indices_spec ms w p q :
  (0 < w)%nat -> Z.of_nat w < 2 ^ 31 ->
  sort_match_indices {| ms_match_scores := ms;
                        ms_score_width := to_uint (Z.of_nat w) |} p q <= 0
  <-> hit_before ms w p q.
Proof.
  intros Hw Hsmall. unfold sort_match_indices, hit_before. simpl.
  rewrite to_uint_small by lia.
  rewrite <- !Nat2Z.inj_mod.
  pose proof (Nat.mod_upper_bound p w ltac:(lia)).
  pose proof (Nat.mod_upper_bound q w ltac:(lia)).
  destruct (Z.eqb_spec (nth q ms 0 - nth p ms 0) 0) as [E|E].
  - rewrite to_int_small by lia. split; [intros; right; lia | lia].
  - destruct (Z.gtb_spec (nth q ms 0 - nth p ms 0) 0); split; lia.
Qed.

Lemma hit_before_total ms w p q : hit_before ms w p q \/ hit_before ms w q p.
Proof. unfold hit_before. lia. Qed.

Lemma hit_before_trans ms w p q r :
  hit_before ms w p q -> hit_before ms w q r -> hit_before ms w p r.
Proof. unfold hit_before. lia. Qed.

Lemma sort_insert_perm cmp v l : Permutation (sort_insert cmp v l) (v :: l).
Proof.
  induction l as [|u l IH]; simpl; [reflexivity|].
  destruct (cmp v u <=? 0); [reflexivity|].
  rewrite IH. apply perm_swap.
Qed.

Lemma sort_r_perm cmp l : Permutation (sort_r l cmp) l.
Proof.
  unfold sort_r. induction l as [|v l IH]; simpl; [reflexivity|].
  rewrite sort_insert_perm. constructor. assumption.
Qed.

Section SortOrder.

Variable cmp : nat -> nat -> Z.
Variable R : nat -> nat -> Prop.
Hypothesis cmp_R : forall p q, cmp p q <= 0 <-> R p q.
Hypothesis R_total : forall p q, R p q \/ R q p.
Hypothesis R_trans : forall p q r, R p q -> R q r -> R p r.

Lemma sort_insert_sorted v l :
  StronglySorted R l -> StronglySorted R (sort_insert cmp v l).
Proof.
  induction 1 as [|u l Hs IH Hall]; simpl.
  - constructor; constructor.
  - destruct (Z.leb_spec (cmp v u) 0) as [Hle|Hgt].
    + apply cmp_R in Hle. constructor; [constructor; assumption|].
      constructor; [assumption|].
      eapply Forall_impl; [|exact Hall]. intros r Hr. eapply R_trans; eauto.
    + assert (Huv : R u v).
      { destruct (R_total u v) as [H|H]; [assumption|].
        apply cmp_R in H. lia. }
      constructor; [assumption|].
      eapply Permutation_Forall; [symmetry; apply sort_insert_perm|].
      constructor; assumption.
Qed.

Lemma sort_r_sorted l : StronglySorted R (sort_r l cmp).
Proof.
  unfold sort_r. induction l as [|v l IH]; simpl; [constructor|].
  apply sort_insert_sorted. assumption.
Qed.

End SortOrder.

Lemma collect_hits_filter ms n :
  collect_hits ms n = filter (fun pos => nth pos ms 0 >? 0) (seq 0 n).
Proof.
  unfold collect_hits.
  assert (G : forall l acc,
    fold_left (fun hits pos => if nth pos ms 0 >? 0 then hits ++ [pos] else hits)
              l acc
    = acc ++ filter (fun pos => nth pos ms 0 >? 0) l).
  { induction l as [|p l IH]; intros acc; simpl; [rewrite app_nil_r; reflexivity|].
    rewrite IH. destruct (nth p ms 0 >? 0); [|reflexivity].
    rewrite <- app_assoc. reflexivity. }
  rewrite G. reflexivity.
Qed.

Lemma collect_hits_In ms n pos :
  In pos (collect_hits ms n) <-> (pos < n)%nat /\ 0 < nth pos ms 0.
Proof.
  rewrite collect_hits_filter, filter_In, in_seq.
  destruct (Z.gtb_spec (nth pos ms 0) 0); split; intros [? ?];
    split; try lia; try discriminate; reflexivity.
Qed.

Lemma collect_hits_NoDup ms n : NoDup (collect_hits ms n).
Proof. rewrite collect_hits_filter. apply NoDup_filter, seq_NoDup. Qed.

Lemma align_facts rd a b la lb sc sw0 sw :
  smith_waterman_align2 rd a b la lb sc sw0 = Done sw ->
  let al := aligner sw in
  let arr_size := (score_width al * score_height al)%nat in
  let hist0 := _ensure_history_capacity (history sw0) arr_size in
  aligner_align rd a b la lb sc = Done al /\
  sorted_match_indices (history sw) =
    sort_r (collect_hits (match_scores al) arr_size)
           (sort_match_indices
              {| ms_match_scores := match_scores al;
                 ms_score_width := to_uint (Z.of_nat (score_width al)) |}) /\
  num_of_hits (history sw) = List.length (collect_hits (match_scores al) arr_size) /\
  next_hit (history sw) = 0%nat /\
  match_scores_mask (history sw) = bit_array_set_all (match_scores_mask hist0) /\
  hits_capacity (history sw) = hits_capacity hist0.
Proof.
  unfold smith_waterman_align2. intros H. inv_bind H.
  inversion H; subst; clear H. simpl. repeat split; assumption.
Qed.

Lemma ensure_history_length hist n :
  hist_ok hist ->
  hist_ok (_ensure_history_capacity hist n) /\
  (n <= List.length (match_scores_mask (_ensure_history_capacity hist n)))%nat.
Proof.
  unfold hist_ok, _ensure_history_capacity. intros H.
  destruct (Nat.ltb_spec (hits_capacity hist) n); simpl.
  - unfold bit_array_resize. rewrite length_app, length_firstn, repeat_length.
    pose proof (ROUNDUP2POW_ge n). lia.
  - lia.
Qed.

Lemma set_all_length ba : List.length (bit_array_set_all ba) = List.length ba.
Proof. unfold bit_array_set_all. apply length_map. Qed.

Lemma set_all_true ba : Forall (fun bit => bit = true) (bit_array_set_all ba).
Proof.
  unfold bit_array_set_all. induction ba; simpl; constructor; auto.
Qed.

Lemma set_all_is_set ba pos :
  (pos < List.length ba)%nat -> is_set (bit_array_set_all ba) pos.
Proof.
  intros H. unfold is_set, bit_array_set_all.
  rewrite nth_error_map.
  destruct (nth_error ba pos) eqn:E; [reflexivity|].
  apply nth_error_None in E. lia.
Qed.

(** [smith_waterman_align2] leaves a session that satisfies the session
    invariant, with the bitmap covering every cell. *)
Lemma align_session_ok rd a b la lb sc sw0 sw :
  hist_ok (history sw0) ->
  smith_waterman_align2 rd a b la lb sc sw0 = Done sw ->
  session_ok rd sw /\ hist_ok (history sw) /\
  aligner_align rd a b la lb sc = Done (aligner sw).
Proof.
  intros Hh0 H.
  from H by align_facts get (Hal & Hs & Hn & Hx & Hm & Hc).
  from Hal by aligner_align_filled get (Hf & Hw & Hhh & Ha & Hb & Hsc).
  destruct (@ensure_history_length (history sw0)
              (score_width (aligner sw) * score_height (aligner sw)) Hh0)
    as (Hok & Hlen).
  split; [|split; [|assumption]].
  - unfold session_ok. split; [assumption|]. rewrite Hm, set_all_length.
    split; [assumption|]. rewrite Hs, Hn. split.
    + eapply Permutation_Forall; [symmetry; apply sort_r_perm|].
      apply Forall_forall. intros pos Hin. apply collect_hits_In in Hin. lia.
    + apply Permutation_length. symmetry. apply sort_r_perm.
  - unfold hist_ok in *. rewrite Hm, set_all_length, Hc. assumption.
Qed.

Lemma fetch_hist_ok rd fuel sw res found sw' res' :
  smith_waterman_fetch fuel rd sw res = Done (found, sw', res') ->
  hist_ok (history sw) -> hist_ok (history sw').
Proof.
  intros H Hok. from H by fetch_keeps get ((Hs & (Hl & _) & _) & _).
  destruct Hs as (_ & _ & _ & Hc). unfold hist_ok in *. lia.
Qed.

(** Every primed session satisfies the session invariant and is the result
    of the fill on the given input. *)
Lemma primed_ok rd a b la lb sc sw :
  primed rd a b la lb sc sw ->
  session_ok rd sw /\ hist_ok (history sw) /\
  aligner_align rd a b la lb sc = Done (aligner sw).
Proof.
  induction 1 as [sw0 sw Hh H | sw fuel res found sw' res' Hp IH H].
  - eapply align_session_ok; eauto.
  - destruct IH as (Hok & Hh & Hal).
    from H by fetch_keeps get (((Ea & _) & _) & _ & _ & Hk & _).
    split; [auto|]. split; [eapply fetch_hist_ok; eauto|]. rewrite Ea. assumption.
Qed.

(** * The claims *)

(** C9.  Once [smith_waterman_fetch] has returned 0, every later call on
    the session returns 0 and leaves the session (bitmap, hit array,
    [next_hit]) and the caller's result record as they were; so does any
    number of calls in a row. *)
Theorem fetch_exhausted_stays rd fuel sw res sw' res' :
  smith_waterman_fetch fuel rd sw res = Done (false, sw', res') ->
  res' = res /\
  forall fuel2 res2, (0 < fuel2)%nat ->
    smith_waterman_fetch fuel2 rd sw' res2 = Done (false, sw', res2) /\
    forall n, fetch_many n fuel2 rd sw' res2 = Done ([], sw', res2).
Proof.
  intros H. from H by fetch_keeps get (_ & Hf & _).
  destruct (Hf eq_refl) as (Hge & ->). split; [reflexivity|].
  intros fuel2 res2 Hfu.
  assert (Hone : smith_waterman_fetch fuel2 rd sw' res2 = Done (false, sw', res2)).
  { destruct fuel2 as [|fuel2]; [lia|]. simpl.
    destruct (Nat.ltb_spec (next_hit (history sw')) (num_of_hits (history sw')));
      [lia | reflexivity]. }
  split; [exact Hone|].
  induction n as [|n IH]; simpl; [reflexivity|].
  rewrite Hone. simpl. rewrite IH. reflexivity.
Qed.

Lemma fetch_exhausted_stays_witness :
  let sc := simple_scoring 2 (-2) (-2) (-1) in
  exists sw sw1 res1 sw2,
    smith_waterman_align2 AsGlossed (bytes "A") (bytes "A") 1 1 sc
      (smith_waterman_new sc) = Done sw /\
    smith_waterman_fetch 10 AsGlossed sw alignment_create = Done (true, sw1, res1) /\
    smith_waterman_fetch 10 AsGlossed sw1 res1 = Done (false, sw2, res1) /\
    smith_waterman_fetch 10 AsGlossed sw2 res1 = Done (false, sw2, res1) /\
    fetch_many 5 10 AsGlossed sw2 alignment_create = Done ([], sw2, alignment_create).
Proof.
  cbv zeta.
  assert (Hal : smith_waterman_align2 AsGlossed (bytes "A") (bytes "A") 1 1
                  (simple_scoring 2 (-2) (-2) (-1))
                  (smith_waterman_new (simple_scoring 2 (-2) (-2) (-1))) = Done _)
    by (vm_compute; reflexivity).
  match type of Hal with
  | _ = Done ?s =>
      assert (Hf1 : smith_waterman_fetch 10 AsGlossed s alignment_create
                    = Done (true, _, _))
        by (vm_compute; reflexivity)
  end.
  match type of Hf1 with
  | _ = Done (true, ?s1, ?r1) =>
      assert (Hf2 : smith_waterman_fetch 10 AsGlossed s1 r1 = Done (false, _, r1))
        by (vm_compute; reflexivity)
  end.
  pose proof Hf2 as H. apply fetch_exhausted_stays in H. destruct H as (_ & H).
  eexists. eexists. eexists. eexists.
  split; [exact Hal|]. split; [exact Hf1|]. split; [exact Hf2|].
  split.
  - exact (proj1 (H 10%nat _ ltac:(lia))).
  - exact (proj2 (H 10%nat alignment_create ltac:(lia)) 5%nat).
Defined.

Lemma buf_store_same buf : forall i v buf',
  buf_store buf i v = Some buf' -> nth_error buf' i = Some v.
Proof.
  induction buf as [|c tl IH]; intros [|i] v buf' H; simpl in H; try discriminate.
  - inversion H; reflexivity.
  - destruct (buf_store tl i v) as [tl'|] eqn:E; simpl in H; inversion H; subst.
    simpl. eauto.
Qed.

(** C7, as stated, fails: after the first alignment of "ACA" against
    "ACCAA" (match 5, mismatch -4, gap open -3, gap extend -1) the traceback
    from hit 23 would use cells 23, 18, 14, 10, 5, 0; the first loop stops at
    cell 14, which the first alignment crossed in another plane, and cell 10
    keeps its bit.  Under either reading of the gap recurrences. *)
Lemma follow_abort_leaves_cell :
  abort_leaves_cell AsIndexed /\ abort_leaves_cell AsGlossed.
Proof.
  split.
  - unfold abort_leaves_cell. cbv zeta.
    assert (Hal : smith_waterman_align2 AsIndexed (bytes "ACA") (bytes "ACCAA") 3 5
                    (simple_scoring 5 (-4) (-3) (-1))
                    (smith_waterman_new (simple_scoring 5 (-4) (-3) (-1))) = Done _)
      by (vm_compute; reflexivity).
    match type of Hal with
    | _ = Done ?s =>
        assert (Hfe : smith_waterman_fetch 20 AsIndexed s alignment_create
                      = Done (true, _, _))
          by (vm_compute; reflexivity)
    end.
    assert (Hp : primed AsIndexed (bytes "ACA") (bytes "ACCAA") 3 5
                   (simple_scoring 5 (-4) (-3) (-1)) _)
      by (eapply primed_fetch;
          [eapply primed_align; [|exact Hal]; reflexivity | exact Hfe]).
    eexists. exists alignment_create. eexists. eexists.
    split; [exact Hp|].
    repeat split; vm_compute; reflexivity.
  - unfold abort_leaves_cell. cbv zeta.
    assert (Hal : smith_waterman_align2 AsGlossed (bytes "ACA") (bytes "ACCAA") 3 5
                    (simple_scoring 5 (-4) (-3) (-1))
                    (smith_waterman_new (simple_scoring 5 (-4) (-3) (-1))) = Done _)
      by (vm_compute; reflexivity).
    match type of Hal with
    | _ = Done ?s =>
        assert (Hfe : smith_waterman_fetch 20 AsGlossed s alignment_create
                      = Done (true, _, _))
          by (vm_compute; reflexivity)
    end.
    assert (Hp : primed AsGlossed (bytes "ACA") (bytes "ACCAA") 3 5
                   (simple_scoring 5 (-4) (-3) (-1)) _)
      by (eapply primed_fetch;
          [eapply primed_align; [|exact Hal]; reflexivity | exact Hfe]).
    eexists. exists alignment_create. eexists. eexists.
    split; [exact Hp|].
    repeat split; vm_compute; reflexivity.
Qed.

(** C7, amended.  When [_follow_hit] returns 0, every cell its first loop
    looked at, up to and including the cell it stopped at, has its bit clear
    on return; no bit has been set, and the result record is untouched. *)
Theorem follow_abort_consumes_visited rd fuel sw pos res sw' res' :
  _follow_hit fuel rd sw pos res = Done (false, sw', res') ->
  let al := aligner sw in
  Forall (is_clear (match_scores_mask (history sw')))
         (probe_visits fuel rd al (match_scores_mask (history sw))
            (hit_cursor al pos (nth pos (match_scores al) 0))) /\
  mask_le (match_scores_mask (history sw')) (match_scores_mask (history sw)) /\
  res' = res.
Proof.
  intros H. cbv zeta. from H by follow_keeps get (_ & _ & Hle & Hres & _).
  split; [|split; [assumption | auto]].
  apply follow_inv in H.
  destruct H as (v & mask' & Hv & -> & [(_ & _ & Hp)|(E & _)]); [|discriminate].
  rewrite (nth_error_nth _ _ 0 Hv). simpl.
  eapply probe_visits_clear; eauto.
Qed.

Lemma follow_abort_consumes_visited_witness :
  exists sw res sw' res',
    _follow_hit 20 AsGlossed sw 23 res = Done (false, sw', res') /\
    Forall (is_clear (match_scores_mask (history sw'))) [23; 18; 14]%nat.
Proof.
  assert (Hal : smith_waterman_align2 AsGlossed (bytes "ACA") (bytes "ACCAA") 3 5
                  (simple_scoring 5 (-4) (-3) (-1))
                  (smith_waterman_new (simple_scoring 5 (-4) (-3) (-1))) = Done _)
    by (vm_compute; reflexivity).
  match type of Hal with
  | _ = Done ?s =>
      assert (Hfe : smith_waterman_fetch 20 AsGlossed s alignment_create
                    = Done (true, _, _))
        by (vm_compute; reflexivity)
  end.
  match type of Hfe with
  | _ = Done (true, ?s1, ?r1) =>
      assert (Hfo : _follow_hit 20 AsGlossed (advance s1) 23 r1 = Done (false, _, _))
        by (vm_compute; reflexivity)
  end.
  eexists. eexists. eexists. eexists. split; [exact Hfo|].
  pose proof Hfo as H. apply follow_abort_consumes_visited in H.
  exact (proj1 H).
Defined.

(** ** The cells of a returned alignment *)

Lemma traceback_cells_path rd al pos v cs :
  filled rd al ->
  (pos < score_width al * score_height al)%nat ->
  nth_error (match_scores al) pos = Some v ->
  path rd al (hit_cursor al pos v) cs ->
  traceback_cells rd al pos = map arr_index cs.
Proof.
  intros Hf Hpos Hv Hp. unfold traceback_cells.
  rewrite (nth_error_nth _ _ 0 Hv).
  pose proof (hit_cursor_on_plane Hf Hpos Hv) as Hon.
  destruct (@path_exists rd al Hf
              (S (score_x (hit_cursor al pos v) + score_y (hit_cursor al pos v)))
              (hit_cursor al pos v)) as (cs' & Hp' & Hlen & _); [lia | assumption |].
  pose proof (path_unique Hp Hp'). subst cs'.
  f_equal. eapply path_walk; eauto.
Qed.

Lemma emit_final_le rd al : filled rd al -> forall fuel c0 i ra rb c ra' rb',
  on_plane rd al c0 ->
  emit fuel rd al c0 i ra rb = Done (c, ra', rb') ->
  (score_x c <= score_x c0 /\ score_y c <= score_y c0)%nat.
Proof.
  intros Hf. induction fuel as [|fuel IH]; intros c0 i ra rb c ra' rb' Hon H;
    simpl in H; [discriminate|].
  destruct (Z.gtb_spec (curr_score c0) 0) as [Hpos|Hneg].
  - inv_bind H. inv_bind H. inv_bind H. inv_bind H.
    destruct (@step_filled rd al c0 Hf Hon) as (c1 & Hst & Hon1 & Hsb & _); [lia|].
    assert (v2 = c1) by congruence. subst v2.
    apply step_back_less in Hsb.
    apply IH in H; [lia | assumption].
  - inversion H; subst. lia.
Qed.

(** A successful [_follow_hit] at [pos]: the result's fields give [pos] back
    as its end cell, its score is the match score there, and the cells of
    its traceback had their bits set before and have them clear after. *)
Lemma follow_true_cells rd fuel sw pos res sw' res' :
  session_ok rd sw ->
  (pos < score_width (aligner sw) * score_height (aligner sw))%nat ->
  _follow_hit fuel rd sw pos res = Done (true, sw', res') ->
  end_cell (aligner sw) res' = pos /\
  nth_error (match_scores (aligner sw)) pos = Some (score res') /\
  Forall (is_set (match_scores_mask (history sw)))
         (traceback_cells rd (aligner sw) pos) /\
  Forall (is_clear (match_scores_mask (history sw')))
         (traceback_cells rd (aligner sw) pos) /\
  probe_visits fuel rd (aligner sw) (match_scores_mask (history sw))
    (hit_cursor (aligner sw) pos (score res'))
  = traceback_cells rd (aligner sw) pos.
Proof.
  intros (Hf & _) Hpos H. apply follow_inv in H.
  destruct H as (v & mask' & Hv & -> & [(E & _)|(_ & len & c & ra & rb & ra' & rb' & Hp & He & _ & _ & ->)]);
    [discriminate|].
  cbv zeta in *.
  pose proof (hit_cursor_on_plane Hf Hpos Hv) as Hon.
  from Hp by probe_success get (cs & Hpath & _ & _ & Hvis & Hset).
  from Hp by probe_visits_clear get Hclr.
  rewrite Hvis in Hclr.
  rewrite (traceback_cells_path Hf Hpos Hv Hpath).
  from He by (emit_final_le Hf) get (Hx & Hy); [|exact Hon].
  destruct Hf as (Hw & _).
  split; [|split; [|split; [|split]]]; try assumption.
  unfold end_cell. simpl.
  replace (score_x c + (ARR_2D_X pos (score_width (aligner sw)) - score_x c))%nat
    with (ARR_2D_X pos (score_width (aligner sw))) by (simpl in Hx; lia).
  replace (score_y c + (ARR_2D_Y pos (score_width (aligner sw)) - score_y c))%nat
    with (ARR_2D_Y pos (score_width (aligner sw))) by (simpl in Hy; lia).
  apply ARR_2D_INDEX_XY. assumption.
Qed.

Lemma fetch_true_cells rd fuel sw res sw' res' :
  session_ok rd sw ->
  smith_waterman_fetch fuel rd sw res = Done (true, sw', res') ->
  exists k, (next_hit (history sw) <= k)%nat /\
    next_hit (history sw') = S k /\
    nth_error (sorted_match_indices (history sw)) k
      = Some (end_cell (aligner sw) res') /\
    nth_error (match_scores (aligner sw)) (end_cell (aligner sw) res')
      = Some (score res') /\
    Forall (is_set (match_scores_mask (history sw))) (cells_of rd (aligner sw) res') /\
    Forall (is_clear (match_scores_mask (history sw'))) (cells_of rd (aligner sw) res') /\
    walked_by rd (aligner sw) res'.
Proof.
  intros Hok H. apply fetch_true_inv in H.
  destruct H as (fuel0 & sw0 & pos & _ & Hl & Hnx & Hnth & Hset & Hok0 & Hfo).
  specialize (Hok0 Hok).
  destruct Hl as ((Ea & Es & _) & Hle & _).
  assert (Hpos : (pos < score_width (aligner sw0) * score_height (aligner sw0))%nat).
  { destruct Hok0 as (_ & _ & Hh & _). rewrite Forall_forall in Hh. apply Hh.
    rewrite Es. eapply nth_error_In; eauto. }
  from Hfo by follow_keeps get (_ & Hn & _).
  from Hfo by follow_true_cells get (Hend & Hsc & Hs & Hc & Hpv);
    [| apply session_ok_advance; exact Hok0 | exact Hpos].
  simpl in Hend, Hsc, Hs, Hc, Hpv, Hn. rewrite Ea in *.
  assert (Hwb : walked_by rd (aligner sw) res').
  { exists fuel0, (advance sw0), res, sw'. unfold cells_of. rewrite Hend.
    split; [exact Ea|]. split; [exact Hfo | exact Hpv]. }
  unfold cells_of. rewrite Hend.
  exists (next_hit (history sw0)).
  split; [assumption|]. split; [assumption|]. split; [assumption|].
  split; [assumption|]. split; [|split; [assumption|]].
  - eapply Forall_impl; [|exact Hs]. intros p Hp. apply Hle. exact Hp.
  - exact Hwb.
Qed.

Lemma hits_from_mono sw k k' als :
  (k <= k')%nat -> hits_from sw k' als -> hits_from sw k als.
Proof.
  destruct als as [|r rest]; simpl; [auto|].
  intros Hle (j & Hj & H). exists j. split; [lia | assumption].
Qed.

Lemma hits_from_same sw sw' k als :
  same_hits sw sw' -> hits_from sw' k als -> hits_from sw k als.
Proof.
  intros (Ea & Es & _). revert k.
  induction als as [|r rest IH]; simpl; [auto|].
  intros k (j & Hj & H1 & H2 & H3). exists j. rewrite <- Ea, <- Es. auto.
Qed.

(** What [n] fetches in a row return, on a session that satisfies the
    session invariant. *)
Lemma fetch_many_inv rd : forall n fuel sw res als sw' res',
  session_ok rd sw ->
  fetch_many n fuel rd sw res = Done (als, sw', res') ->
  later sw sw' /\ session_ok rd sw' /\
  hits_from sw (next_hit (history sw)) als /\
  Forall (fun r => Forall (is_set (match_scores_mask (history sw)))
                          (cells_of rd (aligner sw) r)) als /\
  Forall (fun r => Forall (is_clear (match_scores_mask (history sw')))
                          (cells_of rd (aligner sw) r)) als /\
  ForallOrdPairs (fun r1 r2 => disjoint (cells_of rd (aligner sw) r1)
                                        (cells_of rd (aligner sw) r2)) als /\
  Forall (walked_by rd (aligner sw)) als.
Proof.
  induction n as [|n IH]; intros fuel sw res als sw' res' Hok H; simpl in H.
  - inversion H; subst.
    split; [apply later_refl|]. split; [assumption|]. simpl.
    repeat split; constructor.
  - inv_bind H. destruct v as [[found sw1] res1]. inv_bind H.
    destruct v as [[rest sw2] res2]. inversion H; subst; clear H.
    from Hm by fetch_keeps get (Hl1 & _ & _ & Hok1 & _).
    specialize (Hok1 Hok).
    destruct (IH _ _ _ _ _ _ Hok1 Hm0) as (Hl2 & Hok2 & Hh & Hset & Hclr & Hdis & Hwk).
    pose proof Hl1 as ((Ea & Es & En & Ec) & Hle1 & Hn1).
    pose proof Hl2 as (_ & Hle2 & _).
    rewrite Ea in *.
    split; [eapply later_trans; eauto|]. split; [assumption|].
    assert (Hset' : Forall (fun r => Forall (is_set (match_scores_mask (history sw)))
                                           (cells_of rd (aligner sw) r)) rest).
    { eapply Forall_impl; [|exact Hset]. intros r Hr.
      eapply Forall_impl; [|exact Hr]. intros p Hp. apply Hle1. exact Hp. }
    assert (Hh' : hits_from sw (next_hit (history sw1)) rest).
    { eapply hits_from_same; [|exact Hh]. repeat split; assumption. }
    destruct found.
    + from Hm by fetch_true_cells get (k & Hk & Hnx & Hnth & Hsc & Hs & Hc & Hwb);
        [|exact Hok].
      split; [simpl; exists k; rewrite Hnx in Hh'; auto|].
      split; [constructor; assumption|].
      split; [constructor; [|assumption];
              eapply Forall_impl; [|exact Hc]; intros p Hp;
              eapply mask_le_clear; eauto|].
      split; [|constructor; assumption].
      constructor; [|assumption].
      rewrite Forall_forall in *. intros r2 Hin p Hp1 Hp2.
      specialize (Hset r2 Hin). rewrite Forall_forall in Hset.
      specialize (Hc p Hp1). specialize (Hset p Hp2).
      unfold is_set, is_clear in *. congruence.
    + split; [eapply hits_from_mono; eauto|]. auto.
Qed.

(** C2.  The alignments returned by any run of fetches on a primed session
    have pairwise disjoint tracebacks: no cell index is visited by two of
    them.  The cells of each are the ones the first loop of the
    [_follow_hit] that wrote it visited, and all of them are consumed when
    the run is over. *)
Theorem returned_alignments_disjoint rd a b la lb sc sw n fuel res als sw' res' :
  primed rd a b la lb sc sw ->
  fetch_many n fuel rd sw res = Done (als, sw', res') ->
  ForallOrdPairs (fun r1 r2 => disjoint (cells_of rd (aligner sw) r1)
                                        (cells_of rd (aligner sw) r2)) als /\
  Forall (walked_by rd (aligner sw)) als /\
  Forall (fun r => Forall (is_clear (match_scores_mask (history sw')))
                          (cells_of rd (aligner sw) r)) als.
Proof.
  intros Hp H. apply primed_ok in Hp. destruct Hp as (Hok & _).
  eapply fetch_many_inv in H; [|exact Hok].
  destruct H as (_ & _ & _ & _ & Hclr & Hdis & Hwk).
  split; [exact Hdis|]. split; [exact Hwk | exact Hclr].
Qed.

Lemma returned_alignments_disjoint_witness :
  let sc := simple_scoring 2 (-2) (-2) (-1) in
  exists sw r1 r2 sw' res',
    smith_waterman_align2 AsGlossed (bytes "ACAC") (bytes "AC") 4 2 sc
      (smith_waterman_new sc) = Done sw /\
    fetch_many 3 20 AsGlossed sw alignment_create = Done ([r1; r2], sw', res') /\
    cells_of AsGlossed (aligner sw) r1 = [12; 6; 0]%nat /\
    cells_of AsGlossed (aligner sw) r2 = [14; 8; 2]%nat /\
    disjoint (cells_of AsGlossed (aligner sw) r1) (cells_of AsGlossed (aligner sw) r2).
Proof.
  cbv zeta.
  assert (Hal : smith_waterman_align2 AsGlossed (bytes "ACAC") (bytes "AC") 4 2
                  (simple_scoring 2 (-2) (-2) (-1))
                  (smith_waterman_new (simple_scoring 2 (-2) (-2) (-1))) = Done _)
    by (vm_compute; reflexivity).
  match type of Hal with
  | _ = Done ?s =>
      assert (Hfm : fetch_many 3 20 AsGlossed s alignment_create
                    = Done ([_; _], _, _))
        by (vm_compute; reflexivity)
  end.
  eexists. eexists. eexists. eexists. eexists.
  split; [exact Hal|]. split; [exact Hfm|].
  split; [vm_compute; reflexivity|]. split; [vm_compute; reflexivity|].
  assert (Hp : primed AsGlossed (bytes "ACAC") (bytes "AC") 4 2
                 (simple_scoring 2 (-2) (-2) (-1)) _)
    by (eapply primed_align; [|exact Hal]; reflexivity).
  pose proof Hfm as H. eapply returned_alignments_disjoint in H; [|exact Hp].
  destruct H as (H & _).
  inversion H as [|r l Hall _]. inversion Hall as [|r' l' Hd _]. exact Hd.
Defined.

(** ** Order of the returned alignments *)

Lemma ARR_2D_INDEX_inj w x1 y1 x2 y2 :
  (x1 < w)%nat -> (x2 < w)%nat ->
  ARR_2D_INDEX w x1 y1 = ARR_2D_INDEX w x2 y2 -> x1 = x2 /\ y1 = y2.
Proof.
  intros H1 H2 E. split.
  - rewrite <- (ARR_2D_X_INDEX y1 H1), <- (ARR_2D_X_INDEX y2 H2). congruence.
  - rewrite <- (ARR_2D_Y_INDEX y1 H1), <- (ARR_2D_Y_INDEX y2 H2). congruence.
Qed.

(** With every bit of the rectangle below the cursor set, the first loop
    does not stop early: it only moves down and to the left, onto cells it
    has not cleared. *)
Lemma probe_no_abort rd al : filled rd al -> forall fuel mask c len mask' r,
  on_plane rd al c ->
  (forall x y, (x <= score_x c)%nat -> (y <= score_y c)%nat ->
     is_set mask (ARR_2D_INDEX (score_width al) x y)) ->
  probe fuel rd al mask c len = Done (mask', r) -> r <> None.
Proof.
  intros Hf. induction fuel as [|fuel IH]; intros mask c len mask' r Hon Hset H;
    simpl in H; [discriminate|].
  pose proof Hon as (Hx & Hy & Hidx & _).
  assert (Hb : bit_array_get_bit mask (arr_index c) = Some true).
  { rewrite Hidx. apply Hset; lia. }
  rewrite Hb in H. simpl in H. inv_bind H.
  destruct (Z.eqb_spec (curr_score c) 0) as [Hz|Hnz].
  - inversion H; subst. discriminate.
  - inv_bind H.
    destruct (step_filled Hf Hon Hnz) as (c' & Hst & Hon' & Hsb & _).
    assert (v0 = c') by congruence. subst v0.
    apply step_back_less in Hsb.
    eapply IH; [exact Hon' | | exact H].
    intros x y Hx' Hy'. unfold is_set.
    rewrite (clear_bit_other _ Hm).
    + apply Hset; lia.
    + rewrite Hidx. intros E. apply ARR_2D_INDEX_inj in E; lia.
Qed.

Lemma StronglySorted_nth {A : Type} (R : A -> A -> Prop) l :
  StronglySorted R l -> forall i j u v,
  (i < j)%nat -> nth_error l i = Some u -> nth_error l j = Some v -> R u v.
Proof.
  induction 1 as [|w l Hs IH Hall]; intros i j u v Hij Hi Hj.
  - destruct i; discriminate.
  - destruct j as [|j]; [lia|]. simpl in Hj. destruct i as [|i].
    + simpl in Hi. inversion Hi; subst.
      rewrite Forall_forall in Hall. apply Hall. eapply nth_error_In; eauto.
    + simpl in Hi. eapply (IH i j); [lia | exact Hi | exact Hj].
Qed.

Lemma hits_from_Forall sw : forall als k,
  hits_from sw k als ->
  Forall (fun r => exists j, (k <= j)%nat /\
            nth_error (sorted_match_indices (history sw)) j
              = Some (end_cell (aligner sw) r) /\
            nth_error (match_scores (aligner sw)) (end_cell (aligner sw) r)
              = Some (score r)) als.
Proof.
  induction als as [|r rest IH]; intros k H; [constructor|].
  simpl in H. destruct H as (j & Hj & H1 & H2 & H3). constructor.
  - exists j. auto.
  - eapply Forall_impl; [|apply (IH _ H3)].
    intros r' (j' & Hj' & H'). exists j'. split; [lia | assumption].
Qed.

Lemma hits_from_pairs sw (R : nat -> nat -> Prop) :
  StronglySorted R (sorted_match_indices (history sw)) ->
  forall als k, hits_from sw k als ->
  ForallOrdPairs (fun r1 r2 => R (end_cell (aligner sw) r1) (end_cell (aligner sw) r2))
                 als.
Proof.
  intros Hs. induction als as [|r rest IH]; intros k H; [constructor|].
  simpl in H. destruct H as (j & Hj & H1 & H2 & H3). constructor.
  - apply hits_from_Forall in H3.
    eapply Forall_impl; [|exact H3].
    intros r' (j' & Hj' & H1' & _).
    eapply StronglySorted_nth; [exact Hs | | exact H1 | exact H1']. lia.
  - eapply IH; eauto.
Qed.

Lemma fetch_many_exhausted rd : forall n fuel sw res als sw' res',
  (num_of_hits (history sw) <= next_hit (history sw))%nat ->
  fetch_many n fuel rd sw res = Done (als, sw', res') -> als = [].
Proof.
  induction n as [|n IH]; intros fuel sw res als sw' res' Hge H; simpl in H.
  - inversion H; reflexivity.
  - inv_bind H. destruct v as [[found sw1] res1]. inv_bind H.
    destruct v as [[rest sw2] res2]. inversion H; subst; clear H.
    destruct fuel as [|fuel]; [discriminate|]. simpl in Hm.
    destruct (Nat.ltb_spec (next_hit (history sw)) (num_of_hits (history sw)));
      [lia|].
    inversion Hm; subst. eapply IH; eauto.
Qed.

(** The hit array right after [smith_waterman_align2], for the order of
    the enumeration. *)
Lemma align2_order rd a b la lb sc sw0 sw :
  Z.of_nat la + 1 < 2 ^ 31 ->
  smith_waterman_align2 rd a b la lb sc sw0 = Done sw ->
  StronglySorted (hit_before (match_scores (aligner sw)) (score_width (aligner sw)))
                 (sorted_match_indices (history sw)) /\
  (forall pos, In pos (sorted_match_indices (history sw)) <->
     (pos < List.length (match_scores (aligner sw)))%nat /\
     0 < nth pos (match_scores (aligner sw)) 0) /\
  Forall (fun bit => bit = true) (match_scores_mask (history sw)) /\
  next_hit (history sw) = 0%nat.
Proof.
  intros Hsmall H.
  from H by align_facts get (Hal & Hs & Hn & Hx & Hm & Hc).
  from Hal by aligner_align_filled get (Hf & Hw & Hh & _).
  destruct Hf as (_ & _ & _ & Hlen).
  split; [|split; [|split; [rewrite Hm; apply set_all_true | assumption]]].
  - rewrite Hs. apply sort_r_sorted.
    + intros p q. apply sort_match_indices_spec; lia.
    + apply hit_before_total.
    + apply hit_before_trans.
  - intros pos. rewrite Hs, Hlen, <- collect_hits_In. split; intros Hin.
    + eapply Permutation_in; [apply sort_r_perm | exact Hin].
    + eapply Permutation_in; [symmetry; apply sort_r_perm | exact Hin].
Qed.

(** The first fetch on a fresh session returns the first hit, if there is
    one. *)
Lemma first_fetch_fresh rd fuel sw res found sw1 res1 :
  session_ok rd sw -> next_hit (history sw) = 0%nat ->
  Forall (fun bit => bit = true) (match_scores_mask (history sw)) ->
  smith_waterman_fetch fuel rd sw res = Done (found, sw1, res1) ->
  (found = false /\ (num_of_hits (history sw1) <= next_hit (history sw1))%nat) \/
  (found = true /\
   nth_error (sorted_match_indices (history sw)) 0 = Some (end_cell (aligner sw) res1) /\
   nth_error (match_scores (aligner sw)) (end_cell (aligner sw) res1)
     = Some (score res1)).
Proof.
  intros Hok Hnx Hall H.
  destruct found.
  2:{ left. split; [reflexivity|]. from H by fetch_keeps get (_ & Hf & _).
      apply Hf. reflexivity. }
  right. split; [reflexivity|].
  destruct fuel as [|fuel]; [discriminate|]. simpl in H.
  destruct (Nat.ltb_spec (next_hit (history sw)) (num_of_hits (history sw)));
    [|discriminate].
  inv_bind H. rename v into pos. inv_bind H. rewrite Hnx in Hm.
  assert (Hset : forall p, (p < List.length (match_scores_mask (history sw)))%nat ->
                           is_set (match_scores_mask (history sw)) p).
  { intros p Hp. unfold is_set.
    destruct (nth_error (match_scores_mask (history sw)) p) as [bit|] eqn:E.
    - rewrite Forall_forall in Hall. rewrite (Hall bit); [reflexivity|].
      eapply nth_error_In; eauto.
    - apply nth_error_None in E. lia. }
  pose proof Hok as (Hf & Hl & Hh & Hn).
  assert (Hpos : (pos < score_width (aligner sw) * score_height (aligner sw))%nat).
  { rewrite Forall_forall in Hh. apply Hh. eapply nth_error_In; eauto. }
  destruct v.
  2:{ (* the first hit has its bit set *)
      exfalso. unfold bit_array_get_bit in Hm0. rewrite Hset in Hm0 by lia.
      discriminate. }
  inv_bind H. destruct v as [[f sw2] res2].
  assert (f = true).
  { destruct f; [reflexivity|]. exfalso.
    from Hm1 by follow_inv get (v & mask' & Hv & _ & [(_ & _ & Hp)|(E & _)]);
      [|discriminate].
    simpl in Hp, Hv.
    pose proof (hit_cursor_on_plane Hf Hpos Hv) as Hon.
    eapply (probe_no_abort Hf); [exact Hon | | exact Hp | reflexivity].
    intros x y Hx Hy. apply Hset. destruct Hon as (Hx' & Hy' & _).
    pose proof (@ARR_2D_INDEX_lt (score_width (aligner sw))
                  (score_height (aligner sw)) x y). lia. }
  subst f. inversion H; subst; clear H.
  from Hm1 by follow_true_cells get (Hend & Hsc & _);
    [| apply session_ok_advance; exact Hok | exact Hpos].
  simpl in Hend, Hsc. rewrite Hend. split; assumption.
Qed.

(** ** The second loop on a path of positive scores *)

Lemma skipn_store buf : forall k v buf',
  buf_store buf k v = Some buf' ->
  skipn k buf' = v :: skipn (S k) buf /\ firstn k buf' = firstn k buf.
Proof.
  induction buf as [|c tl IH]; intros [|k] v buf' H; simpl in H; try discriminate.
  - inversion H; subst. split; reflexivity.
  - destruct (buf_store tl k v) as [tl'|] eqn:E; simpl in H; inversion H; subst.
    destruct (IH _ _ _ E) as (Hs & Hf).
    change (skipn (S k) (c :: tl')) with (skipn k tl').
    change (skipn (S (S k)) (c :: tl)) with (skipn (S k) tl).
    split; [assumption|]. simpl. f_equal. assumption.
Qed.

Lemma countdown_S k : countdown (S k) = Z.of_nat k :: countdown k.
Proof. unfold countdown. rewrite seq_S, rev_app_distr. reflexivity. Qed.

Lemma removelast_cons {A : Type} (x : A) l :
  l <> [] -> removelast (x :: l) = x :: removelast l.
Proof. destruct l; [congruence | reflexivity]. Qed.

Lemma last_cons_nonempty {A : Type} (x d d' : A) l :
  l <> [] -> last (x :: l) d = last l d'.
Proof.
  revert x. induction l as [|y l IH]; intros x Hne; [congruence|].
  destruct l as [|z l]; [reflexivity|].
  change (last (x :: y :: z :: l) d) with (last (y :: z :: l) d).
  rewrite (IH y) by discriminate. reflexivity.
Qed.

Lemma positive_on_path rd al c :
  on_plane rd al c -> gap_positive c -> curr_score c <> 0 -> 0 < curr_score c.
Proof.
  intros (_ & _ & _ & Hpl) Hg Hnz. destruct (curr_matrix c) eqn:E.
  - pose proof (cM_nonneg rd (scoring al) (seq_a al) (seq_b al)
                  (score_x c) (score_y c)). unfold dp_of in Hpl. lia.
  - apply Hg. congruence.
  - apply Hg. congruence.
Qed.

(** With non-positive gap scores the second loop walks the whole path: it
    writes the column of every cursor but the last at indices [k-1 .. 0],
    leaves the rest of the buffers alone, and ends on the last cursor. *)
Lemma emit_exact rd al :
  filled rd al -> gap_penalties (scoring al) ->
  forall cs c, path rd al c cs -> on_plane rd al c -> gap_positive c ->
  forall fuel i ra rb,
  (List.length cs <= fuel)%nat ->
  let k := (List.length cs - 1)%nat in
  Z.of_nat k <= 2 ^ 32 ->
  (k <= List.length ra)%nat -> (k <= List.length rb)%nat ->
  (k = 0%nat \/ i = Z.of_nat k - 1) ->
  emit fuel rd al c i ra rb
    = Done (last cs c,
            rev (map fst (path_columns al cs)) ++ skipn k ra,
            rev (map snd (path_columns al cs)) ++ skipn k rb) /\
  emit_steps fuel rd al c i
    = combine (countdown k) (map arr_index (removelast cs)).
Proof.
  intros Hf Hgp. induction 1 as [c Hz | c c' cs Hnz Hst Hp IH];
    intros Hon Hpos fuel i ra rb Hfu k Hk Hra Hrb Hi; subst k;
    destruct fuel as [|fuel]; simpl in Hfu; try lia.
  - simpl. rewrite Hz. simpl. split; reflexivity.
  - pose proof (path_nonempty Hp) as Hne.
    assert (Hlen : exists k', List.length cs = S k')
      by (destruct cs; [congruence | simpl; eauto]).
    destruct Hlen as (k' & Hk').
    change (List.length (c :: cs) - 1)%nat with (List.length cs - 0)%nat in *.
    rewrite Nat.sub_0_r, Hk' in *.
    destruct Hi as [Hi|Hi]; [discriminate|].
    pose proof (positive_on_path Hon Hpos Hnz) as Hgt.
    destruct (step_filled Hf Hon Hnz) as (c2 & Hst2 & Hon' & _ & _ & _ & Hpos').
    assert (c2 = c') by congruence. subst c2.
    specialize (Hpos' Hgp Hpos).
    destruct (emit_column_defined Hf Hon Hgt) as (col & Hcol).
    assert (Hcolat : column_at al c = col) by (unfold column_at; rewrite Hcol; reflexivity).
    assert (Hidx : Z.to_nat i = k') by lia.
    destruct (@buf_store_defined ra k' (fst col)) as (ra1 & Ea); [lia|].
    destruct (@buf_store_defined rb k' (snd col)) as (rb1 & Eb); [lia|].
    assert (Hem : emit (S fuel) rd al c i ra rb
                  = emit fuel rd al c' (to_uint (i - 1)) ra1 rb1).
    { simpl. destruct (Z.gtb_spec (curr_score c) 0) as [_|]; [|lia].
      rewrite Hcol. simpl. rewrite Hidx, Ea, Eb, Hst. reflexivity. }
    assert (Hes : emit_steps (S fuel) rd al c i
                  = (i, arr_index c) :: emit_steps fuel rd al c' (to_uint (i - 1))).
    { simpl. destruct (Z.gtb_spec (curr_score c) 0) as [_|]; [|lia].
      rewrite Hst. reflexivity. }
    rewrite Hem, Hes. clear Hem Hes.
    cbv zeta in IH. replace (S k' - 1)%nat with k' in IH by lia.
    destruct (IH Hon' Hpos' fuel (to_uint (i - 1)) ra1 rb1) as (He & Hs).
    + lia.
    + lia.
    + rewrite (buf_store_length _ _ _ Ea). lia.
    + rewrite (buf_store_length _ _ _ Eb). lia.
    + destruct k' as [|k'']; [left; reflexivity|]. right.
      rewrite to_uint_small by lia. lia.
    + rewrite He, Hs.
      destruct (skipn_store _ _ _ Ea) as (Sa & _).
      destruct (skipn_store _ _ _ Eb) as (Sb & _).
      rewrite Sa, Sb. unfold path_columns.
      rewrite (removelast_cons c Hne). cbn [map rev].
      rewrite Hcolat, countdown_S. cbn [combine].
      rewrite <- !app_assoc. cbn [app].
      rewrite (last_cons_nonempty c c c' Hne).
      split; [reflexivity|]. rewrite Hi. repeat f_equal. lia.
Qed.

Lemma path_good rd al :
  filled rd al -> gap_penalties (scoring al) ->
  forall cs c, path rd al c cs -> on_plane rd al c -> gap_positive c ->
  Forall (fun c' => on_plane rd al c' /\ gap_positive c') cs /\
  curr_score (last cs c) = 0 /\ curr_matrix (last cs c) = MATCH /\
  (List.length cs <= S (score_x c + score_y c))%nat.
Proof.
  intros Hf Hgp. induction 1 as [c Hz | c c' cs Hnz Hst Hp IH]; intros Hon Hpos.
  - simpl. repeat split; auto; try lia.
    destruct (curr_matrix c) eqn:E; [reflexivity| |]; exfalso;
      assert (0 < curr_score c) by (apply Hpos; congruence); lia.
  - destruct (step_filled Hf Hon Hnz) as (c2 & Hst2 & Hon' & Hsb & _ & _ & Hpos').
    assert (c2 = c') by congruence. subst c2.
    specialize (Hpos' Hgp Hpos). apply step_back_less in Hsb.
    destruct (IH Hon' Hpos') as (Hall & Hz & Hm & Hlen).
    pose proof (path_nonempty Hp) as Hne.
    rewrite (last_cons_nonempty c c c' Hne).
    repeat split; auto; simpl; lia.
Qed.

(** A successful [_follow_hit] under non-positive gap scores, on matrices
    whose sides add up to at most 2^32: the result holds the columns of the
    whole path. *)
Lemma follow_true_exact rd fuel sw pos res sw' res' :
  session_ok rd sw -> gap_penalties (scoring (aligner sw)) ->
  Z.of_nat (score_width (aligner sw)) + Z.of_nat (score_height (aligner sw))
    <= 2 ^ 32 + 2 ->
  result_ok res ->
  (pos < score_width (aligner sw) * score_height (aligner sw))%nat ->
  _follow_hit fuel rd sw pos res = Done (true, sw', res') ->
  exists cs,
    follow_trace rd (aligner sw) (match_scores_mask (history sw)) fuel pos res' cs.
Proof.
  intros Hok Hgp Hsize Hres Hpos H. unfold follow_trace.
  pose proof Hok as (Hf & _).
  from H by follow_keeps get (_ & _ & _ & _ & _ & Hrok). specialize (Hrok Hres).
  apply follow_inv in H.
  destruct H as (v & mask' & Hv & -> & [(E & _)|(_ & len & c & ra & rb & ra' & rb' & Hp & He & Ha & Hb & ->)]);
    [discriminate|].
  cbv zeta in *. cbn [score length result_a result_b capacity pos_a pos_b len_a len_b] in *.
  pose proof (hit_cursor_on_plane Hf Hpos Hv) as Hon.
  assert (Hgpos : gap_positive (hit_cursor (aligner sw) pos v))
    by (intros Hne; exfalso; apply Hne; reflexivity).
  from Hp by probe_success get (cs & Hpath & Hn & Hlen & Hvis & _).
  destruct (path_good Hf Hgp Hpath Hon Hgpos) as (_ & _ & _ & Hbound).
  assert (Hk : List.length cs = S len) by lia.
  destruct (ensure_capacity_ok len Hres) as ((La & Lb) & Hcap).
  destruct Hon as (Hx & Hy & _).
  destruct (@emit_exact rd (aligner sw) Hf Hgp cs _ Hpath
              (hit_cursor_on_plane Hf Hpos Hv) Hgpos fuel
              (to_uint (Z.of_nat len - 1))
              (result_a (alignment_ensure_capacity res len))
              (result_b (alignment_ensure_capacity res len))) as (He' & Hs');
    try (cbv zeta; rewrite Hk; simpl Nat.sub; rewrite ?Nat.sub_0_r); try lia.
  { destruct len as [|len']; [left; reflexivity|]. right.
    rewrite to_uint_small by lia. reflexivity. }
  rewrite Hk in He', Hs'. simpl Nat.sub in He', Hs'. rewrite Nat.sub_0_r in He', Hs'.
  rewrite He in He'. inversion He'; subst c ra rb; clear He'.
  exists cs. rewrite Hk. simpl Nat.sub. rewrite Nat.sub_0_r.
  assert (Hlenc : List.length (path_columns (aligner sw) cs) = len).
  { unfold path_columns. rewrite length_map.
    pose proof (path_nonempty Hpath) as Hne.
    destruct (exists_last Hne) as (l & x & ->).
    rewrite removelast_last. rewrite length_app in Hk. simpl in Hk. lia. }
  destruct (skipn_store _ _ _ Ha) as (_ & Fa).
  destruct (skipn_store _ _ _ Hb) as (_ & Fb).
  split; [assumption|]. split; [assumption|]. split; [reflexivity|].
  split; [rewrite Fa, firstn_app, firstn_all2, length_rev, length_map, Hlenc,
            Nat.sub_diag, app_nil_r by (rewrite length_rev, length_map; lia);
          reflexivity|].
  split; [rewrite Fb, firstn_app, firstn_all2, length_rev, length_map, Hlenc,
            Nat.sub_diag, app_nil_r by (rewrite length_rev, length_map; lia);
          reflexivity|].
  split; [eapply buf_store_same; eauto|].
  split; [eapply buf_store_same; eauto|].
  split; [lia|]. split; [assumption|].
  repeat split; try reflexivity; assumption.
Qed.

Lemma primed_hits_positive rd a b la lb sc sw :
  primed rd a b la lb sc sw ->
  Forall (fun pos => 0 < nth pos (match_scores (aligner sw)) 0)
         (sorted_match_indices (history sw)).
Proof.
  induction 1 as [sw0 sw Hh H | sw fuel res found sw' res' Hp IH H].
  - from H by align_facts get (_ & Hs & _). rewrite Hs.
    eapply Permutation_Forall; [symmetry; apply sort_r_perm|].
    apply Forall_forall. intros pos Hin. apply collect_hits_In in Hin. lia.
  - from H by fetch_keeps get (((Ea & Es & _) & _) & _). rewrite Ea, Es.
    assumption.
Qed.

Lemma primed_aligner rd a b la lb sc sw :
  primed rd a b la lb sc sw ->
  score_width (aligner sw) = S la /\ score_height (aligner sw) = S lb /\
  seq_a (aligner sw) = a /\ seq_b (aligner sw) = b /\ scoring (aligner sw) = sc.
Proof.
  intros Hp. apply primed_ok in Hp. destruct Hp as (_ & _ & Hal).
  apply aligner_align_filled in Hal. tauto.
Qed.

(** The alignment a fetch returns on a primed session, under non-positive
    gap scores and sequence lengths that add up to at most 2^32: it comes
    from one successful [_follow_hit], at a hit of positive score, whose
    whole path it holds. *)
Lemma fetch_true_exact rd a b la lb sc sw fuel res sw' res' :
  primed rd a b la lb sc sw -> gap_penalties sc ->
  Z.of_nat la + Z.of_nat lb <= 2 ^ 32 ->
  result_ok res ->
  smith_waterman_fetch fuel rd sw res = Done (true, sw', res') ->
  exists fuel0 sw0 pos cs,
    later sw sw0 /\
    In pos (sorted_match_indices (history sw)) /\
    0 < score res' /\
    _follow_hit fuel0 rd (advance sw0) pos res = Done (true, sw', res') /\
    end_cell (aligner sw) res' = pos /\
    follow_trace rd (aligner sw) (match_scores_mask (history sw0)) fuel0 pos res' cs.
Proof.
  intros Hp Hgp Hsize Hres H.
  pose proof (primed_hits_positive Hp) as Hhits.
  pose proof (primed_aligner Hp) as (Hw & Hh & _ & _ & Hsc).
  apply primed_ok in Hp. destruct Hp as (Hok & _).
  apply fetch_true_inv in H.
  destruct H as (fuel0 & sw0 & pos & _ & Hl & _ & Hnth & _ & Hok0 & Hfo).
  specialize (Hok0 Hok).
  pose proof Hl as ((Ea & Es & _) & _).
  assert (Hin : In pos (sorted_match_indices (history sw)))
    by (eapply nth_error_In; eauto).
  assert (Hpos : (pos < score_width (aligner sw0) * score_height (aligner sw0))%nat).
  { destruct Hok0 as (_ & _ & Hh0 & _). rewrite Forall_forall in Hh0. apply Hh0.
    rewrite Es. assumption. }
  from Hfo by follow_true_exact get (cs & Htr);
    [ | apply session_ok_advance; exact Hok0
      | simpl; rewrite Ea, Hsc; exact Hgp
      | simpl; rewrite Ea, Hw, Hh; lia
      | exact Hres
      | exact Hpos ].
  simpl in Htr. rewrite Ea in Htr.
  from Hfo by follow_true_cells get (Hend & _);
    [ | apply session_ok_advance; exact Hok0 | exact Hpos ].
  simpl in Hend. rewrite Ea in Hend.
  exists fuel0, sw0, pos, cs. split; [assumption|]. split; [assumption|].
  split; [|split; [assumption | split; assumption]].
  rewrite Forall_forall in Hhits. specialize (Hhits pos Hin).
  destruct Htr as (Hv & _). rewrite (nth_error_nth _ _ 0 Hv) in Hhits. assumption.
Qed.


Lemma length_removelast_path rd al c cs :
  path rd al c cs -> S (List.length (removelast cs)) = List.length cs.
Proof.
  intros Hp. pose proof (path_nonempty Hp) as Hne.
  destruct (exists_last Hne) as (l & x & ->).
  rewrite removelast_last, length_app. simpl. lia.
Qed.




(** A path that starts at a non-zero score has at least two cursors. *)
Lemma path_two rd al c cs :
  path rd al c cs -> curr_score c <> 0 -> (2 <= List.length cs)%nat.
Proof.
  intros Hp Hnz. destruct Hp as [c Hz | c c' cs Hnz' Hst Hp]; [congruence|].
  pose proof (path_nonempty Hp). destruct cs; [congruence | simpl; lia].
Qed.

Lemma simple_gap_penalties m mm go ge :
  go <= 0 -> ge <= 0 -> gap_penalties (simple_scoring m mm go ge).
Proof. intros; split; assumption. Qed.

(** ** What the second loop writes *)












(** ** First and last column *)

Lemma path_zero rd al c cs : path rd al c cs -> curr_score c = 0 -> cs = [c].
Proof. intros Hp Hz. destruct Hp; [reflexivity | congruence]. Qed.

Lemma gap_positive_zero c : gap_positive c -> curr_score c = 0 -> curr_matrix c = MATCH.
Proof.
  intros Hg Hz. destruct (curr_matrix c) eqn:E; [reflexivity| |]; exfalso;
    assert (0 < curr_score c) by (apply Hg; congruence); lia.
Qed.

(** The cursor before the last one of a path is in MATCH, one step up the
    diagonal from the last: a gap edge cannot bring a positive score down to
    zero when gap scores are not positive. *)
Lemma path_penultimate rd al :
  filled rd al -> gap_penalties (scoring al) ->
  forall cs c, path rd al c cs -> on_plane rd al c -> gap_positive c ->
  curr_score c <> 0 ->
  let cp := last (removelast cs) c in
  let cn := last cs c in
  curr_matrix cp = MATCH /\
  score_x cp = S (score_x cn) /\ score_y cp = S (score_y cn) /\
  on_plane rd al cp /\ 0 < curr_score cp.
Proof.
  intros Hf Hgp. induction 1 as [c Hz | c c' cs Hnz Hst Hp IH];
    intros Hon Hpos Hnz'; [congruence|]. cbv zeta.
  destruct (step_filled Hf Hon Hnz)
    as (c2 & Hst2 & Hon' & Hsb & Hedge & Hafter & Hpos').
  assert (c2 = c') by congruence. subst c2. specialize (Hpos' Hgp Hpos).
  pose proof (path_nonempty Hp) as Hne.
  rewrite (removelast_cons c Hne), (last_cons_nonempty c c c' Hne).
  destruct (Z.eq_dec (curr_score c') 0) as [Hz|Hnz2].
  - rewrite (path_zero Hp Hz). simpl.
    pose proof (gap_positive_zero Hpos' Hz) as Hm'.
    pose proof (positive_on_path Hon Hpos Hnz) as Hgt.
    assert (Hm : curr_matrix c = MATCH).
    { destruct Hgp as (Ho & He). unfold edge_score in Hedge. rewrite Hm' in Hedge.
      destruct (curr_matrix c); [reflexivity | lia | lia]. }
    rewrite Hm in Hsb. unfold step_back in Hsb.
    destruct (score_x c) as [|x]; [destruct rd; discriminate|].
    destruct (score_y c) as [|y]; [destruct rd; discriminate|].
    simpl in Hsb. assert (E : (x, y) = (score_x c', score_y c'))
      by (destruct rd; congruence).
    inversion E; subst.
    split; [assumption|]. split; [reflexivity|]. split; [reflexivity|].
    split; assumption.
  - destruct (IH Hon' Hpos' Hnz2) as (Hm & Hx & Hy & Honp & Hgt).
    assert (Hne2 : removelast cs <> []).
    { pose proof (path_two Hp Hnz2). destruct cs as [|u [|v l]]; simpl in *;
        try lia; discriminate. }
    rewrite (last_cons_nonempty c c c' Hne2).
    exact (conj Hm (conj Hx (conj Hy (conj Honp Hgt)))).
Qed.

Lemma rev_first {A : Type} (l : list A) (d : A) :
  l <> [] -> nth_error (rev l) 0 = Some (last l d).
Proof.
  intros Hne. destruct (exists_last Hne) as (l0 & x & ->).
  rewrite rev_app_distr, last_last. reflexivity.
Qed.

Lemma rev_final {A : Type} (x : A) (l : list A) :
  nth_error (rev (x :: l)) (List.length l) = Some x.
Proof.
  simpl. rewrite nth_error_app2 by (rewrite length_rev; lia).
  rewrite length_rev, Nat.sub_diag. reflexivity.
Qed.

Lemma last_map {A B : Type} (f : A -> B) (l : list A) (d : A) :
  last (map f l) (f d) = f (last l d).
Proof.
  induction l as [|x l IH]; [reflexivity|].
  destruct l as [|y l]; [reflexivity|].
  change (last (map f (x :: y :: l)) (f d)) with (last (map f (y :: l)) (f d)).
  rewrite IH. reflexivity.
Qed.

Lemma column_match al c x y ca cb :
  curr_matrix c = MATCH -> score_x c = S x -> score_y c = S y ->
  nth_error (seq_a al) x = Some ca -> nth_error (seq_b al) y = Some cb ->
  column_at al c = (ca, cb).
Proof.
  intros Hm Hx Hy Ha Hb. unfold column_at, emit_column.
  rewrite Hm, Hx, Hy. simpl. rewrite Ha, Hb. reflexivity.
Qed.

Lemma path_coords rd al : filled rd al ->
  forall cs c, path rd al c cs -> on_plane rd al c ->
  Forall (fun c' => (score_x c' <= score_x c /\ score_y c' <= score_y c)%nat) cs.
Proof.
  intros Hf. induction 1 as [c Hz | c c' cs Hnz Hst Hp IH]; intros Hon.
  - constructor; [lia | constructor].
  - destruct (step_filled Hf Hon Hnz) as (c2 & Hst2 & Hon' & Hsb & _).
    assert (c2 = c') by congruence. subst c2. apply step_back_less in Hsb.
    constructor; [lia|].
    eapply Forall_impl; [|apply IH; assumption]. simpl. intros u Hu. lia.
Qed.

Lemma last_In {A : Type} (l : list A) (d : A) : l <> [] -> In (last l d) l.
Proof.
  intros Hne. destruct (exists_last Hne) as (l0 & x & ->).
  rewrite last_last. apply in_or_app. right. left. reflexivity.
Qed.

Lemma In_removelast {A : Type} (l : list A) (x : A) : In x (removelast l) -> In x l.
Proof.
  induction l as [|y l IH]; [auto|]. destruct l as [|z l]; [intros []|].
  change (removelast (y :: z :: l)) with (y :: removelast (z :: l)).
  intros [->|H]; [left; reflexivity | right; apply IH; assumption].
Qed.

(** Both readings return the one-column alignment of "-" with "-", whose
    only column is '-' over '-'. *)
Lemma dash_alignment_both : dash_alignment AsIndexed /\ dash_alignment AsGlossed.
Proof.
  split; unfold dash_alignment; cbv zeta.
  - assert (Hal : smith_waterman_align2 AsIndexed (bytes "-") (bytes "-") 1 1
                    (simple_scoring 2 (-2) (-2) (-1))
                    (smith_waterman_new (simple_scoring 2 (-2) (-2) (-1))) = Done _)
      by (vm_compute; reflexivity).
    match type of Hal with
    | _ = Done ?s =>
        assert (Hfe : smith_waterman_fetch 20 AsIndexed s alignment_create
                      = Done (true, _, _))
          by (vm_compute; reflexivity)
    end.
    eexists. eexists. eexists. split; [exact Hal|]. split; [exact Hfe|].
    repeat split; reflexivity.
  - assert (Hal : smith_waterman_align2 AsGlossed (bytes "-") (bytes "-") 1 1
                    (simple_scoring 2 (-2) (-2) (-1))
                    (smith_waterman_new (simple_scoring 2 (-2) (-2) (-1))) = Done _)
      by (vm_compute; reflexivity).
    match type of Hal with
    | _ = Done ?s =>
        assert (Hfe : smith_waterman_fetch 20 AsGlossed s alignment_create
                      = Done (true, _, _))
          by (vm_compute; reflexivity)
    end.
    eexists. eexists. eexists. split; [exact Hal|]. split; [exact Hfe|].
    repeat split; reflexivity.
Qed.

(** The first and the last column of a successful [_follow_hit], from its
    trace. *)
Lemma trace_bookends rd al mask fuel pos r cs :
  filled rd al -> gap_penalties (scoring al) ->
  (pos < score_width al * score_height al)%nat ->
  0 < score r ->
  follow_trace rd al mask fuel pos r cs ->
  let start := hit_cursor al pos (score r) in
  (1 <= length r)%nat /\ (1 <= len_a r)%nat /\ (1 <= len_b r)%nat /\
  curr_matrix (last cs start) = MATCH /\ curr_score (last cs start) = 0 /\
  exists a0 b0 a1 b1,
    nth_error (seq_a al) (pos_a r) = Some a0 /\
    nth_error (result_a r) 0 = Some a0 /\
    nth_error (seq_b al) (pos_b r) = Some b0 /\
    nth_error (result_b r) 0 = Some b0 /\
    nth_error (seq_a al) (pos_a r + len_a r - 1) = Some a1 /\
    nth_error (result_a r) (length r - 1) = Some a1 /\
    nth_error (seq_b al) (pos_b r + len_b r - 1) = Some b1 /\
    nth_error (result_b r) (length r - 1) = Some b1.
Proof.
  intros Hf Hgp Hpos Hsc
    (Hv & Hpath & Hlen & Hfa & Hfb & _ & _ & _ & _ & Hpa & Hpb & Hla & Hlb & _).
  cbv zeta in *.
  set (start := hit_cursor al pos (score r)) in *.
  pose proof (hit_cursor_on_plane Hf Hpos Hv) as Hon. fold start in Hon.
  assert (Hgpos : gap_positive start) by (intros Hne; exfalso; apply Hne; reflexivity).
  assert (Hnz : curr_score start <> 0) by (simpl; lia).
  destruct (path_good Hf Hgp Hpath Hon Hgpos) as (_ & Hz & Hm & _).
  destruct (path_penultimate Hf Hgp Hpath Hon Hgpos Hnz)
    as (Hmp & Hxp & Hyp & Honp & Hgtp).
  pose proof (path_two Hpath Hnz) as H2.
  pose proof (length_removelast_path Hpath) as Hrl.
  pose proof (path_coords Hf Hpath Hon) as Hco. rewrite Forall_forall in Hco.
  assert (Hne : removelast cs <> [])
    by (destruct (removelast cs); [simpl in Hrl; lia | discriminate]).
  set (cp := last (removelast cs) start) in *.
  destruct (Hco cp) as (Hcx & Hcy);
    [apply In_removelast, last_In; assumption|].
  (* the two cursors and their symbols *)
  destruct (@on_plane_interior rd al start Hf Hon) as (x0 & y0 & a1 & b1 & Ex0 & Ey0 & Ha1 & Hb1);
    [intros _; assumption|].
  destruct (@on_plane_interior rd al cp Hf Honp) as (xp & yp & a0 & b0 & Exp & Eyp & Ha0 & Hb0);
    [intros _; lia|].
  pose proof (column_match al start eq_refl Ex0 Ey0 Ha1 Hb1) as Hc1.
  pose proof (column_match al cp Hmp Exp Eyp Ha0 Hb0) as Hc0.
  assert (Hcols : path_columns al cs
                  = column_at al start :: map (column_at al) (tl (removelast cs))).
  { unfold path_columns. destruct Hpath as [c Hz' | c c' cs' Hnz' Hst Hp'];
      [simpl in H2; lia|].
    rewrite (removelast_cons c (path_nonempty Hp')). reflexivity. }
  assert (Hlc : List.length (map (column_at al) (tl (removelast cs)))
                = (length r - 1)%nat).
  { rewrite length_map. destruct (removelast cs); simpl in *; lia. }
  assert (Hlastcol : last (path_columns al cs) (column_at al start) = column_at al cp).
  { unfold path_columns. rewrite last_map. reflexivity. }
  assert (Hcne : path_columns al cs <> []) by (rewrite Hcols; discriminate).
  split; [lia|]. split; [lia|]. split; [lia|]. split; [assumption|].
  split; [assumption|].
  exists a0, b0, a1, b1.
  assert (Hk : (0 < List.length cs - 1)%nat) by lia.
  assert (Hra0 : nth_error (result_a r) 0 = nth_error (firstn (List.length cs - 1) (result_a r)) 0).
  { rewrite nth_error_firstn. destruct (Nat.ltb_spec 0 (List.length cs - 1)); [reflexivity | lia]. }
  assert (Hrb0 : nth_error (result_b r) 0 = nth_error (firstn (List.length cs - 1) (result_b r)) 0).
  { rewrite nth_error_firstn. destruct (Nat.ltb_spec 0 (List.length cs - 1)); [reflexivity | lia]. }
  assert (Hra1 : nth_error (result_a r) (length r - 1)
                 = nth_error (firstn (List.length cs - 1) (result_a r)) (length r - 1)).
  { rewrite nth_error_firstn.
    destruct (Nat.ltb_spec (length r - 1) (List.length cs - 1)); [reflexivity | lia]. }
  assert (Hrb1 : nth_error (result_b r) (length r - 1)
                 = nth_error (firstn (List.length cs - 1) (result_b r)) (length r - 1)).
  { rewrite nth_error_firstn.
    destruct (Nat.ltb_spec (length r - 1) (List.length cs - 1)); [reflexivity | lia]. }
  rewrite Hra0, Hrb0, Hra1, Hrb1, Hfa, Hfb. clear Hra0 Hrb0 Hra1 Hrb1.
  rewrite (rev_first (fst (column_at al start)))
    by (intros E; apply map_eq_nil in E; contradiction).
  rewrite (rev_first (snd (column_at al start)))
    by (intros E; apply map_eq_nil in E; contradiction).
  rewrite !last_map, Hlastcol, Hc0.
  rewrite Hcols. cbn [map]. rewrite <- Hlc.
  rewrite <- (length_map fst (map (column_at al) (tl (removelast cs)))) at 1.
  rewrite rev_final.
  rewrite <- (length_map snd (map (column_at al) (tl (removelast cs)))).
  rewrite rev_final. rewrite Hc1. simpl fst. simpl snd.
  rewrite Hpa, Hpb, Hla, Hlb.
  replace (score_x (last cs start)) with xp by lia.
  replace (score_y (last cs start)) with yp by lia.
  replace (xp + (score_x start - xp) - 1)%nat with x0 by lia.
  replace (yp + (score_y start - yp) - 1)%nat with y0 by lia.
  repeat split; assumption.
Qed.

(** C6, as stated, fails where a sequence holds the byte '-': the only
    column of the alignment of "-" with "-" is a symbol column, and it is
    '-' over '-'. *)
Lemma bookend_may_be_dash :
  exists sw sw' res',
    smith_waterman_align2 AsGlossed (bytes "-") (bytes "-") 1 1
      (simple_scoring 2 (-2) (-2) (-1))
      (smith_waterman_new (simple_scoring 2 (-2) (-2) (-1))) = Done sw /\
    smith_waterman_fetch 20 AsGlossed sw alignment_create = Done (true, sw', res') /\
    nth_error (result_a res') 0 = Some gap_char /\
    nth_error (result_b res') 0 = Some gap_char.
Proof.
  destruct dash_alignment_both as (_ & sw & sw' & res' & Hal & Hfe & Hlen & _ & _ & _ & _ & _ & Ha & Hb).
  exists sw, sw', res'. split; [exact Hal|]. split; [exact Hfe|].
  rewrite Hlen in Ha, Hb.
  split.
  - destruct (result_a res') as [|c l]; [discriminate|].
    simpl in Ha. inversion Ha. reflexivity.
  - destruct (result_b res') as [|c l]; [discriminate|].
    simpl in Hb. inversion Hb. reflexivity.
Qed.

(** C6, amended.  Every alignment a fetch returns on a primed session
    (non-positive gap scores, lengths adding up to at most 2^32) has at
    least one column; its first column is [A[pos_a]] over [B[pos_b]] and its
    last one [A[pos_a+len_a-1]] over [B[pos_b+len_b-1]], both written in
    plane MATCH: the traceback starts in MATCH and ends in MATCH at score
    zero.  When neither sequence holds the byte '-', none of the four is
    '-'. *)
Theorem alignment_bookends rd a b la lb sc sw fuel res sw' res' :
  primed rd a b la lb sc sw -> gap_penalties sc ->
  Z.of_nat la + Z.of_nat lb <= 2 ^ 32 ->
  result_ok res ->
  smith_waterman_fetch fuel rd sw res = Done (true, sw', res') ->
  let al := aligner sw in
  let start := hit_cursor al (end_cell al res') (score res') in
  let cs := walk (S (score_x start + score_y start)) rd al start in
  (1 <= length res')%nat /\ (1 <= len_a res')%nat /\ (1 <= len_b res')%nat /\
  curr_matrix start = MATCH /\
  curr_matrix (last cs start) = MATCH /\ curr_score (last cs start) = 0 /\
  exists a0 b0 a1 b1,
    (nth_error a (pos_a res') = Some a0 /\
     nth_error (result_a res') 0 = Some a0 /\
     nth_error b (pos_b res') = Some b0 /\
     nth_error (result_b res') 0 = Some b0 /\
     nth_error a (pos_a res' + len_a res' - 1) = Some a1 /\
     nth_error (result_a res') (length res' - 1) = Some a1 /\
     nth_error b (pos_b res' + len_b res' - 1) = Some b1 /\
     nth_error (result_b res') (length res' - 1) = Some b1) /\
    (~ In gap_char a -> ~ In gap_char b ->
     a0 <> gap_char /\ b0 <> gap_char /\ a1 <> gap_char /\ b1 <> gap_char).
Proof.
  intros Hp Hgp Hsize Hres H. cbv zeta.
  from H by fetch_true_exact get (fuel0 & sw0 & pos & cs & Hl & Hin & Hpos & Hfo & Hend & Htr);
    try eassumption.
  pose proof (primed_aligner Hp) as (_ & _ & Hsa & Hsb & Hsc).
  apply primed_ok in Hp. destruct Hp as (Hok & _).
  pose proof Hok as (Hf & _ & Hh & _).
  assert (Hlt : (pos < score_width (aligner sw) * score_height (aligner sw))%nat)
    by (rewrite Forall_forall in Hh; apply Hh; assumption).
  rewrite Hend.
  assert (Hgp' : gap_penalties (scoring (aligner sw))) by (rewrite Hsc; exact Hgp).
  destruct (trace_bookends Hf Hgp' Hlt Hpos Htr)
    as (H1 & H2 & H3 & Hm & Hz & a0 & b0 & a1 & b1 & Hcols).
  cbv zeta in *. rewrite Hsa, Hsb in Hcols.
  destruct Htr as (Hv & Hpath & _).
  pose proof (hit_cursor_on_plane Hf Hlt Hv) as Hon.
  assert (Hgpos : gap_positive (hit_cursor (aligner sw) pos (score res')))
    by (intros Hne; exfalso; apply Hne; reflexivity).
  destruct (path_good Hf Hgp' Hpath Hon Hgpos) as (_ & _ & _ & Hbound).
  rewrite (path_walk Hpath Hbound).
  split; [assumption|]. split; [assumption|]. split; [assumption|].
  split; [reflexivity|]. split; [assumption|]. split; [assumption|].
  exists a0, b0, a1, b1. split; [exact Hcols|].
  destruct Hcols as (Ha0 & _ & Hb0 & _ & Ha1 & _ & Hb1 & _).
  intros Hna Hnb. repeat split; intros ->.
  - apply Hna. eapply nth_error_In; eauto.
  - apply Hnb. eapply nth_error_In; eauto.
  - apply Hna. eapply nth_error_In; eauto.
  - apply Hnb. eapply nth_error_In; eauto.
Qed.

(** ** Round trip *)

Lemma firstn_snoc {A : Type} (l : list A) : forall n v,
  nth_error l n = Some v -> firstn (S n) l = firstn n l ++ [v].
Proof.
  induction l as [|x l IH]; intros [|n] v H; simpl in H; try discriminate.
  - inversion H; reflexivity.
  - simpl. f_equal. apply IH. assumption.
Qed.

Lemma substring_snoc (s : list symbol) lo hi v :
  (lo <= hi)%nat -> nth_error s hi = Some v ->
  substring s lo (hi - lo) ++ [v] = substring s lo (S hi - lo).
Proof.
  intros Hle Hv. unfold substring.
  replace (S hi - lo)%nat with (S (hi - lo)) by lia.
  symmetry. apply firstn_snoc.
  rewrite nth_error_skipn. replace (lo + (hi - lo))%nat with hi by lia. assumption.
Qed.

Lemma strip_gaps_symbol c : c <> gap_char -> strip_gaps [c] = [c].
Proof.
  intros Hne. unfold strip_gaps. simpl.
  destruct (Byte.eqb c gap_char) eqn:E; [|reflexivity].
  apply Byte.byte_dec_bl in E. contradiction.
Qed.

Lemma strip_gaps_app l1 l2 : strip_gaps (l1 ++ l2) = strip_gaps l1 ++ strip_gaps l2.
Proof. unfold strip_gaps. apply filter_app. Qed.

Lemma column_gap_a al c y cb :
  curr_matrix c = GAP_A -> score_y c = S y -> nth_error (seq_b al) y = Some cb ->
  column_at al c = (gap_char, cb).
Proof.
  intros Hm Hy Hb. unfold column_at, emit_column. rewrite Hm, Hy. simpl.
  rewrite Hb. reflexivity.
Qed.

Lemma column_gap_b al c x ca :
  curr_matrix c = GAP_B -> score_x c = S x -> nth_error (seq_a al) x = Some ca ->
  column_at al c = (ca, gap_char).
Proof.
  intros Hm Hx Ha. unfold column_at, emit_column. rewrite Hm, Hx. simpl.
  rewrite Ha. reflexivity.
Qed.

(** Under the reading in which a GAP_A step consumes B only: the symbols a
    path writes to row A are those of A between its last and its first
    cursor, and likewise for B. *)
Lemma path_strip al :
  filled AsGlossed al ->
  ~ In gap_char (seq_a al) -> ~ In gap_char (seq_b al) ->
  forall cs c, path AsGlossed al c cs -> on_plane AsGlossed al c ->
  strip_gaps (rev (map fst (path_columns al cs)))
    = substring (seq_a al) (score_x (last cs c))
                (score_x c - score_x (last cs c)) /\
  strip_gaps (rev (map snd (path_columns al cs)))
    = substring (seq_b al) (score_y (last cs c))
                (score_y c - score_y (last cs c)).
Proof.
  intros Hf Hna Hnb. induction 1 as [c Hz | c c' cs Hnz Hst Hp IH]; intros Hon.
  - simpl. rewrite !Nat.sub_diag. unfold substring. split; reflexivity.
  - destruct (step_filled Hf Hon Hnz) as (c2 & Hst2 & Hon' & Hsb & _).
    assert (c2 = c') by congruence. subst c2.
    destruct (IH Hon') as (IHa & IHb).
    pose proof (path_nonempty Hp) as Hne.
    pose proof (path_coords Hf Hp Hon') as Hco. rewrite Forall_forall in Hco.
    destruct (Hco (last cs c')) as (Hlx & Hly); [apply last_In; assumption|].
    destruct (@on_plane_interior AsGlossed al c Hf Hon)
      as (x & y & ca & cb & Ex & Ey & Ha & Hb); [intros _; assumption|].
    assert (Hca : ca <> gap_char)
      by (intros ->; apply Hna; eapply nth_error_In; eauto).
    assert (Hcb : cb <> gap_char)
      by (intros ->; apply Hnb; eapply nth_error_In; eauto).
    rewrite (last_cons_nonempty c c c' Hne).
    unfold path_columns. rewrite (removelast_cons c Hne). cbn [map rev].
    rewrite !strip_gaps_app. fold (path_columns al cs). rewrite IHa, IHb.
    rewrite Ex, Ey in *. unfold step_back in Hsb.
    destruct (curr_matrix c) eqn:Em; simpl in Hsb; inversion Hsb as [[Hx' Hy']].
    + rewrite (column_match al c Em Ex Ey Ha Hb). simpl fst. simpl snd.
      rewrite (strip_gaps_symbol Hca), (strip_gaps_symbol Hcb).
      rewrite <- Hx', <- Hy' in *.
      split; apply substring_snoc; assumption.
    + rewrite (column_gap_a al c Em Ey Hb). simpl fst. simpl snd.
      rewrite (strip_gaps_symbol Hcb). rewrite <- Hx', <- Hy' in *.
      split; [apply app_nil_r | apply substring_snoc; assumption].
    + rewrite (column_gap_b al c Em Ex Ha). simpl fst. simpl snd.
      rewrite (strip_gaps_symbol Hca). rewrite <- Hx', <- Hy' in *.
      split; [apply substring_snoc; assumption | apply app_nil_r].
Qed.

(** C4, as stated, fails where a sequence holds the byte '-': the alignment
    of "-" with "-" is the column '-' over '-'; deleting '-' from its row A
    leaves nothing, while [A[0 .. 1)] is "-". *)
Lemma round_trip_loses_dash :
  exists sw sw' res',
    smith_waterman_align2 AsGlossed (bytes "-") (bytes "-") 1 1
      (simple_scoring 2 (-2) (-2) (-1))
      (smith_waterman_new (simple_scoring 2 (-2) (-2) (-1))) = Done sw /\
    smith_waterman_fetch 20 AsGlossed sw alignment_create = Done (true, sw', res') /\
    strip_gaps (row_a res') = [] /\
    substring (bytes "-") (pos_a res') (len_a res') = [gap_char].
Proof.
  destruct dash_alignment_both
    as (_ & sw & sw' & res' & Hal & Hfe & Hlen & _ & Hpa & Hla & _ & _ & Ha & _).
  exists sw, sw', res'. split; [exact Hal|]. split; [exact Hfe|].
  unfold row_a. rewrite Ha, Hpa, Hla. split; reflexivity.
Qed.

(** C4, amended.  For sequences that do not hold the byte '-', with a
    GAP_A step consuming B only (the reading the second loop of
    [_follow_hit] writes its columns for), non-positive gap scores and
    lengths adding up to at most 2^32: deleting '-' from row A of a returned
    alignment gives the [len_a] bytes of A from [pos_a], and from row B the
    [len_b] bytes of B from [pos_b]; both ranges lie inside the aligned
    lengths. *)
Theorem alignment_round_trip a b la lb sc sw fuel res sw' res' :
  primed AsGlossed a b la lb sc sw -> gap_penalties sc ->
  Z.of_nat la + Z.of_nat lb <= 2 ^ 32 ->
  result_ok res ->
  ~ In gap_char a -> ~ In gap_char b ->
  smith_waterman_fetch fuel AsGlossed sw res = Done (true, sw', res') ->
  strip_gaps (row_a res') = substring a (pos_a res') (len_a res') /\
  strip_gaps (row_b res') = substring b (pos_b res') (len_b res') /\
  (pos_a res' + len_a res' <= la)%nat /\ (pos_b res' + len_b res' <= lb)%nat.
Proof.
  intros Hp Hgp Hsize Hres Hna Hnb H.
  from H by fetch_true_exact get (fuel0 & sw0 & pos & cs & _ & Hin & _ & _ & _ & Htr);
    try eassumption.
  pose proof (primed_aligner Hp) as (Hw & Hh & Hsa & Hsb & _).
  apply primed_ok in Hp. destruct Hp as (Hok & _).
  pose proof Hok as (Hf & _ & Hhits & _).
  assert (Hlt : (pos < score_width (aligner sw) * score_height (aligner sw))%nat)
    by (rewrite Forall_forall in Hhits; apply Hhits; assumption).
  destruct Htr as (Hv & Hpath & Hlen & Hfa & Hfb & _ & _ & _ & _ & Hpa & Hpb & Hla & Hlb & _).
  cbv zeta in *.
  pose proof (hit_cursor_on_plane Hf Hlt Hv) as Hon.
  rewrite <- Hsa in Hna. rewrite <- Hsb in Hnb.
  destruct (path_strip Hf Hna Hnb Hpath Hon) as (Sa & Sb).
  pose proof (path_coords Hf Hpath Hon) as Hco. rewrite Forall_forall in Hco.
  destruct (Hco (last cs (hit_cursor (aligner sw) pos (score res')))) as (Hx & Hy);
    [apply last_In; eapply path_nonempty; eauto|].
  destruct Hon as (Hxw & Hyh & _).
  unfold row_a, row_b. rewrite Hlen, Hfa, Hfb, Sa, Sb, Hpa, Hpb, Hla, Hlb, Hsa, Hsb.
  split; [reflexivity|]. split; [reflexivity|]. split; lia.
Qed.

(** ** Score preservation *)

Lemma last_cons_default {A : Type} (x d : A) l : last (x :: l) d = last l x.
Proof.
  destruct l as [|y l]; [reflexivity|].
  apply (last_cons_nonempty x d x). discriminate.
Qed.

Lemma rescore_snoc sc : forall l prev col,
  rescore sc prev (l ++ [col]) =
  match rescore sc prev l, column_score sc (last_kind prev l) col with
  | Some s, Some t => Some (s + t)
  | _, _ => None
  end.
Proof.
  induction l as [|x l IH]; intros prev col.
  - simpl. unfold last_kind. simpl.
    destruct (column_score sc prev col) as [t|]; [|reflexivity].
    f_equal. lia.
  - cbn [app rescore]. rewrite IH.
    unfold last_kind. cbn [map]. rewrite last_cons_default.
    fold (last_kind (kind_of x) l).
    destruct (column_score sc prev x) as [s|]; [|reflexivity].
    destruct (rescore sc (kind_of x) l) as [t|]; [|reflexivity].
    destruct (column_score sc (last_kind (kind_of x) l) col) as [u|]; [|reflexivity].
    f_equal. lia.
Qed.

Lemma last_kind_snoc prev l col : last_kind prev (l ++ [col]) = kind_of col.
Proof. unfold last_kind. rewrite map_app. simpl. apply last_last. Qed.

Lemma eqb_gap_false c : c <> gap_char -> Byte.eqb c gap_char = false.
Proof.
  intros Hne. destruct (Byte.eqb c gap_char) eqn:E; [|reflexivity].
  apply Byte.byte_dec_bl in E. contradiction.
Qed.

Lemma combine_fst_snd {A B : Type} (l : list (A * B)) :
  combine (map fst l) (map snd l) = l.
Proof.
  induction l as [|[x y] l IH]; [reflexivity|]. simpl. f_equal. assumption.
Qed.

Lemma combine_rev_columns {A B : Type} (l : list (A * B)) :
  combine (rev (map fst l)) (rev (map snd l)) = rev l.
Proof. rewrite <- !map_rev. apply combine_fst_snd. Qed.

(** Along a path, over sequences without '-', the columns read back in
    alignment order score what the cursor carries: each step adds its edge,
    and the kind of the column written last tells the plane of the cursor. *)
Lemma path_rescore rd al :
  filled rd al -> gap_penalties (scoring al) ->
  ~ In gap_char (seq_a al) -> ~ In gap_char (seq_b al) ->
  forall cs c, path rd al c cs -> on_plane rd al c -> gap_positive c ->
  rescore (scoring al) KSym (rev (path_columns al cs)) = Some (curr_score c) /\
  last_kind KSym (rev (path_columns al cs)) = plane_kind (curr_matrix c).
Proof.
  intros Hf Hgp Hna Hnb. induction 1 as [c Hz | c c' cs Hnz Hst Hp IH];
    intros Hon Hpos.
  - simpl. rewrite (gap_positive_zero Hpos Hz), Hz. split; reflexivity.
  - destruct (step_filled Hf Hon Hnz)
      as (c2 & Hst2 & Hon' & _ & Hedge & Hafter & Hpos').
    assert (c2 = c') by congruence. subst c2. specialize (Hpos' Hgp Hpos).
    destruct (IH Hon' Hpos') as (IHs & IHk).
    pose proof (path_nonempty Hp) as Hne.
    destruct (@on_plane_interior rd al c Hf Hon)
      as (x & y & ca & cb & Ex & Ey & Ha & Hb); [intros _; assumption|].
    assert (Hca : Byte.eqb ca gap_char = false)
      by (apply eqb_gap_false; intros ->; apply Hna; eapply nth_error_In; eauto).
    assert (Hcb : Byte.eqb cb gap_char = false)
      by (apply eqb_gap_false; intros ->; apply Hnb; eapply nth_error_In; eauto).
    unfold path_columns. rewrite (removelast_cons c Hne). cbn [map rev].
    fold (path_columns al cs).
    rewrite rescore_snoc, last_kind_snoc, IHs, IHk.
    unfold edge_score in Hedge. unfold column_score, kind_of.
    destruct (curr_matrix c) eqn:Em.
    + rewrite (column_match al c Em Ex Ey Ha Hb). cbn [fst snd].
      rewrite Hca, Hcb.
      destruct Hf as (_ & _ & Hps & _).
      destruct Hon as (Hxw & Hyh & _).
      destruct (Hps (score_x c) (score_y c)) as (s & Hs); [lia | lia |].
      unfold pair_score0 in Hedge. rewrite Hs in Hedge.
      unfold pair_score in Hs. rewrite Ex, Ey in Hs. simpl in Hs.
      rewrite !Nat.sub_0_r, Ha, Hb in Hs. rewrite Hs.
      split; [f_equal; lia | reflexivity].
    + rewrite (column_gap_a al c Em Ey Hb). cbn [fst snd].
      change (Byte.eqb gap_char gap_char) with true. cbv iota.
      destruct (curr_matrix c'); simpl in *; try contradiction;
        (split; [f_equal; lia | reflexivity]).
    + rewrite (column_gap_b al c Em Ex Ha). cbn [fst snd].
      rewrite Hca. change (Byte.eqb gap_char gap_char) with true. cbv iota.
      destruct (curr_matrix c'); simpl in *; try contradiction;
        (split; [f_equal; lia | reflexivity]).
Qed.

(** C3, as stated, fails where a sequence holds the byte '-': the alignment
    of "-" with "-" scores 2, one match; read back from its rows, its only
    column is a gap and scores [gap_open = -2]. *)
Lemma rescoring_misreads_dash :
  exists sw sw' res',
    smith_waterman_align2 AsGlossed (bytes "-") (bytes "-") 1 1
      (simple_scoring 2 (-2) (-2) (-1))
      (smith_waterman_new (simple_scoring 2 (-2) (-2) (-1))) = Done sw /\
    smith_waterman_fetch 20 AsGlossed sw alignment_create = Done (true, sw', res') /\
    score res' = 2 /\
    alignment_score (simple_scoring 2 (-2) (-2) (-1)) res' = Some (-2).
Proof.
  destruct dash_alignment_both
    as (_ & sw & sw' & res' & Hal & Hfe & Hlen & Hsc & _ & _ & _ & _ & Ha & Hb).
  exists sw, sw', res'. split; [exact Hal|]. split; [exact Hfe|].
  split; [exact Hsc|].
  unfold alignment_score, row_a, row_b. rewrite Ha, Hb. reflexivity.
Qed.

(** C3, amended.  For sequences that do not hold the byte '-' (non-positive
    gap scores, lengths adding up to at most 2^32): the score of a returned
    alignment is the match score stored at its end cell, and it is the sum
    of the scores of its columns read back from the two rows: the lookup of
    a symbol column, [gap_open] for the first column of a gap run and
    [gap_extend] for each further one. *)
Theorem alignment_score_preserved rd a b la lb sc sw fuel res sw' res' :
  primed rd a b la lb sc sw -> gap_penalties sc ->
  Z.of_nat la + Z.of_nat lb <= 2 ^ 32 ->
  result_ok res ->
  ~ In gap_char a -> ~ In gap_char b ->
  smith_waterman_fetch fuel rd sw res = Done (true, sw', res') ->
  nth_error (match_scores (aligner sw)) (end_cell (aligner sw) res')
    = Some (score res') /\
  alignment_score sc res' = Some (score res').
Proof.
  intros Hp Hgp Hsize Hres Hna Hnb H.
  from H by fetch_true_exact get (fuel0 & sw0 & pos & cs & _ & Hin & _ & _ & Hend & Htr);
    try eassumption.
  pose proof (primed_aligner Hp) as (_ & _ & Hsa & Hsb & Hsc).
  apply primed_ok in Hp. destruct Hp as (Hok & _).
  pose proof Hok as (Hf & _ & Hhits & _).
  assert (Hlt : (pos < score_width (aligner sw) * score_height (aligner sw))%nat)
    by (rewrite Forall_forall in Hhits; apply Hhits; assumption).
  destruct Htr as (Hv & Hpath & Hlen & Hfa & Hfb & _).
  cbv zeta in *.
  split; [rewrite Hend; exact Hv|].
  pose proof (hit_cursor_on_plane Hf Hlt Hv) as Hon.
  assert (Hgpos : gap_positive (hit_cursor (aligner sw) pos (score res')))
    by (intros Hne; exfalso; apply Hne; reflexivity).
  rewrite <- Hsa in Hna. rewrite <- Hsb in Hnb. rewrite <- Hsc in Hgp.
  destruct (path_rescore Hf Hgp Hna Hnb Hpath Hon Hgpos) as (Hs & _).
  unfold alignment_score, row_a, row_b.
  rewrite Hlen, Hfa, Hfb, combine_rev_columns, <- Hsc. exact Hs.
Qed.

(** ** The claims at "ACA" against "ACCAA" *)

Ltac no_dash := let H := fresh in intros H; vm_compute in H; intuition discriminate.

Ltac first_fetch rd a b la lb sc :=
  let Hal := fresh "Hal" in
  let Hfe := fresh "Hfe" in
  assert (Hal : smith_waterman_align2 rd (bytes a) (bytes b) la lb sc
                  (smith_waterman_new sc) = Done _)
    by (vm_compute; reflexivity);
  match type of Hal with
  | _ = Done ?s =>
      assert (Hfe : smith_waterman_fetch 20 rd s alignment_create
                    = Done (true, _, _))
        by (vm_compute; reflexivity);
      assert (Hp : primed rd (bytes a) (bytes b) la lb sc s)
        by (eapply primed_align; [|exact Hal]; reflexivity)
  end;
  assert (Hres : result_ok alignment_create) by (split; reflexivity).

Lemma alignment_score_preserved_witness :
  exists sw sw' res',
    smith_waterman_align2 AsGlossed (bytes "ACA") (bytes "ACCAA") 3 5
      (simple_scoring 5 (-4) (-3) (-1))
      (smith_waterman_new (simple_scoring 5 (-4) (-3) (-1))) = Done sw /\
    smith_waterman_fetch 20 AsGlossed sw alignment_create = Done (true, sw', res') /\
    row_a res' = bytes "A-CA" /\ row_b res' = bytes "ACCA" /\ score res' = 12 /\
    alignment_score (simple_scoring 5 (-4) (-3) (-1)) res' = Some (score res').
Proof.
  first_fetch AsGlossed "ACA"%string "ACCAA"%string 3%nat 5%nat
    (simple_scoring 5 (-4) (-3) (-1)).
  assert (Hgp : gap_penalties (simple_scoring 5 (-4) (-3) (-1)))
    by (apply simple_gap_penalties; lia).
  assert (Hsize : Z.of_nat 3 + Z.of_nat 5 <= 2 ^ 32) by (vm_compute; discriminate).
  assert (Hna : ~ In gap_char (bytes "ACA")) by no_dash.
  assert (Hnb : ~ In gap_char (bytes "ACCAA")) by no_dash.
  eexists. eexists. eexists. split; [exact Hal|]. split; [exact Hfe|].
  split; [reflexivity|]. split; [reflexivity|]. split; [reflexivity|].
  pose proof Hfe as H.
  eapply alignment_score_preserved in H;
    [| exact Hp | exact Hgp | exact Hsize | exact Hres | exact Hna | exact Hnb].
  exact (proj2 H).
Defined.

Lemma alignment_round_trip_witness :
  exists sw sw' res',
    smith_waterman_align2 AsGlossed (bytes "ACA") (bytes "ACCAA") 3 5
      (simple_scoring 5 (-4) (-3) (-1))
      (smith_waterman_new (simple_scoring 5 (-4) (-3) (-1))) = Done sw /\
    smith_waterman_fetch 20 AsGlossed sw alignment_create = Done (true, sw', res') /\
    row_a res' = bytes "A-CA" /\ row_b res' = bytes "ACCA" /\
    strip_gaps (row_a res') = substring (bytes "ACA") (pos_a res') (len_a res') /\
    strip_gaps (row_b res') = substring (bytes "ACCAA") (pos_b res') (len_b res').
Proof.
  first_fetch AsGlossed "ACA"%string "ACCAA"%string 3%nat 5%nat
    (simple_scoring 5 (-4) (-3) (-1)).
  assert (Hgp : gap_penalties (simple_scoring 5 (-4) (-3) (-1)))
    by (apply simple_gap_penalties; lia).
  assert (Hsize : Z.of_nat 3 + Z.of_nat 5 <= 2 ^ 32) by (vm_compute; discriminate).
  assert (Hna : ~ In gap_char (bytes "ACA")) by no_dash.
  assert (Hnb : ~ In gap_char (bytes "ACCAA")) by no_dash.
  eexists. eexists. eexists. split; [exact Hal|]. split; [exact Hfe|].
  split; [reflexivity|]. split; [reflexivity|].
  pose proof Hfe as H.
  eapply alignment_round_trip in H;
    [| exact Hp | exact Hgp | exact Hsize | exact Hres | exact Hna | exact Hnb].
  split; [exact (proj1 H) | exact (proj1 (proj2 H))].
Defined.

Lemma alignment_bookends_witness :
  exists sw sw' res',
    smith_waterman_align2 AsGlossed (bytes "ACA") (bytes "ACCAA") 3 5
      (simple_scoring 5 (-4) (-3) (-1))
      (smith_waterman_new (simple_scoring 5 (-4) (-3) (-1))) = Done sw /\
    smith_waterman_fetch 20 AsGlossed sw alignment_create = Done (true, sw', res') /\
    row_a res' = bytes "A-CA" /\ row_b res' = bytes "ACCA" /\
    (1 <= length res')%nat /\ (1 <= len_a res')%nat /\ (1 <= len_b res')%nat.
Proof.
  first_fetch AsGlossed "ACA"%string "ACCAA"%string 3%nat 5%nat
    (simple_scoring 5 (-4) (-3) (-1)).
  assert (Hgp : gap_penalties (simple_scoring 5 (-4) (-3) (-1)))
    by (apply simple_gap_penalties; lia).
  assert (Hsize : Z.of_nat 3 + Z.of_nat 5 <= 2 ^ 32) by (vm_compute; discriminate).
  eexists. eexists. eexists. split; [exact Hal|]. split; [exact Hfe|].
  split; [reflexivity|]. split; [reflexivity|].
  pose proof Hfe as H.
  eapply alignment_bookends in H;
    [| exact Hp | exact Hgp | exact Hsize | exact Hres].
  destruct H as (H1 & H2 & H3 & _). auto.
Defined.

(** Under the index form of the gap recurrences the same input shows why
    the round trip needs the other reading: row A comes out as "AACA" for
    three bytes of A. *)
Lemma indexed_reading_breaks_round_trip :
  exists sw sw' res',
    smith_waterman_align2 AsIndexed (bytes "ACA") (bytes "ACCAA") 3 5
      (simple_scoring 5 (-4) (-3) (-1))
      (smith_waterman_new (simple_scoring 5 (-4) (-3) (-1))) = Done sw /\
    smith_waterman_fetch 20 AsIndexed sw alignment_create = Done (true, sw', res') /\
    row_a res' = bytes "AACA" /\ row_b res' = bytes "A-CA" /\
    substring (bytes "ACA") (pos_a res') (len_a res') = bytes "ACA".
Proof.
  first_fetch AsIndexed "ACA"%string "ACCAA"%string 3%nat 5%nat
    (simple_scoring 5 (-4) (-3) (-1)).
  eexists. eexists. eexists. split; [exact Hal|]. split; [exact Hfe|].
  repeat split; reflexivity.
Qed.

(** ** Scenarios of the specification (section 8), run on the model *)

(** S1: identical sequences. *)
Example scenario_identity :
  enumerate AsGlossed "ACGT" "ACGT" (simple_scoring 2 (-2) (-2) (-1)) 1
  = Some [(bytes "ACGT", bytes "ACGT", 8, (0%nat, 4%nat), (0%nat, 4%nat))].
Proof. vm_compute. reflexivity. Qed.

(** S2: B inside A; the second fetch finds nothing. *)
Example scenario_substring :
  enumerate AsGlossed "XXACGTXX" "ACGT" (simple_scoring 2 (-2) (-2) (-1)) 2
  = Some [(bytes "ACGT", bytes "ACGT", 8, (2%nat, 4%nat), (0%nat, 4%nat))].
Proof. vm_compute. reflexivity. Qed.

(** S4: case folding. *)
Example scenario_case_insensitive :
  enumerate AsGlossed "acgt" "ACGT"
    {| sc_match := 2; sc_mismatch := -2; gap_open := -2; gap_extend := -1;
       case_sensitive := false; use_match_mismatch := true;
       substitution_table := fun _ _ => None; wildcards := fun _ => false;
       no_start_gap_penalty := false; no_end_gap_penalty := false;
       no_gaps_in_a := false; no_gaps_in_b := false |} 1
  = Some [(bytes "acgt", bytes "ACGT", 8, (0%nat, 4%nat), (0%nat, 4%nat))].
Proof. vm_compute. reflexivity. Qed.

(** S5: the wildcard N matches at the match score; the rows keep the
    original symbols. *)
Example scenario_wildcard :
  enumerate AsGlossed "ANGT" "ACGT"
    {| sc_match := 2; sc_mismatch := -2; gap_open := -2; gap_extend := -1;
       case_sensitive := true; use_match_mismatch := true;
       substitution_table := fun _ _ => None;
       wildcards := fun c => Byte.eqb c "N"%byte;
       no_start_gap_penalty := false; no_end_gap_penalty := false;
       no_gaps_in_a := false; no_gaps_in_b := false |} 1
  = Some [(bytes "ANGT", bytes "ACGT", 8, (0%nat, 4%nat), (0%nat, 4%nat))].
Proof. vm_compute. reflexivity. Qed.

(** S6: two hits of equal score, the one at the smaller x first; the third
    fetch finds nothing. *)
Example scenario_two_hits :
  enumerate AsGlossed "ACGTACGT" "ACGT" (simple_scoring 2 (-2) (-2) (-1)) 3
  = Some [(bytes "ACGT", bytes "ACGT", 8, (0%nat, 4%nat), (0%nat, 4%nat));
          (bytes "ACGT", bytes "ACGT", 8, (4%nat, 4%nat), (0%nat, 4%nat))].
Proof. vm_compute. reflexivity. Qed.

(** * Further properties of the enumerator

    Properties of [smith_waterman.c] beyond the claims above, read off the
    code. *)

(** ** The comparator [sort_match_indices] *)

Lemma to_int_wrap z : 2 ^ 31 <= z < 2 ^ 32 -> to_int z = z - 2 ^ 32.
Proof.
  intros H. unfold to_int.
  replace (z + 2 ^ 31) with ((z - 2 ^ 31) + 1 * 2 ^ 32) by lia.
  rewrite Z.mod_add by lia. rewrite Z.mod_small by lia. lia.
Qed.

(** X1.  For a score width of at most 2^31, [sort_match_indices] is a
    consistent three-way comparison: swapping the arguments flips the sign; it
    returns 0 exactly for two positions of equal score in the same column; it
    is negative exactly when the first position scores more, or scores the
    same and lies in a column further left; and "not after" is transitive. *)
Theorem sort_match_indices_consistent tmp p q r :
  0 < ms_score_width tmp <= 2 ^ 31 ->
  let cmp := sort_match_indices tmp in
  let col (pos : nat) := Z.of_nat pos mod ms_score_width tmp in
  let sco (pos : nat) := nth pos (ms_match_scores tmp) 0 in
  Z.sgn (cmp p q) = - Z.sgn (cmp q p) /\
  (cmp p q = 0 <-> sco p = sco q /\ col p = col q) /\
  (cmp p q < 0 <-> sco q < sco p \/ (sco q = sco p /\ col p < col q)) /\
  (cmp p q <= 0 -> cmp q r <= 0 -> cmp p r <= 0).
Proof.
  intros Hw. cbv zeta. unfold sort_match_indices.
  set (w := ms_score_width tmp) in *.
  set (ms := ms_match_scores tmp).
  pose proof (Z.mod_pos_bound (Z.of_nat p) w ltac:(lia)) as Hp.
  pose proof (Z.mod_pos_bound (Z.of_nat q) w ltac:(lia)) as Hq.
  pose proof (Z.mod_pos_bound (Z.of_nat r) w ltac:(lia)) as Hr.
  assert (Epq : to_int (Z.of_nat p mod w - Z.of_nat q mod w)
                = Z.of_nat p mod w - Z.of_nat q mod w) by (apply to_int_small; lia).
  assert (Eqp : to_int (Z.of_nat q mod w - Z.of_nat p mod w)
                = Z.of_nat q mod w - Z.of_nat p mod w) by (apply to_int_small; lia).
  assert (Eqr : to_int (Z.of_nat q mod w - Z.of_nat r mod w)
                = Z.of_nat q mod w - Z.of_nat r mod w) by (apply to_int_small; lia).
  assert (Epr : to_int (Z.of_nat p mod w - Z.of_nat r mod w)
                = Z.of_nat p mod w - Z.of_nat r mod w) by (apply to_int_small; lia).
  rewrite Epq, Eqp, Eqr, Epr.
  repeat match goal with
         | |- context [?x =? 0] => destruct (Z.eqb_spec x 0)
         | |- context [?x >? 0] => destruct (Z.gtb_spec x 0)
         end; repeat split; intros; try lia.
Qed.

Lemma sort_match_indices_consistent_witness :
  let tmp := {| ms_match_scores := [0; 3; 0; 3]; ms_score_width := 2 |} in
  sort_match_indices tmp 1 3 = 0 /\ sort_match_indices tmp 1 2 < 0.
Proof.
  cbv zeta.
  pose proof (@sort_match_indices_consistent
                {| ms_match_scores := [0; 3; 0; 3]; ms_score_width := 2 |}
                1%nat 3%nat 2%nat) as H.
  cbv zeta in H.
  destruct H as (_ & H0 & _); [simpl; lia|].
  pose proof (@sort_match_indices_consistent
                {| ms_match_scores := [0; 3; 0; 3]; ms_score_width := 2 |}
                1%nat 2%nat 2%nat) as H.
  cbv zeta in H.
  destruct H as (_ & _ & H1 & _); [simpl; lia|].
  split.
  - apply H0. split; reflexivity.
  - apply H1. left. simpl. lia.
Defined.

(** X2.  The tie-break is returned through [int].  When two positions of
    equal score lie 2^31 or more columns apart, the difference of the columns
    does not fit: the comparator puts the position further RIGHT first, and,
    when they are more than 2^31 apart, it does so whichever way it is
    asked. *)
Theorem sort_match_indices_wraps tmp p q :
  let w := ms_score_width tmp in
  0 < w <= 2 ^ 32 ->
  nth p (ms_match_scores tmp) 0 = nth q (ms_match_scores tmp) 0 ->
  2 ^ 31 <= Z.of_nat p mod w - Z.of_nat q mod w ->
  sort_match_indices tmp p q < 0 /\
  (2 ^ 31 < Z.of_nat p mod w - Z.of_nat q mod w -> 0 < sort_match_indices tmp q p).
Proof.
  cbv zeta. intros Hw Hs Hd. unfold sort_match_indices.
  set (w := ms_score_width tmp) in *.
  pose proof (Z.mod_pos_bound (Z.of_nat p) w ltac:(lia)) as Hp.
  pose proof (Z.mod_pos_bound (Z.of_nat q) w ltac:(lia)) as Hq.
  rewrite Hs, Z.sub_diag. simpl (0 =? 0). cbv iota.
  split.
  - rewrite to_int_wrap by lia. lia.
  - intros Hd'. unfold to_int.
    replace (Z.of_nat q mod w - Z.of_nat p mod w + 2 ^ 31)
      with ((Z.of_nat q mod w - Z.of_nat p mod w + 2 ^ 31 + 2 ^ 32) + (-1) * 2 ^ 32) by lia.
    rewrite Z.mod_add by lia. rewrite Z.mod_small by lia. lia.
Qed.

Lemma sort_match_indices_wraps_witness :
  let tmp := {| ms_match_scores := repeat 0 (Z.to_nat (2 ^ 31 + 1));
                ms_score_width := 2 ^ 31 + 1 |} in
  sort_match_indices tmp (Z.to_nat (2 ^ 31)) 0 < 0.
Proof.
  cbv zeta.
  refine (proj1 (@sort_match_indices_wraps
            {| ms_match_scores := repeat 0 (Z.to_nat (2 ^ 31 + 1));
               ms_score_width := 2 ^ 31 + 1 |} (Z.to_nat (2 ^ 31)) 0%nat _ _ _)).
  - cbn [ms_score_width]. lia.
  - cbn [ms_match_scores]. rewrite !nth_repeat. reflexivity.
  - cbn [ms_score_width]. rewrite Z2Nat.id by lia.
    rewrite (Z.mod_small (2 ^ 31)) by lia. change (Z.of_nat 0) with 0.
    rewrite Z.mod_0_l by lia. lia.
Defined.

(** ** The allocations of a session *)

Lemma fetch_next_le rd : forall fuel sw res found sw' res',
  smith_waterman_fetch fuel rd sw res = Done (found, sw', res') ->
  (next_hit (history sw) <= num_of_hits (history sw))%nat ->
  (next_hit (history sw') <= num_of_hits (history sw'))%nat.
Proof.
  induction fuel as [|fuel IH]; intros sw res found sw' res' H Hle;
    [discriminate|].
  simpl in H.
  destruct (Nat.ltb_spec (next_hit (history sw)) (num_of_hits (history sw)))
    as [Hlt|Hge].
  2:{ inversion H; subst. exact Hle. }
  inv_bind H. rename v into pos. inv_bind H. destruct v.
  - inv_bind H. destruct v as [[f sw2] res2].
    from Hm1 by follow_keeps get ((_ & _ & Hn & _) & Hx & _).
    simpl in Hx, Hn.
    destruct f.
    + inversion H; subst. lia.
    + eapply IH; [exact H|]. lia.
  - eapply IH; [exact H|]. simpl. lia.
Qed.

Lemma collect_hits_length ms n : (List.length (collect_hits ms n) <= n)%nat.
Proof.
  rewrite collect_hits_filter.
  etransitivity; [apply filter_length_le|]. rewrite length_seq. lia.
Qed.

Lemma ensure_history_min hist n :
  (256 <= hits_capacity hist)%nat ->
  (hits_capacity hist <= hits_capacity (_ensure_history_capacity hist n))%nat /\
  (n <= hits_capacity (_ensure_history_capacity hist n))%nat.
Proof.
  intros H. unfold _ensure_history_capacity.
  destruct (Nat.ltb_spec (hits_capacity hist) n); simpl.
  - pose proof (ROUNDUP2POW_ge n). lia.
  - lia.
Qed.

(** X3.  Whatever sequence of [smith_waterman_align2] and
    [smith_waterman_fetch] calls a new session has been through, its
    allocations hold what the code stores: the bitmap has [hits_capacity]
    bits, the capacity is at least 256 and at least the number of cells of
    the current matrices, the number of hits is at most the number of cells,
    the cursor is at most the number of hits, and every hit is the index of a
    cell. *)
Theorem session_within_capacity rd sw :
  reachable rd sw -> within_capacity sw.
Proof.
  induction 1 as [sc | a b la lb sc sw sw' Hr IH Hal
                  | fuel sw res found sw' res' Hr IH Hfe].
  - cbv [within_capacity smith_waterman_new aligner history _init_history
           aligner_empty match_scores_mask hits_capacity num_of_hits next_hit
           sorted_match_indices score_width score_height bit_array_create].
    rewrite repeat_length. repeat split; try lia. constructor.
  - destruct IH as (Hlen & H256 & _).
    from Hal by align_facts get (Ha & Hs & Hn & Hx & Hm & Hc).
    from Hal by align_session_ok get ((_ & _ & Hin & _) & Hok & _); [|exact Hlen].
    pose proof (@ensure_history_min (history sw)
                  (score_width (aligner sw') * score_height (aligner sw'))%nat H256)
      as (Hmono & Hge).
    unfold within_capacity. cbv zeta.
    rewrite Hn, Hx, Hc.
    split; [rewrite <- Hc; exact Hok|].
    split; [lia|]. split; [exact Hge|].
    split; [apply collect_hits_length|]. split; [lia|]. exact Hin.
  - from Hfe by fetch_keeps get (((Ha & Hs & Hn & Hc) & (Hl & _) & _) & _).
    from Hfe by fetch_next_le get Hle; [|apply IH].
    destruct IH as (Hlen & H256 & Hcap & Hnum & _ & Hin).
    unfold within_capacity. cbv zeta. rewrite Ha, Hs, Hn, Hc.
    repeat split; try assumption; lia.
Qed.

Lemma session_within_capacity_witness :
  exists sw sw' res',
    smith_waterman_align2 AsGlossed (bytes "ACAC") (bytes "AC") 4 2
      (simple_scoring 2 (-2) (-2) (-1))
      (smith_waterman_new (simple_scoring 2 (-2) (-2) (-1))) = Done sw /\
    smith_waterman_fetch 20 AsGlossed sw alignment_create = Done (true, sw', res') /\
    within_capacity sw'.
Proof.
  assert (Hal : smith_waterman_align2 AsGlossed (bytes "ACAC") (bytes "AC") 4 2
                  (simple_scoring 2 (-2) (-2) (-1))
                  (smith_waterman_new (simple_scoring 2 (-2) (-2) (-1))) = Done _)
    by (vm_compute; reflexivity).
  match type of Hal with
  | _ = Done ?s =>
      assert (Hfe : smith_waterman_fetch 20 AsGlossed s alignment_create
                    = Done (true, _, _))
        by (vm_compute; reflexivity)
  end.
  eexists. eexists. eexists.
  split; [exact Hal|]. split; [exact Hfe|].
  apply (@session_within_capacity AsGlossed).
  eapply reach_fetch; [|exact Hfe].
  eapply reach_align; [|exact Hal].
  apply reach_new.
Defined.

(** ** Empty input and the first fetch *)

Lemma collect_hits_none ms n :
  (forall pos, (pos < n)%nat -> nth pos ms 0 <= 0) -> collect_hits ms n = [].
Proof.
  intros H. rewrite collect_hits_filter.
  destruct (filter (fun pos => nth pos ms 0 >? 0) (seq 0 n)) as [|p l] eqn:E;
    [reflexivity|].
  assert (Hin : In p (filter (fun pos => nth pos ms 0 >? 0) (seq 0 n)))
    by (rewrite E; left; reflexivity).
  apply filter_In in Hin. destruct Hin as (Hs & Hp).
  apply in_seq in Hs. specialize (H p ltac:(lia)).
  destruct (Z.gtb_spec (nth p ms 0) 0); [lia | discriminate].
Qed.

Lemma all_pairs_scored_empty sc a b la lb :
  la = 0%nat \/ lb = 0%nat -> all_pairs_scored sc a b la lb = true.
Proof.
  intros [-> | ->]; unfold all_pairs_scored; simpl; [|reflexivity].
  induction (seq 1 lb); simpl; auto.
Qed.

(** X4.  An empty sequence is no error: with [len_a = 0] or [len_b = 0],
    [smith_waterman_align2] returns with no hit at all, and every
    [smith_waterman_fetch] that follows returns 0 at once, leaving the session
    and the result as they are. *)
Theorem align2_empty_input rd a b la lb sc sw0 :
  la = 0%nat \/ lb = 0%nat ->
  exists sw,
    smith_waterman_align2 rd a b la lb sc sw0 = Done sw /\
    num_of_hits (history sw) = 0%nat /\
    sorted_match_indices (history sw) = [] /\
    forall fuel res, (0 < fuel)%nat ->
      smith_waterman_fetch fuel rd sw res = Done (false, sw, res).
Proof.
  intros He.
  unfold smith_waterman_align2, aligner_align.
  rewrite (all_pairs_scored_empty sc a b He).
  cbn [bind score_width score_height match_scores].
  assert (Hnone : collect_hits
            (tabulate (S la * S lb)
               (fun pos => cM (dp rd sc a b (ARR_2D_X pos (S la)) (ARR_2D_Y pos (S la)))))
            (S la * S lb) = []).
  { apply collect_hits_none. intros pos Hpos.
    erewrite nth_error_nth; [|apply nth_error_tabulate; exact Hpos].
    unfold ARR_2D_X, ARR_2D_Y. destruct He as [-> | ->].
    - rewrite Nat.mod_1_r, dp_border_x. simpl. lia.
    - rewrite Nat.div_small by lia. rewrite dp_border_y. simpl. lia. }
  rewrite Hnone.
  eexists. split; [reflexivity|]. cbn [history num_of_hits sorted_match_indices].
  split; [reflexivity|]. split; [reflexivity|].
  intros fuel res Hf. destruct fuel as [|fuel]; [lia|]. reflexivity.
Qed.

Lemma align2_empty_input_witness :
  exists sw,
    smith_waterman_align2 AsGlossed (bytes "") (bytes "ACGT") 0 4
      (simple_scoring 2 (-2) (-2) (-1))
      (smith_waterman_new (simple_scoring 2 (-2) (-2) (-1))) = Done sw /\
    smith_waterman_fetch 1 AsGlossed sw alignment_create
      = Done (false, sw, alignment_create).
Proof.
  destruct (@align2_empty_input AsGlossed (bytes "") (bytes "ACGT") 0 4
              (simple_scoring 2 (-2) (-2) (-1))
              (smith_waterman_new (simple_scoring 2 (-2) (-2) (-1)))
              (or_introl eq_refl)) as (sw & Hal & _ & _ & Hfe).
  exists sw. split; [exact Hal|]. apply Hfe. lia.
Defined.

(** The first fetch after an alignment cannot fail while there is a hit. *)
Lemma first_fetch_found rd fuel sw res found sw1 res1 :
  session_ok rd sw -> next_hit (history sw) = 0%nat ->
  Forall (fun bit => bit = true) (match_scores_mask (history sw)) ->
  smith_waterman_fetch fuel rd sw res = Done (found, sw1, res1) ->
  (0 < num_of_hits (history sw))%nat -> found = true.
Proof.
  intros Hok Hnx Hall H Hnum.
  destruct fuel as [|fuel]; [discriminate|]. simpl in H.
  destruct (Nat.ltb_spec (next_hit (history sw)) (num_of_hits (history sw)));
    [|lia].
  inv_bind H. rename v into pos. inv_bind H. rewrite Hnx in Hm.
  assert (Hset : forall p, (p < List.length (match_scores_mask (history sw)))%nat ->
                           is_set (match_scores_mask (history sw)) p).
  { intros p Hp. unfold is_set.
    destruct (nth_error (match_scores_mask (history sw)) p) as [bit|] eqn:E.
    - rewrite Forall_forall in Hall. rewrite (Hall bit); [reflexivity|].
      eapply nth_error_In; eauto.
    - apply nth_error_None in E. lia. }
  pose proof Hok as (Hf & Hl & Hh & Hn).
  assert (Hpos : (pos < score_width (aligner sw) * score_height (aligner sw))%nat).
  { rewrite Forall_forall in Hh. apply Hh. eapply nth_error_In; eauto. }
  destruct v.
  2:{ exfalso. unfold bit_array_get_bit in Hm0. rewrite Hset in Hm0 by lia.
      discriminate. }
  inv_bind H. destruct v as [[f sw2] res2].
  assert (f = true).
  { destruct f; [reflexivity|]. exfalso.
    from Hm1 by follow_inv get (v & mask' & Hv & _ & [(_ & _ & Hp)|(E & _)]);
      [|discriminate].
    simpl in Hp, Hv.
    pose proof (hit_cursor_on_plane Hf Hpos Hv) as Hon.
    eapply (probe_no_abort Hf); [exact Hon | | exact Hp | reflexivity].
    intros x y Hx Hy. apply Hset. destruct Hon as (Hx' & Hy' & _).
    pose proof (@ARR_2D_INDEX_lt (score_width (aligner sw))
                  (score_height (aligner sw)) x y). lia. }
  subst f. inversion H; subst; reflexivity.
Qed.

(** The first fetch after an alignment, when it returns: it returns 1
    exactly when some cell of the match matrix is positive. *)
Lemma first_fetch_positive rd a b la lb sc sw0 sw fuel res found sw' res' :
  hist_ok (history sw0) ->
  smith_waterman_align2 rd a b la lb sc sw0 = Done sw ->
  smith_waterman_fetch fuel rd sw res = Done (found, sw', res') ->
  (found = true <->
   exists pos v, nth_error (match_scores (aligner sw)) pos = Some v /\ 0 < v).
Proof.
  intros Hh Hal Hfe.
  from Hal by align_session_ok get (Hok & _ & _); [|exact Hh].
  from Hal by align_facts get (_ & Hs & Hn & Hx & Hm & _).
  pose proof Hok as ((_ & _ & _ & Hlen) & _).
  split.
  - intros ->.
    from Hfe by fetch_keeps get (_ & _ & Hlt & _).
    specialize (Hlt eq_refl).
    destruct (collect_hits (match_scores (aligner sw))
                (score_width (aligner sw) * score_height (aligner sw)))
      as [|pos l] eqn:E.
    { from Hfe by fetch_next_le get Hle; [|lia].
      from Hfe by fetch_keeps get (((_ & _ & Hn' & _) & _) & _).
      rewrite Hn' , Hn in Hle. simpl in Hle. lia. }
    assert (Hin : In pos (collect_hits (match_scores (aligner sw))
                (score_width (aligner sw) * score_height (aligner sw))))
      by (rewrite E; left; reflexivity).
    apply collect_hits_In in Hin. destruct Hin as (Hp & Hv).
    exists pos, (nth pos (match_scores (aligner sw)) 0). split; [|exact Hv].
    apply nth_error_nth'. lia.
  - intros (pos & v & Hv & Hpos).
    eapply first_fetch_found; [exact Hok | exact Hx | | exact Hfe |].
    + rewrite Hm. apply set_all_true.
    + assert (Hin : In pos (collect_hits (match_scores (aligner sw))
                (score_width (aligner sw) * score_height (aligner sw)))).
      { apply collect_hits_In. split.
        - rewrite <- Hlen. apply nth_error_Some. congruence.
        - rewrite (nth_error_nth _ _ 0 Hv). exact Hpos. }
      rewrite Hn.
      destruct (collect_hits (match_scores (aligner sw))
                (score_width (aligner sw) * score_height (aligner sw)));
        [destruct Hin | simpl; lia].
Qed.

(** X5.  The first [smith_waterman_fetch] after [smith_waterman_align2],
    with a result record that owns its buffers and fuel beyond the number of
    hits plus the matrix sides, returns, and returns 1 exactly when some cell
    of the match matrix is positive: the best hit is never lost, and nothing
    is reported when no pair of the sequences scores. *)
Theorem first_fetch_finds rd a b la lb sc sw0 sw fuel res :
  hist_ok (history sw0) ->
  smith_waterman_align2 rd a b la lb sc sw0 = Done sw ->
  result_ok res ->
  (num_of_hits (history sw) + S la + S lb < fuel)%nat ->
  exists found sw' res',
    smith_waterman_fetch fuel rd sw res = Done (found, sw', res') /\
    (found = true <->
     exists pos v, nth_error (match_scores (aligner sw)) pos = Some v /\ 0 < v).
Proof.
  intros Hh Hal Hres Hfu.
  from Hal by align_session_ok get (Hok & _ & Ha); [|exact Hh].
  from Ha by aligner_align_filled get (_ & Hw & Hhe & _).
  destruct (@fetch_done rd fuel sw res Hok Hres) as (found & sw' & res' & Hfe);
    [rewrite Hw, Hhe; lia|].
  exists found, sw', res'. split; [exact Hfe|].
  eapply first_fetch_positive; eassumption.
Qed.

Lemma first_fetch_finds_witness :
  exists sw found sw' res',
    smith_waterman_align2 AsGlossed (bytes "ACAC") (bytes "AC") 4 2
      (simple_scoring 2 (-2) (-2) (-1))
      (smith_waterman_new (simple_scoring 2 (-2) (-2) (-1))) = Done sw /\
    smith_waterman_fetch 20 AsGlossed sw alignment_create = Done (found, sw', res') /\
    (found = true <->
     exists pos v, nth_error (match_scores (aligner sw)) pos = Some v /\ 0 < v).
Proof.
  assert (Hal : smith_waterman_align2 AsGlossed (bytes "ACAC") (bytes "AC") 4 2
                  (simple_scoring 2 (-2) (-2) (-1))
                  (smith_waterman_new (simple_scoring 2 (-2) (-2) (-1))) = Done _)
    by (vm_compute; reflexivity).
  destruct (@first_fetch_finds AsGlossed _ _ _ _ _
              (smith_waterman_new (simple_scoring 2 (-2) (-2) (-1)))
              _ 20%nat alignment_create eq_refl Hal (conj eq_refl eq_refl))
    as (found & sw' & res' & Hfe & Hiff).
  - vm_compute. lia.
  - eexists. exists found, sw', res'.
    split; [exact Hal|]. split; [exact Hfe | exact Hiff].
Defined.

(** ** How many alignments, and what is left when they run out *)

(** X6.  A run of fetches returns at most as many alignments as there are
    hits left in the list, and at most one per call. *)
Theorem fetch_count_bounded rd : forall n fuel sw res als sw' res',
  fetch_many n fuel rd sw res = Done (als, sw', res') ->
  (List.length als <= num_of_hits (history sw) - next_hit (history sw))%nat /\
  (List.length als <= n)%nat.
Proof.
  induction n as [|n IH]; intros fuel sw res als sw' res' H.
  - simpl in H. inversion H; subst. simpl. lia.
  - destruct (Nat.le_gt_cases (num_of_hits (history sw)) (next_hit (history sw)))
      as [Hex|Hlt].
    { apply fetch_many_exhausted in H; [|exact Hex]. subst als. simpl. lia. }
    simpl in H. inv_bind H. destruct v as [[found sw1] res1]. inv_bind H.
    destruct v as [[rest sw2] res2]. inversion H; subst; clear H.
    from Hm by fetch_next_le get Hle; [|lia].
    from Hm by fetch_keeps get (((_ & _ & Hn & _) & _ & Hnx) & _ & Hlt' & _).
    from Hm0 by IH get (Hrest & Hrn).
    rewrite Hn in *.
    destruct found; simpl.
    + specialize (Hlt' eq_refl). lia.
    + lia.
Qed.

Lemma fetch_count_bounded_witness :
  exists sw als sw' res',
    smith_waterman_align2 AsGlossed (bytes "ACAC") (bytes "AC") 4 2
      (simple_scoring 2 (-2) (-2) (-1))
      (smith_waterman_new (simple_scoring 2 (-2) (-2) (-1))) = Done sw /\
    fetch_many 5 20 AsGlossed sw alignment_create = Done (als, sw', res') /\
    num_of_hits (history sw) = 4%nat /\
    List.length als = 2%nat /\
    (List.length als <= num_of_hits (history sw) - next_hit (history sw))%nat.
Proof.
  assert (Hal : smith_waterman_align2 AsGlossed (bytes "ACAC") (bytes "AC") 4 2
                  (simple_scoring 2 (-2) (-2) (-1))
                  (smith_waterman_new (simple_scoring 2 (-2) (-2) (-1))) = Done _)
    by (vm_compute; reflexivity).
  match type of Hal with
  | _ = Done ?s =>
      assert (Hfm : fetch_many 5 20 AsGlossed s alignment_create
                    = Done ([_; _], _, _))
        by (vm_compute; reflexivity)
  end.
  eexists. eexists. eexists. eexists.
  split; [exact Hal|]. split; [exact Hfm|].
  split; [reflexivity|]. split; [reflexivity|].
  exact (proj1 (@fetch_count_bounded AsGlossed _ _ _ _ _ _ _ Hfm)).
Defined.

(** A fetch leaves clear the bit of every hit it moved the cursor past. *)
Lemma fetch_consumes rd : forall fuel sw res found sw' res',
  smith_waterman_fetch fuel rd sw res = Done (found, sw', res') ->
  forall j pos,
    (next_hit (history sw) <= j < next_hit (history sw'))%nat ->
    nth_error (sorted_match_indices (history sw)) j = Some pos ->
    is_clear (match_scores_mask (history sw')) pos.
Proof.
  induction fuel as [|fuel IH]; intros sw res found sw' res' H j pos Hj Hp;
    [discriminate|].
  simpl in H.
  destruct (Nat.ltb_spec (next_hit (history sw)) (num_of_hits (history sw)))
    as [Hlt|Hge].
  2:{ inversion H; subst. lia. }
  inv_bind H. rename v into p0. inv_bind H. destruct v.
  - inv_bind H. destruct v as [[f sw2] res2].
    from Hm1 by follow_keeps get ((_ & Hs & _) & Hx & Hle & _).
    simpl in Hx, Hs, Hle.
    assert (Hc0 : is_clear (match_scores_mask (history sw2)) p0).
    { from Hm1 by follow_inv get (v & mask' & Hv & -> & Hcase).
      assert (Hpr : exists r, probe fuel rd (aligner (advance sw))
                      (match_scores_mask (history (advance sw)))
                      (hit_cursor (aligner (advance sw)) p0 v) 0 = Done (mask', r)).
      { destruct Hcase as [(_ & _ & Hpr)|(_ & len & c & ra & rb & ra' & rb' & Hpr & _)];
          eauto. }
      destruct Hpr as (r & Hpr).
      pose proof (probe_visits_clear _ _ _ _ _ _ Hpr) as Hcl.
      destruct fuel as [|fuel']; [discriminate|].
      simpl in Hcl. inversion Hcl; subst. assumption. }
    assert (Hfin : found = true /\ sw' = sw2 \/
                   f = false /\ smith_waterman_fetch fuel rd sw2 res2
                                = Done (found, sw', res')).
    { destruct f; [left; inversion H; subst; auto | right; auto]. }
    destruct Hfin as [(-> & ->)|(-> & Hrec)].
    + assert (j = next_hit (history sw)) by lia. subst j.
      assert (pos = p0) by congruence. subst pos. exact Hc0.
    + from Hrec by fetch_keeps get ((_ & Hle' & _) & _).
      destruct (Nat.eq_dec j (next_hit (history sw))) as [->|Hne].
      * assert (pos = p0) by congruence. subst pos.
        eapply mask_le_clear; eassumption.
      * eapply IH; [exact Hrec | | rewrite Hs; exact Hp]. lia.
  - destruct (Nat.eq_dec j (next_hit (history sw))) as [->|Hne].
    + assert (pos = p0) by congruence. subst pos.
      from H by fetch_keeps get ((_ & Hle' & _) & _).
      eapply mask_le_clear; [exact Hle'|]. simpl. exact Hm0.
    + eapply IH; [exact H | | exact Hp]. simpl. lia.
Qed.

(** On a primed session the hits before the cursor are consumed. *)
Lemma primed_consumed rd a b la lb sc sw :
  primed rd a b la lb sc sw ->
  forall j pos, (j < next_hit (history sw))%nat ->
    nth_error (sorted_match_indices (history sw)) j = Some pos ->
    is_clear (match_scores_mask (history sw)) pos.
Proof.
  induction 1 as [sw0 sw Hh Hal | sw fuel res found sw' res' Hp IH Hfe];
    intros j pos Hj Hn.
  - from Hal by align_facts get (_ & _ & _ & Hx & _). lia.
  - from Hfe by fetch_keeps get (((_ & Hs & _) & Hle & _) & _).
    rewrite Hs in Hn.
    destruct (Nat.lt_ge_cases j (next_hit (history sw))) as [Hlt|Hge].
    + eapply mask_le_clear; [exact Hle|]. eapply IH; eassumption.
    + eapply fetch_consumes; [exact Hfe | | exact Hn]. lia.
Qed.

(** The hit list of a primed session holds every positive cell. *)
Lemma primed_hits_all rd a b la lb sc sw :
  primed rd a b la lb sc sw ->
  forall pos v, nth_error (match_scores (aligner sw)) pos = Some v -> 0 < v ->
    In pos (sorted_match_indices (history sw)).
Proof.
  induction 1 as [sw0 sw Hh Hal | sw fuel res found sw' res' Hp IH Hfe];
    intros pos v Hv Hpos.
  - from Hal by align_facts get (Ha & Hs & _).
    from Ha by aligner_align_filled get ((_ & _ & _ & Hlen) & _).
    rewrite Hs. eapply Permutation_in; [symmetry; apply sort_r_perm|].
    apply collect_hits_In. split.
    + rewrite <- Hlen. apply nth_error_Some. congruence.
    + rewrite (nth_error_nth _ _ 0 Hv). exact Hpos.
  - from Hfe by fetch_keeps get (((Ha & Hs & _) & _) & _).
    rewrite Hs. rewrite Ha in Hv. eapply IH; eassumption.
Qed.

(** X7.  When [smith_waterman_fetch] returns 0, nothing is left over: every
    cell of the match matrix with a positive score has its bit clear, either
    as part of an alignment that was returned or of a traceback that was
    given up. *)
Theorem exhausted_all_consumed rd a b la lb sc sw fuel res sw' res' :
  primed rd a b la lb sc sw ->
  smith_waterman_fetch fuel rd sw res = Done (false, sw', res') ->
  forall pos v,
    nth_error (match_scores (aligner sw')) pos = Some v -> 0 < v ->
    is_clear (match_scores_mask (history sw')) pos.
Proof.
  intros Hp Hfe pos v Hv Hpos.
  assert (Hp' : primed rd a b la lb sc sw') by (eapply primed_fetch; eassumption).
  from Hfe by fetch_keeps get (_ & Hex & _). destruct (Hex eq_refl) as (Hge & _).
  from Hp' by primed_ok get ((_ & _ & _ & Hn) & _).
  pose proof (primed_hits_all Hp' _ Hv Hpos) as Hin.
  apply In_nth_error in Hin. destruct Hin as (j & Hj).
  eapply primed_consumed; [exact Hp' | | exact Hj].
  assert ((j < List.length (sorted_match_indices (history sw')))%nat)
    by (apply nth_error_Some; congruence).
  lia.
Qed.

Lemma exhausted_all_consumed_witness :
  exists sw sw1 res1 sw2 res2,
    smith_waterman_align2 AsGlossed (bytes "ACAC") (bytes "AC") 4 2
      (simple_scoring 2 (-2) (-2) (-1))
      (smith_waterman_new (simple_scoring 2 (-2) (-2) (-1))) = Done sw /\
    fetch_many 2 20 AsGlossed sw alignment_create = Done ([res1; res2], sw1, res2) /\
    smith_waterman_fetch 20 AsGlossed sw1 res2 = Done (false, sw2, res2) /\
    nth_error (match_scores (aligner sw2)) 12 = Some 4 /\
    is_clear (match_scores_mask (history sw2)) 12.
Proof.
  assert (Hal : smith_waterman_align2 AsGlossed (bytes "ACAC") (bytes "AC") 4 2
                  (simple_scoring 2 (-2) (-2) (-1))
                  (smith_waterman_new (simple_scoring 2 (-2) (-2) (-1))) = Done _)
    by (vm_compute; reflexivity).
  match type of Hal with
  | _ = Done ?s =>
      assert (Hf1 : smith_waterman_fetch 20 AsGlossed s alignment_create
                    = Done (true, _, _))
        by (vm_compute; reflexivity)
  end.
  match type of Hf1 with
  | _ = Done (_, ?s, ?r) =>
      assert (Hf2 : smith_waterman_fetch 20 AsGlossed s r = Done (true, _, _))
        by (vm_compute; reflexivity)
  end.
  match type of Hf2 with
  | _ = Done (_, ?s, ?r) =>
      assert (Hf3 : smith_waterman_fetch 20 AsGlossed s r = Done (false, _, _))
        by (vm_compute; reflexivity)
  end.
  eexists. eexists. eexists. eexists. eexists.
  split; [exact Hal|]. split; [vm_compute; reflexivity|].
  split; [exact Hf3|]. split; [reflexivity|].
  eapply (@exhausted_all_consumed AsGlossed); [| exact Hf3 | reflexivity | lia].
  eapply primed_fetch; [|exact Hf2].
  eapply primed_fetch; [|exact Hf1].
  eapply primed_align; [|exact Hal]. reflexivity.
Defined.

(** ** What the calls leave alone *)

Lemma set_all_eq (b1 b2 : BIT_ARRAY) :
  List.length b1 = List.length b2 -> bit_array_set_all b1 = bit_array_set_all b2.
Proof.
  revert b2. induction b1 as [|x b1 IH]; intros [|y b2] H; simpl in *;
    try discriminate; [reflexivity|].
  f_equal. apply IH. lia.
Qed.

(** X8.  [smith_waterman_fetch] reads the matrices and the hit list and
    never writes them: after the call the session has the same aligner, the
    same hits, the same capacity and a bitmap of the same size; no bit that
    was clear is set again; the cursor has not moved back, and has moved
    forward when an alignment was returned. *)
Theorem fetch_frame rd fuel sw res found sw' res' :
  smith_waterman_fetch fuel rd sw res = Done (found, sw', res') ->
  aligner sw' = aligner sw /\
  sorted_match_indices (history sw') = sorted_match_indices (history sw) /\
  num_of_hits (history sw') = num_of_hits (history sw) /\
  hits_capacity (history sw') = hits_capacity (history sw) /\
  List.length (match_scores_mask (history sw'))
    = List.length (match_scores_mask (history sw)) /\
  (forall pos, is_clear (match_scores_mask (history sw)) pos ->
               is_clear (match_scores_mask (history sw')) pos) /\
  (next_hit (history sw) <= next_hit (history sw'))%nat /\
  (found = true -> (next_hit (history sw) < next_hit (history sw'))%nat).
Proof.
  intros H.
  from H by fetch_keeps get (((Ha & Hs & Hn & Hc) & Hle & Hx) & _ & Hlt & _).
  repeat split; try assumption.
  - apply Hle.
  - intros pos Hcl. eapply mask_le_clear; eassumption.
Qed.

Lemma fetch_frame_witness :
  exists sw sw' res',
    smith_waterman_align2 AsGlossed (bytes "ACAC") (bytes "AC") 4 2
      (simple_scoring 2 (-2) (-2) (-1))
      (smith_waterman_new (simple_scoring 2 (-2) (-2) (-1))) = Done sw /\
    smith_waterman_fetch 20 AsGlossed sw alignment_create = Done (true, sw', res') /\
    aligner sw' = aligner sw /\
    (next_hit (history sw) < next_hit (history sw'))%nat.
Proof.
  assert (Hal : smith_waterman_align2 AsGlossed (bytes "ACAC") (bytes "AC") 4 2
                  (simple_scoring 2 (-2) (-2) (-1))
                  (smith_waterman_new (simple_scoring 2 (-2) (-2) (-1))) = Done _)
    by (vm_compute; reflexivity).
  match type of Hal with
  | _ = Done ?s =>
      assert (Hfe : smith_waterman_fetch 20 AsGlossed s alignment_create
                    = Done (true, _, _))
        by (vm_compute; reflexivity)
  end.
  eexists. eexists. eexists.
  split; [exact Hal|]. split; [exact Hfe|].
  pose proof (@fetch_frame AsGlossed _ _ _ _ _ _ Hfe) as (Ha & _ & _ & _ & _ & _ & _ & Hlt).
  split; [exact Ha | exact (Hlt eq_refl)].
Defined.

(** X9.  Aligning the same input again rewinds the enumeration: on a
    session that has been fetched from any number of times,
    [smith_waterman_align2] with the arguments of the last alignment gives
    back exactly the session that alignment produced (all bits set, cursor at
    the first hit), without growing any allocation. *)
Theorem realign_rewinds rd a b la lb sc sw0 sw n fuel res als sw' res' :
  hist_ok (history sw0) ->
  smith_waterman_align2 rd a b la lb sc sw0 = Done sw ->
  fetch_many n fuel rd sw res = Done (als, sw', res') ->
  smith_waterman_align2 rd a b la lb sc sw' = Done sw.
Proof.
  intros Hh Hal Hfm.
  from Hal by align_session_ok get (Hok & Hh1 & _); [|exact Hh].
  from Hfm by fetch_many_inv get (((_ & _ & _ & Hc) & (Hlen & _) & _) & _);
    [|exact Hok].
  from Hal by align_facts get (Ha & Hs & Hn & Hx & Hm & Hc0).
  pose proof Hok as (_ & Hcap & _).
  unfold hist_ok in Hh1.
  unfold smith_waterman_align2. rewrite Ha. cbn [bind].
  assert (He : _ensure_history_capacity (history sw')
                 (score_width (aligner sw) * score_height (aligner sw))
               = history sw').
  { unfold _ensure_history_capacity.
    destruct (Nat.ltb_spec (hits_capacity (history sw'))
                (score_width (aligner sw) * score_height (aligner sw)));
      [lia | reflexivity]. }
  rewrite He.
  assert (Hmask : bit_array_set_all (match_scores_mask (history sw'))
                  = match_scores_mask (history sw)).
  { rewrite Hm. apply set_all_eq. rewrite Hlen, Hm, set_all_length. reflexivity. }
  rewrite Hmask, <- Hs, <- Hn, Hc.
  destruct sw as [al hist]. destruct hist. simpl in *. subst. reflexivity.
Qed.

Lemma realign_rewinds_witness :
  exists sw als sw' res',
    smith_waterman_align2 AsGlossed (bytes "ACAC") (bytes "AC") 4 2
      (simple_scoring 2 (-2) (-2) (-1))
      (smith_waterman_new (simple_scoring 2 (-2) (-2) (-1))) = Done sw /\
    fetch_many 2 20 AsGlossed sw alignment_create = Done (als, sw', res') /\
    sw' <> sw /\
    smith_waterman_align2 AsGlossed (bytes "ACAC") (bytes "AC") 4 2
      (simple_scoring 2 (-2) (-2) (-1)) sw' = Done sw.
Proof.
  assert (Hal : smith_waterman_align2 AsGlossed (bytes "ACAC") (bytes "AC") 4 2
                  (simple_scoring 2 (-2) (-2) (-1))
                  (smith_waterman_new (simple_scoring 2 (-2) (-2) (-1))) = Done _)
    by (vm_compute; reflexivity).
  match type of Hal with
  | _ = Done ?s =>
      assert (Hfm : fetch_many 2 20 AsGlossed s alignment_create
                    = Done (_, _, _))
        by (vm_compute; reflexivity)
  end.
  eexists. eexists. eexists. eexists.
  split; [exact Hal|]. split; [exact Hfm|]. split.
  - intros E. apply (f_equal (fun s => next_hit (history s))) in E.
    vm_compute in E. discriminate.
  - exact (@realign_rewinds AsGlossed _ _ _ _ _
             (smith_waterman_new (simple_scoring 2 (-2) (-2) (-1)))
             _ _ _ _ _ _ _ eq_refl Hal Hfm).
Defined.

(** ** The shape of a returned alignment *)

Lemma step_back_one rd m x y x' y' :
  step_back rd m x y = Some (x', y') -> (x <= S x' /\ y <= S y')%nat.
Proof.
  unfold step_back.
  destruct m, rd, x as [|x0], y as [|y0]; simpl; intros H;
    inversion H; subst; lia.
Qed.

(** A traceback of [n] steps moves back by at most [n] on each axis and by
    at least [n] on the two together. *)
Lemma path_span rd al : filled rd al ->
  forall cs c, path rd al c cs -> on_plane rd al c ->
  let l := last cs c in
  let n := (List.length cs - 1)%nat in
  (score_x l <= score_x c /\ score_y l <= score_y c /\
   score_x c - score_x l <= n /\ score_y c - score_y l <= n /\
   n <= (score_x c - score_x l) + (score_y c - score_y l))%nat.
Proof.
  intros Hf. induction 1 as [c Hz | c c' cs Hnz Hst Hp IH]; intros Hon.
  - simpl. lia.
  - destruct (step_filled Hf Hon Hnz) as (c2 & Hst2 & Hon' & Hsb & _).
    assert (c2 = c') by congruence. subst c2.
    specialize (IH Hon'). cbv zeta in IH.
    pose proof (path_nonempty Hp) as Hne.
    pose proof (step_back_less _ _ _ _ Hsb) as Hless.
    pose proof (step_back_one _ _ _ _ Hsb) as Hone.
    cbv zeta. rewrite (last_cons_nonempty c c c' Hne).
    destruct cs as [|c0 cs0]; [congruence|].
    cbn [List.length] in *. lia.
Qed.

(** Every byte of a column is a gap or a byte of the aligned part of its
    sequence. *)
Lemma path_columns_from rd al (Pa Pb : symbol -> Prop) :
  filled rd al -> Pa gap_char -> Pb gap_char ->
  (forall i ca, (S i < score_width al)%nat ->
     nth_error (seq_a al) i = Some ca -> Pa ca) ->
  (forall i cb, (S i < score_height al)%nat ->
     nth_error (seq_b al) i = Some cb -> Pb cb) ->
  forall cs c, path rd al c cs -> on_plane rd al c ->
  Forall (fun col => Pa (fst col) /\ Pb (snd col)) (path_columns al cs).
Proof.
  intros Hf Hga Hgb Ha Hb.
  induction 1 as [c Hz | c c' cs Hnz Hst Hp IH]; intros Hon.
  - constructor.
  - destruct (step_filled Hf Hon Hnz) as (c2 & Hst2 & Hon' & _).
    assert (c2 = c') by congruence. subst c2.
    pose proof (path_nonempty Hp) as Hne.
    unfold path_columns. rewrite (removelast_cons c Hne). cbn [map].
    constructor; [|apply IH; exact Hon'].
    destruct (@on_plane_interior rd al c Hf Hon)
      as (x & y & ca & cb & Ex & Ey & Hca & Hcb); [intros _; assumption|].
    destruct Hon as (Hx & Hy & _).
    assert (Pa ca) by (eapply Ha; [|exact Hca]; lia).
    assert (Pb cb) by (eapply Hb; [|exact Hcb]; lia).
    destruct (curr_matrix c) eqn:Em.
    + rewrite (column_match al c Em Ex Ey Hca Hcb). split; assumption.
    + rewrite (column_gap_a al c Em Ey Hcb). split; assumption.
    + rewrite (column_gap_b al c Em Ex Hca). split; assumption.
Qed.

(** What holds of every alignment one fetch returns holds of all those a
    run of fetches returns. *)
Lemma fetch_many_each rd a b la lb sc (P : alignment_t -> Prop) :
  (forall sw fuel res sw' res',
     primed rd a b la lb sc sw -> result_ok res ->
     smith_waterman_fetch fuel rd sw res = Done (true, sw', res') -> P res') ->
  forall n fuel sw res als sw' res',
    primed rd a b la lb sc sw -> result_ok res ->
    fetch_many n fuel rd sw res = Done (als, sw', res') -> Forall P als.
Proof.
  intros HP. induction n as [|n IH]; intros fuel sw res als sw' res' Hp Hr H;
    simpl in H.
  - inversion H; subst. constructor.
  - inv_bind H. destruct v as [[found sw1] res1]. inv_bind H.
    destruct v as [[rest sw2] res2]. inversion H; subst; clear H.
    from Hm by fetch_keeps get (_ & _ & _ & _ & Hr1). specialize (Hr1 Hr).
    assert (Hp1 : primed rd a b la lb sc sw1) by (eapply primed_fetch; eassumption).
    specialize (IH _ _ _ _ _ _ Hp1 Hr1 Hm0).
    destruct found; [constructor; [exact (HP _ _ _ _ _ Hp Hr Hm) | exact IH] | exact IH].
Qed.

Lemma alignment_create_ok : result_ok alignment_create.
Proof. split; reflexivity. Qed.

(** X10.  Every alignment returned has a positive score, lies inside the two
    sequences, and is at least as long as the longer of its two ranges and at
    most as long as the two together. *)
Theorem alignment_length_bounds rd a b la lb sc sw fuel res sw' res' :
  primed rd a b la lb sc sw -> gap_penalties sc ->
  Z.of_nat la + Z.of_nat lb <= 2 ^ 32 ->
  result_ok res ->
  smith_waterman_fetch fuel rd sw res = Done (true, sw', res') ->
  0 < score res' /\
  (pos_a res' + len_a res' <= la)%nat /\ (pos_b res' + len_b res' <= lb)%nat /\
  (Nat.max (len_a res') (len_b res') <= length res')%nat /\
  (length res' <= len_a res' + len_b res')%nat.
Proof.
  intros Hp Hg Hsz Hr Hfe.
  from Hfe by fetch_true_exact get (fuel0 & sw0 & pos & cs & _ & Hin & Hsc & _ & _ & Htr);
    try eassumption.
  from Hp by primed_ok get ((Hf & _ & Hall & _) & _).
  from Hp by primed_aligner get (Hw & Hh & _).
  rewrite Forall_forall in Hall. specialize (Hall _ Hin).
  destruct Htr as (Hv & Hpath & Hlen & _ & _ & _ & _ & _ & _ & Hpa & Hpb & Hla & Hlb & _).
  pose proof (hit_cursor_on_plane Hf Hall Hv) as Hon.
  pose proof (path_span Hf Hpath Hon) as Hspan. cbv zeta in Hspan.
  destruct Hon as (Hx & Hy & _).
  rewrite Hw in Hx. rewrite Hh in Hy.
  rewrite Hpa, Hpb, Hla, Hlb, Hlen.
  split; [exact Hsc|]. lia.
Qed.

Lemma alignment_length_bounds_witness :
  exists sw sw' res',
    smith_waterman_align2 AsGlossed (bytes "ACA") (bytes "ACCAA") 3 5
      (simple_scoring 5 (-4) (-3) (-1))
      (smith_waterman_new (simple_scoring 5 (-4) (-3) (-1))) = Done sw /\
    smith_waterman_fetch 20 AsGlossed sw alignment_create = Done (true, sw', res') /\
    (len_a res' = 3 /\ len_b res' = 4 /\ length res' = 4)%nat /\
    (Nat.max (len_a res') (len_b res') <= length res')%nat /\
    (length res' <= len_a res' + len_b res')%nat.
Proof.
  first_fetch AsGlossed "ACA"%string "ACCAA"%string 3%nat 5%nat
    (simple_scoring 5 (-4) (-3) (-1)).
  assert (Hgp : gap_penalties (simple_scoring 5 (-4) (-3) (-1)))
    by (apply simple_gap_penalties; lia).
  assert (Hsize : Z.of_nat 3 + Z.of_nat 5 <= 2 ^ 32) by (vm_compute; discriminate).
  eexists. eexists. eexists. split; [exact Hal|]. split; [exact Hfe|].
  split; [repeat split; reflexivity|].
  pose proof Hfe as H.
  eapply alignment_length_bounds in H;
    [| exact Hp | exact Hgp | exact Hsize | exact Hres].
  exact (proj2 (proj2 (proj2 H))).
Defined.

(** ** Results as C strings *)

Lemma strlen_nonzero s : forall i c,
  (i < strlen s)%nat -> nth_error s i = Some c -> c <> x00.
Proof.
  induction s as [|c0 s IH]; intros i c Hi Hn; simpl in Hi; [lia|].
  destruct (Byte.eqb c0 x00) eqn:E; [lia|].
  destruct i as [|i]; simpl in Hn.
  - inversion Hn; subst. intros ->. vm_compute in E. discriminate.
  - eapply IH; [|exact Hn]. lia.
Qed.

Lemma strlen_exact l : forall k,
  Forall (fun c => c <> x00) (firstn k l) -> nth_error l k = Some x00 ->
  strlen l = k.
Proof.
  induction l as [|c l IH]; intros k Hall Hn.
  - destruct k; discriminate.
  - destruct k as [|k]; simpl in *.
    + inversion Hn; subst. reflexivity.
    + inversion Hall as [|? ? Hc Hrest]; subst.
      destruct (Byte.eqb c x00) eqn:E.
      * apply Byte.byte_dec_bl in E. contradiction.
      * f_equal. apply IH; assumption.
Qed.

(** X11.  After [smith_waterman_align], which takes the lengths with
    [strlen], the two rows of every alignment returned are C strings of
    exactly [length] bytes: the byte at [length] is NUL and no byte before it
    is. *)
Theorem results_are_c_strings rd a b sc sw0 sw n fuel res als sw' res' :
  hist_ok (history sw0) -> gap_penalties sc ->
  Z.of_nat (strlen a) + Z.of_nat (strlen b) <= 2 ^ 32 ->
  result_ok res ->
  smith_waterman_align rd a b sc sw0 = Done sw ->
  fetch_many n fuel rd sw res = Done (als, sw', res') ->
  Forall (fun r => strlen (result_a r) = length r /\
                   strlen (result_b r) = length r) als.
Proof.
  intros Hh Hg Hsz Hr Hal Hfm. unfold smith_waterman_align in Hal.
  eapply (@fetch_many_each rd a b (strlen a) (strlen b) sc);
    [| eapply primed_align; eassumption | exact Hr | exact Hfm].
  clear - Hg Hsz. intros sw fuel res sw' res' Hp Hr Hfe.
  from Hfe by fetch_true_exact get (fuel0 & sw1 & pos & cs & _ & Hin & _ & _ & _ & Htr);
    try eassumption.
  from Hp by primed_ok get ((Hf & _ & Hall & _) & _).
  from Hp by primed_aligner get (Hw & Hh & Ha & Hb & _).
  rewrite Forall_forall in Hall. specialize (Hall _ Hin).
  destruct Htr as (Hv & Hpath & Hlen & Hra & Hrb & Hza & Hzb & _).
  cbv zeta in *.
  pose proof (hit_cursor_on_plane Hf Hall Hv) as Hon.
  assert (Hcols : Forall (fun col => fst col <> x00 /\ snd col <> x00)
                         (path_columns (aligner sw) cs)).
  { eapply (@path_columns_from rd (aligner sw)
              (fun c => c <> x00) (fun c => c <> x00));
      [exact Hf | discriminate | discriminate | | | exact Hpath | exact Hon].
    - intros i ca Hi Hn. rewrite Ha in Hn. rewrite Hw in Hi.
      eapply strlen_nonzero; [|exact Hn]. lia.
    - intros i cb Hi Hn. rewrite Hb in Hn. rewrite Hh in Hi.
      eapply strlen_nonzero; [|exact Hn]. lia. }
  rewrite Hlen.
  unfold symbol in *.
  split; apply strlen_exact; try assumption.
  - rewrite Hra. apply Forall_rev. apply Forall_map.
    eapply Forall_impl; [|exact Hcols]. intros col (H1 & _). exact H1.
  - rewrite Hrb. apply Forall_rev. apply Forall_map.
    eapply Forall_impl; [|exact Hcols]. intros col (_ & H2). exact H2.
Qed.

Lemma results_are_c_strings_witness :
  exists sw r1 r2 sw' res',
    smith_waterman_align AsGlossed (bytes "ACAC") (bytes "AC")
      (simple_scoring 2 (-2) (-2) (-1))
      (smith_waterman_new (simple_scoring 2 (-2) (-2) (-1))) = Done sw /\
    fetch_many 3 20 AsGlossed sw alignment_create = Done ([r1; r2], sw', res') /\
    (strlen (result_a r1) = 2 /\ length r1 = 2)%nat /\
    strlen (result_b r2) = length r2.
Proof.
  assert (Hal : smith_waterman_align AsGlossed (bytes "ACAC") (bytes "AC")
                  (simple_scoring 2 (-2) (-2) (-1))
                  (smith_waterman_new (simple_scoring 2 (-2) (-2) (-1))) = Done _)
    by (vm_compute; reflexivity).
  match type of Hal with
  | _ = Done ?s =>
      assert (Hfm : fetch_many 3 20 AsGlossed s alignment_create
                    = Done ([_; _], _, _))
        by (vm_compute; reflexivity)
  end.
  eexists. eexists. eexists. eexists. eexists.
  split; [exact Hal|]. split; [exact Hfm|].
  split; [split; reflexivity|].
  assert (Hgp : gap_penalties (simple_scoring 2 (-2) (-2) (-1)))
    by (apply simple_gap_penalties; lia).
  assert (Hsize : Z.of_nat (strlen (bytes "ACAC")) + Z.of_nat (strlen (bytes "AC"))
                  <= 2 ^ 32) by (vm_compute; discriminate).
  pose proof (@results_are_c_strings AsGlossed _ _ _
                (smith_waterman_new (simple_scoring 2 (-2) (-2) (-1)))
                _ _ _ _ _ _ _ eq_refl Hgp Hsize alignment_create_ok Hal Hfm) as H.
  inversion H as [|r l _ H2]. inversion H2 as [|r' l' (_ & Hb) _]. exact Hb.
Defined.

(** ** The session's past does not show *)

Lemma clear_bit_firstn ba : forall i n ba',
  bit_array_clear_bit ba i = Some ba' -> (i < n)%nat ->
  bit_array_clear_bit (firstn n ba) i = Some (firstn n ba').
Proof.
  induction ba as [|b ba IH]; intros i n ba' H Hi; simpl in H; [discriminate|].
  destruct n as [|n]; [lia|].
  destruct i as [|i].
  - inversion H; subst. reflexivity.
  - destruct (bit_array_clear_bit ba i) as [tl|] eqn:E; [|discriminate].
    inversion H; subst. simpl. rewrite (IH i n tl E) by lia. reflexivity.
Qed.

Lemma nth_error_firstn_lt {A : Type} (l : list A) : forall i n,
  (i < n)%nat -> nth_error (firstn n l) i = nth_error l i.
Proof.
  induction l as [|x l IH]; intros i n Hi.
  - rewrite firstn_nil. reflexivity.
  - destruct n as [|n]; [lia|]. destruct i as [|i]; [reflexivity|].
    simpl. apply IH. lia.
Qed.

(** Clearing the same cell keeps two bitmaps in agreement on the cells. *)
Lemma clear_bit_agree m1 m2 i n m1' :
  firstn n m2 = firstn n m1 -> (i < n)%nat ->
  bit_array_clear_bit m1 i = Some m1' ->
  exists m2', bit_array_clear_bit m2 i = Some m2' /\ firstn n m2' = firstn n m1'.
Proof.
  intros Hag Hi H1.
  assert (Hlt : (i < List.length m2)%nat).
  { apply nth_error_Some. rewrite <- (nth_error_firstn_lt m2 Hi), Hag,
      (nth_error_firstn_lt m1 Hi).
    pose proof (clear_bit_length _ _ H1) as Hl.
    intros E. apply nth_error_None in E.
    pose proof (clear_bit_same _ _ H1) as Hs.
    assert ((i < List.length m1')%nat) by (apply nth_error_Some; congruence).
    lia. }
  destruct (clear_bit_defined m2 Hlt) as (m2' & H2).
  exists m2'. split; [exact H2|].
  pose proof H1 as F1. eapply clear_bit_firstn in F1; [|exact Hi].
  pose proof H2 as F2. eapply clear_bit_firstn in F2; [|exact Hi].
  rewrite Hag in F2. congruence.
Qed.

Lemma probe_agree rd al : filled rd al ->
  forall fuel m1 m2 c len m1' r,
    on_plane rd al c ->
    firstn (score_width al * score_height al) m2
      = firstn (score_width al * score_height al) m1 ->
    probe fuel rd al m1 c len = Done (m1', r) ->
    exists m2', probe fuel rd al m2 c len = Done (m2', r) /\
      firstn (score_width al * score_height al) m2'
        = firstn (score_width al * score_height al) m1'.
Proof.
  intros Hf. induction fuel as [|fuel IH]; intros m1 m2 c len m1' r Hon Hag H;
    [discriminate|].
  assert (Hi : (arr_index c < score_width al * score_height al)%nat).
  { destruct Hon as (Hx & Hy & -> & _). apply ARR_2D_INDEX_lt; assumption. }
  simpl in H |- *. inv_bind H. rename v into bit.
  unfold bit_array_get_bit in *.
  assert (Hb2 : nth_error m2 (arr_index c) = Some bit).
  { rewrite <- (nth_error_firstn_lt m2 Hi), Hag, (nth_error_firstn_lt m1 Hi).
    exact Hm. }
  rewrite Hb2. cbn [lift bind].
  destruct bit; cbn [negb] in *.
  2:{ inversion H; subst. eexists. split; [reflexivity | exact Hag]. }
  inv_bind H. rename v into m1a.
  destruct (@clear_bit_agree m1 m2 _ _ _ Hag Hi Hm0) as (m2a & Hc2 & Hag').
  rewrite Hc2. cbn [lift bind].
  destruct (curr_score c =? 0) eqn:Ez.
  { inversion H; subst. eexists. split; [reflexivity | exact Hag']. }
  inv_bind H. rename v into c'. rewrite Hm1. cbn [lift bind].
  apply Z.eqb_neq in Ez.
  destruct (step_filled Hf Hon Ez) as (c2 & Hst & Hon' & _).
  assert (c2 = c') by congruence. subst c2.
  eapply IH; eassumption.
Qed.

Lemma follow_agree rd fuel s t pos res f s' res' :
  session_ok rd s -> same_view s t ->
  (pos < score_width (aligner s) * score_height (aligner s))%nat ->
  _follow_hit fuel rd s pos res = Done (f, s', res') ->
  exists t', _follow_hit fuel rd t pos res = Done (f, t', res') /\ same_view s' t'.
Proof.
  intros (Hf & _) (Ha & Hs & Hn & Hx & Hag) Hpos H.
  from H by follow_inv get (v & mask1 & Hv & -> & Hcase).
  pose proof (hit_cursor_on_plane Hf Hpos Hv) as Hon.
  assert (Hview : forall mask2,
             firstn (score_width (aligner s) * score_height (aligner s)) mask2
             = firstn (score_width (aligner s) * score_height (aligner s)) mask1 ->
             same_view (set_mask s mask1) (set_mask t mask2)).
  { intros mask2 Hag2. unfold same_view. simpl. repeat split; assumption. }
  unfold _follow_hit. rewrite Ha, Hv. cbn [lift bind].
  destruct Hcase as [(-> & -> & Hp)|(-> & len & c & ra & rb & ra' & rb' & Hp & He & Hsa & Hsb & ->)];
    cbv zeta in *;
    (from Hp by probe_agree get (mask2 & Hp2 & Hag2);
       [| exact Hf | exact Hon | exact Hag]);
    rewrite Hp2; cbn [bind].
  - eexists. split; [reflexivity | apply Hview; exact Hag2].
  - rewrite He. cbn [bind]. rewrite Hsa, Hsb. cbn [lift bind].
    eexists. split; [reflexivity | apply Hview; exact Hag2].
Qed.

Lemma same_view_advance s t : same_view s t -> same_view (advance s) (advance t).
Proof.
  intros (Ha & Hs & Hn & Hx & Hag). unfold same_view. simpl.
  repeat split; try assumption. rewrite Hx. reflexivity.
Qed.

Lemma fetch_agree rd : forall fuel s t res f s' res',
  session_ok rd s -> same_view s t ->
  smith_waterman_fetch fuel rd s res = Done (f, s', res') ->
  exists t', smith_waterman_fetch fuel rd t res = Done (f, t', res') /\
             same_view s' t'.
Proof.
  induction fuel as [|fuel IH]; intros s t res f s' res' Hok Hv H;
    [discriminate|].
  pose proof Hv as (Ha & Hs & Hn & Hx & Hag).
  pose proof Hok as (Hf & _ & Hall & _).
  simpl in H |- *. rewrite Hn, Hx, Hs.
  destruct (Nat.ltb_spec (next_hit (history s)) (num_of_hits (history s)))
    as [Hlt|Hge].
  2:{ inversion H; subst. eexists. split; [reflexivity | exact Hv]. }
  inv_bind H. rename v into pos. rewrite Hm. cbn [lift bind].
  assert (Hpos : (pos < score_width (aligner s) * score_height (aligner s))%nat).
  { rewrite Forall_forall in Hall. apply Hall. eapply nth_error_In; eauto. }
  inv_bind H. rename v into bit. unfold bit_array_get_bit in *.
  assert (Hb2 : nth_error (match_scores_mask (history t)) pos = Some bit).
  { rewrite <- (nth_error_firstn_lt (match_scores_mask (history t)) Hpos), Hag,
      (nth_error_firstn_lt (match_scores_mask (history s)) Hpos). exact Hm0. }
  rewrite Hb2. cbn [lift bind].
  pose proof (same_view_advance Hv) as Hv1.
  pose proof (session_ok_advance Hok) as Hok1.
  destruct bit.
  - inv_bind H. destruct v as [[f1 s2] res2].
    from Hm1 by follow_agree get (t2 & Hf2 & Hv2);
      [| exact Hok1 | exact Hv1 | exact Hpos].
    rewrite Hf2. cbn [bind].
    destruct f1.
    + inversion H; subst. eexists. split; [reflexivity | exact Hv2].
    + from Hm1 by follow_keeps get (_ & _ & _ & _ & Hok2 & _).
      eapply IH; [apply Hok2; exact Hok1 | exact Hv2 | exact H].
  - eapply IH; [exact Hok1 | exact Hv1 | exact H].
Qed.

Lemma fetch_many_agree rd : forall n fuel s t res als s' res',
  session_ok rd s -> same_view s t ->
  fetch_many n fuel rd s res = Done (als, s', res') ->
  exists t', fetch_many n fuel rd t res = Done (als, t', res') /\ same_view s' t'.
Proof.
  induction n as [|n IH]; intros fuel s t res als s' res' Hok Hv H; simpl in H |- *.
  - inversion H; subst. eexists. split; [reflexivity | exact Hv].
  - inv_bind H. destruct v as [[found s1] res1]. inv_bind H.
    destruct v as [[rest s2] res2]. inversion H; subst; clear H.
    from Hm by fetch_agree get (t1 & Hf1 & Hv1); [| exact Hok | exact Hv].
    from Hm by fetch_keeps get (_ & _ & _ & Hok1 & _).
    from Hm0 by IH get (t2 & Hf2 & Hv2); [| exact (Hok1 Hok) | exact Hv1].
    rewrite Hf1. cbn [bind]. rewrite Hf2. cbn [bind].
    eexists. split; [reflexivity | exact Hv2].
Qed.

(** X12.  What a session was used for before does not show: two sessions
    primed with the same arguments, whatever each had aligned or fetched
    before and however large its allocations had grown, return the same
    alignments in the same order, call by call, and leave the caller's result
    record the same. *)
Theorem enumeration_ignores_history rd a b la lb sc s0 t0 s t n fuel res als s' res' :
  hist_ok (history s0) -> hist_ok (history t0) ->
  smith_waterman_align2 rd a b la lb sc s0 = Done s ->
  smith_waterman_align2 rd a b la lb sc t0 = Done t ->
  fetch_many n fuel rd s res = Done (als, s', res') ->
  exists t', fetch_many n fuel rd t res = Done (als, t', res') /\
             aligner t' = aligner s' /\
             next_hit (history t') = next_hit (history s').
Proof.
  intros Hs0 Ht0 Hs Ht Hfm.
  from Hs by align_session_ok get (Hok & Hhs & Has); [|exact Hs0].
  from Ht by align_session_ok get (Hokt & Hht & Hat); [|exact Ht0].
  from Hs by align_facts get (_ & Hss & Hns & Hxs & Hms & _).
  from Ht by align_facts get (_ & Hst & Hnt & Hxt & Hmt & _).
  assert (Hal : aligner t = aligner s) by congruence.
  assert (Hv : same_view s t).
  { unfold same_view. cbv zeta. rewrite Hss, Hst, Hns, Hnt, Hxs, Hxt, Hal.
    repeat split.
    destruct Hok as (_ & Hcs & _). destruct Hokt as (_ & Hct & _).
    rewrite Hal in Hct.
    set (k := (score_width (aligner s) * score_height (aligner s))%nat) in *.
    apply nth_error_ext. intros i.
    destruct (Nat.lt_ge_cases i k) as [Hi|Hi].
    - rewrite !nth_error_firstn_lt by exact Hi.
      assert (A1 : Forall (fun bit => bit = true) (match_scores_mask (history s)))
        by (rewrite Hms; apply set_all_true).
      assert (A2 : Forall (fun bit => bit = true) (match_scores_mask (history t)))
        by (rewrite Hmt; apply set_all_true).
      rewrite Forall_forall in A1, A2.
      destruct (nth_error (match_scores_mask (history s)) i) as [b1|] eqn:E1;
        [|apply nth_error_None in E1; lia].
      destruct (nth_error (match_scores_mask (history t)) i) as [b2|] eqn:E2;
        [|apply nth_error_None in E2; lia].
      rewrite (A1 b1), (A2 b2); [reflexivity | |]; eapply nth_error_In; eauto.
    - transitivity (@None bool); [|symmetry];
        apply nth_error_None; rewrite length_firstn; lia. }
  from Hfm by fetch_many_agree get (t' & Hft & (Ha' & _ & _ & Hx' & _));
    [| exact Hok | exact Hv].
  exists t'. repeat split; assumption.
Qed.

Lemma enumeration_ignores_history_witness :
  let sc := simple_scoring 2 (-2) (-2) (-1) in
  exists u t0 r0 s t als s' res' t',
    smith_waterman_align2 AsGlossed (bytes "AC") (bytes "AC") 2 2 sc
      (smith_waterman_new sc) = Done u /\
    smith_waterman_fetch 20 AsGlossed u alignment_create = Done (true, t0, r0) /\
    smith_waterman_align2 AsGlossed (bytes "ACAC") (bytes "AC") 4 2 sc
      (smith_waterman_new sc) = Done s /\
    smith_waterman_align2 AsGlossed (bytes "ACAC") (bytes "AC") 4 2 sc t0 = Done t /\
    fetch_many 3 20 AsGlossed s alignment_create = Done (als, s', res') /\
    fetch_many 3 20 AsGlossed t alignment_create = Done (als, t', res').
Proof.
  cbv zeta.
  assert (Hu : smith_waterman_align2 AsGlossed (bytes "AC") (bytes "AC") 2 2
                 (simple_scoring 2 (-2) (-2) (-1))
                 (smith_waterman_new (simple_scoring 2 (-2) (-2) (-1))) = Done _)
    by (vm_compute; reflexivity).
  match type of Hu with
  | _ = Done ?u =>
      assert (Hf0 : smith_waterman_fetch 20 AsGlossed u alignment_create
                    = Done (true, _, _))
        by (vm_compute; reflexivity)
  end.
  assert (Hs : smith_waterman_align2 AsGlossed (bytes "ACAC") (bytes "AC") 4 2
                 (simple_scoring 2 (-2) (-2) (-1))
                 (smith_waterman_new (simple_scoring 2 (-2) (-2) (-1))) = Done _)
    by (vm_compute; reflexivity).
  match type of Hf0 with
  | _ = Done (_, ?t0, _) =>
      assert (Ht : smith_waterman_align2 AsGlossed (bytes "ACAC") (bytes "AC") 4 2
                     (simple_scoring 2 (-2) (-2) (-1)) t0 = Done _)
        by (vm_compute; reflexivity);
      assert (Hh : hist_ok (history t0)) by reflexivity
  end.
  match type of Hs with
  | _ = Done ?s =>
      assert (Hfm : fetch_many 3 20 AsGlossed s alignment_create = Done (_, _, _))
        by (vm_compute; reflexivity)
  end.
  destruct (@enumeration_ignores_history AsGlossed _ _ _ _ _
              (smith_waterman_new (simple_scoring 2 (-2) (-2) (-1)))
              _ _ _ _ _ _ _ _ _ eq_refl Hh Hs Ht Hfm) as (t' & Hft & _).
  do 9 eexists.
  split; [exact Hu|]. split; [exact Hf0|]. split; [exact Hs|].
  split; [exact Ht|]. split; [exact Hfm|]. exact Hft.
Defined.

(** ** Counting the cells an alignment uses up *)

(** The first loop clears one set bit per iteration. *)
Lemma probe_count rd al : forall fuel mask c len mask' n,
  probe fuel rd al mask c len = Done (mask', Some n) ->
  (len <= n)%nat /\
  count_set mask = (count_set mask' + (n - len) + 1)%nat /\
  List.length (probe_visits fuel rd al mask c) = (n - len + 1)%nat /\
  NoDup (probe_visits fuel rd al mask c).
Proof.
  induction fuel as [|fuel IH]; intros mask c len mask' n H; [discriminate|].
  from H by probe_success get (cs & _ & _ & _ & Hvis & Hset).
  rewrite <- Hvis in Hset.
  simpl in H, Hset |- *. inv_bind H. rename v into bit.
  unfold bit_array_get_bit in *. rewrite Hm in *.
  destruct bit; cbn [negb] in H; [|discriminate].
  inv_bind H. rename v into mask1. rewrite Hm0 in *.
  pose proof Hm0 as Hc. eapply clear_bit_count in Hc; [|exact Hm].
  destruct (curr_score c =? 0).
  { inversion H; subst. simpl. repeat split; try lia.
    constructor; [intros []| constructor]. }
  inv_bind H. rename v into c'. rewrite Hm1 in *.
  from H by IH get (Hle & Hcnt & Hlen & Hnd).
  split; [lia|]. split; [lia|]. split; [simpl; lia|].
  constructor; [|exact Hnd].
  intros Hin.
  from H by probe_success get (cs' & _ & _ & _ & Hvis' & Hset').
  rewrite <- Hvis' in Hset'. rewrite Forall_forall in Hset'.
  specialize (Hset' _ Hin). unfold is_set in Hset'.
  pose proof Hm0 as Hsame. apply clear_bit_same in Hsame. congruence.
Qed.

(** X13.  A successful [_follow_hit] uses up exactly [length + 1] cells: its
    first loop visits [length + 1] pairwise different cells, each with its bit
    set, and the call leaves the bitmap with that many set bits fewer. *)
Theorem follow_hit_accounting fuel rd sw pos res sw' res' :
  _follow_hit fuel rd sw pos res = Done (true, sw', res') ->
  let al := aligner sw in
  let visited := probe_visits fuel rd al (match_scores_mask (history sw))
                   (hit_cursor al pos (score res')) in
  List.length visited = (length res' + 1)%nat /\
  NoDup visited /\
  Forall (is_set (match_scores_mask (history sw))) visited /\
  Forall (is_clear (match_scores_mask (history sw'))) visited /\
  count_set (match_scores_mask (history sw))
    = (count_set (match_scores_mask (history sw')) + length res' + 1)%nat.
Proof.
  intros H. cbv zeta.
  from H by follow_inv get (v & mask' & Hv & -> & [(E & _)|(_ & len & c & ra & rb & ra' & rb' & Hp & _ & _ & _ & ->)]);
    [discriminate|].
  cbv zeta in Hp. cbn [score length set_mask history match_scores_mask].
  from Hp by probe_count get (_ & Hcnt & Hlen & Hnd).
  from Hp by probe_success get (cs & _ & _ & _ & Hvis & Hset).
  rewrite <- Hvis in Hset.
  from Hp by probe_visits_clear get Hcl.
  repeat split; try assumption; lia.
Qed.

Lemma follow_hit_accounting_witness :
  exists sw sw' res',
    smith_waterman_align2 AsGlossed (bytes "ACAC") (bytes "AC") 4 2
      (simple_scoring 2 (-2) (-2) (-1))
      (smith_waterman_new (simple_scoring 2 (-2) (-2) (-1))) = Done sw /\
    _follow_hit 20 AsGlossed sw 12 alignment_create = Done (true, sw', res') /\
    length res' = 2%nat /\
    count_set (match_scores_mask (history sw))
      = (count_set (match_scores_mask (history sw')) + 3)%nat.
Proof.
  assert (Hal : smith_waterman_align2 AsGlossed (bytes "ACAC") (bytes "AC") 4 2
                  (simple_scoring 2 (-2) (-2) (-1))
                  (smith_waterman_new (simple_scoring 2 (-2) (-2) (-1))) = Done _)
    by (vm_compute; reflexivity).
  match type of Hal with
  | _ = Done ?s =>
      assert (Hfo : _follow_hit 20 AsGlossed s 12 alignment_create
                    = Done (true, _, _))
        by (vm_compute; reflexivity)
  end.
  eexists. eexists. eexists.
  split; [exact Hal|]. split; [exact Hfo|]. split; [reflexivity|].
  pose proof (@follow_hit_accounting _ _ _ _ _ _ _ Hfo) as (_ & _ & _ & _ & H).
  exact H.
Defined.

Lemma probe_count_le rd al : forall fuel mask c len mask' r,
  probe fuel rd al mask c len = Done (mask', r) ->
  (count_set mask' <= count_set mask)%nat.
Proof.
  induction fuel as [|fuel IH]; intros mask c len mask' r H; [discriminate|].
  simpl in H. inv_bind H. rename v into bit. unfold bit_array_get_bit in Hm.
  destruct bit; cbn [negb] in H; [|inversion H; subst; lia].
  inv_bind H. rename v into mask1.
  pose proof Hm0 as Hc. eapply clear_bit_count in Hc; [|exact Hm].
  destruct (curr_score c =? 0); [inversion H; subst; lia|].
  inv_bind H. from H by IH get Hle. lia.
Qed.

(** The first loop only looks at the bits of the cells. *)
Lemma probe_prefix rd al : filled rd al ->
  forall fuel mask c len mask' r,
    on_plane rd al c ->
    probe fuel rd al mask c len = Done (mask', r) ->
    probe fuel rd al (firstn (score_width al * score_height al) mask) c len
      = Done (firstn (score_width al * score_height al) mask', r).
Proof.
  intros Hf fuel mask c len mask' r Hon H.
  set (n := (score_width al * score_height al)%nat).
  assert (Hag : firstn n (firstn n mask) = firstn n mask)
    by (rewrite firstn_firstn, Nat.min_id; reflexivity).
  from H by probe_agree get (m2 & Hp2 & Hag2); [| exact Hf | exact Hon | exact Hag].
  fold n in Hp2, Hag2. rewrite Hp2. f_equal. f_equal.
  from Hp2 by probe_le get (Hlen & _).
  rewrite <- Hag2. symmetry. apply firstn_all2.
  rewrite Hlen, length_firstn. lia.
Qed.

Lemma count_set_le ba : (count_set ba <= List.length ba)%nat.
Proof. unfold count_set. apply filter_length_le. Qed.

Lemma follow_cells_left rd fuel sw pos res found sw' res' :
  session_ok rd sw ->
  (pos < score_width (aligner sw) * score_height (aligner sw))%nat ->
  _follow_hit fuel rd sw pos res = Done (found, sw', res') ->
  (cells_left sw' + (if found then length res' + 1 else 0) <= cells_left sw)%nat.
Proof.
  intros (Hf & _) Hpos H.
  from H by follow_inv get (v & mask' & Hv & -> & Hcase).
  pose proof (hit_cursor_on_plane Hf Hpos Hv) as Hon.
  unfold cells_left. cbn [set_mask aligner history match_scores_mask].
  destruct Hcase as [(-> & _ & Hp)|(-> & len & c & ra & rb & ra' & rb' & Hp & _ & _ & _ & ->)];
    cbv zeta in Hp;
    (from Hp by probe_prefix get Hp'; [| exact Hf | exact Hon]).
  - from Hp' by probe_count_le get Hle. lia.
  - from Hp' by probe_count get (_ & Hcnt & _). cbn [length]. lia.
Qed.

Lemma fetch_cells_left rd : forall fuel sw res found sw' res',
  session_ok rd sw ->
  smith_waterman_fetch fuel rd sw res = Done (found, sw', res') ->
  (cells_left sw' + (if found then length res' + 1 else 0) <= cells_left sw)%nat.
Proof.
  induction fuel as [|fuel IH]; intros sw res found sw' res' Hok H;
    [discriminate|].
  pose proof Hok as (_ & _ & Hall & _).
  simpl in H.
  destruct (Nat.ltb_spec (next_hit (history sw)) (num_of_hits (history sw))).
  2:{ inversion H; subst. lia. }
  inv_bind H. rename v into pos. inv_bind H.
  assert (Hpos : (pos < score_width (aligner sw) * score_height (aligner sw))%nat).
  { rewrite Forall_forall in Hall. apply Hall. eapply nth_error_In; eauto. }
  pose proof (session_ok_advance Hok) as Hok1.
  assert (Hadv : cells_left (advance sw) = cells_left sw) by reflexivity.
  destruct v.
  - inv_bind H. destruct v as [[f sw2] res2].
    from Hm1 by follow_cells_left get Hfo; [| exact Hok1 | exact Hpos].
    from Hm1 by follow_keeps get (_ & _ & _ & _ & Hok2 & _).
    destruct f.
    + inversion H; subst. lia.
    + from H by IH get Hrec; [| apply Hok2; exact Hok1]. lia.
  - from H by IH get Hrec; [| exact Hok1]. lia.
Qed.

(** X14.  The alignments a run of fetches returns never use more cells
    than the matrices have: the sum of [length + 1] over all of them is at
    most [(len_a + 1) * (len_b + 1)]. *)
Theorem total_length_bounded rd a b la lb sc : forall n fuel sw res als sw' res',
  primed rd a b la lb sc sw ->
  fetch_many n fuel rd sw res = Done (als, sw', res') ->
  (list_sum (map (fun r => length r + 1) als) + cells_left sw' <= cells_left sw)%nat /\
  (list_sum (map (fun r => length r + 1) als) <= S la * S lb)%nat.
Proof.
  assert (Hmain : forall n fuel sw res als sw' res',
    session_ok rd sw ->
    fetch_many n fuel rd sw res = Done (als, sw', res') ->
    (list_sum (map (fun r => length r + 1) als) + cells_left sw' <= cells_left sw)%nat).
  { induction n as [|n IH]; intros fuel sw res als sw' res' Hok H; simpl in H.
    - inversion H; subst. simpl. lia.
    - inv_bind H. destruct v as [[found sw1] res1]. inv_bind H.
      destruct v as [[rest sw2] res2]. inversion H; subst; clear H.
      from Hm by fetch_cells_left get Hfe; [| exact Hok].
      from Hm by fetch_keeps get (_ & _ & _ & Hok1 & _).
      from Hm0 by IH get Hrec; [| apply Hok1; exact Hok].
      destruct found; simpl; lia. }
  intros n fuel sw res als sw' res' Hp H.
  from Hp by primed_ok get (Hok & _).
  from Hp by primed_aligner get (Hw & Hh & _).
  from H by Hmain get Hsum; [| exact Hok].
  split; [exact Hsum|].
  assert (Hle : (cells_left sw <= S la * S lb)%nat).
  { unfold cells_left. etransitivity; [apply count_set_le|].
    rewrite length_firstn, Hw, Hh. lia. }
  lia.
Qed.

Lemma total_length_bounded_witness :
  exists sw r1 r2 sw' res',
    smith_waterman_align2 AsGlossed (bytes "ACAC") (bytes "AC") 4 2
      (simple_scoring 2 (-2) (-2) (-1))
      (smith_waterman_new (simple_scoring 2 (-2) (-2) (-1))) = Done sw /\
    fetch_many 3 20 AsGlossed sw alignment_create = Done ([r1; r2], sw', res') /\
    (length r1 = 2 /\ length r2 = 2)%nat /\
    (list_sum (map (fun r => length r + 1) [r1; r2]) <= 5 * 3)%nat.
Proof.
  assert (Hal : smith_waterman_align2 AsGlossed (bytes "ACAC") (bytes "AC") 4 2
                  (simple_scoring 2 (-2) (-2) (-1))
                  (smith_waterman_new (simple_scoring 2 (-2) (-2) (-1))) = Done _)
    by (vm_compute; reflexivity).
  match type of Hal with
  | _ = Done ?s =>
      assert (Hfm : fetch_many 3 20 AsGlossed s alignment_create
                    = Done ([_; _], _, _))
        by (vm_compute; reflexivity);
      assert (Hp : primed AsGlossed (bytes "ACAC") (bytes "AC") 4 2
                     (simple_scoring 2 (-2) (-2) (-1)) s)
        by (eapply primed_align; [|exact Hal]; reflexivity)
  end.
  eexists. eexists. eexists. eexists. eexists.
  split; [exact Hal|]. split; [exact Hfm|]. split; [split; reflexivity|].
  exact (proj2 (@total_length_bounded AsGlossed _ _ _ _ _ _ _ _ _ _ _ _ Hp Hfm)).
Defined.

(** ** A hit whose traceback is free is returned *)

Lemma path_on_plane rd al : filled rd al ->
  forall cs c, path rd al c cs -> on_plane rd al c -> Forall (on_plane rd al) cs.
Proof.
  intros Hf. induction 1 as [c Hz | c c' cs Hnz Hst Hp IH]; intros Hon.
  - constructor; [exact Hon | constructor].
  - destruct (step_filled Hf Hon Hnz) as (c2 & Hst2 & Hon' & _).
    assert (c2 = c') by congruence. subst c2.
    constructor; [exact Hon | apply IH; exact Hon'].
Qed.

(** The first loop runs to the end of a traceback all of whose cells are
    set. *)
Lemma probe_available rd al : filled rd al ->
  forall cs c, path rd al c cs -> on_plane rd al c ->
  forall mask len fuel,
    Forall (is_set mask) (map arr_index cs) ->
    (List.length cs <= fuel)%nat ->
    exists mask', probe fuel rd al mask c len
                  = Done (mask', Some (len + List.length cs - 1)%nat).
Proof.
  intros Hf. induction 1 as [c Hz | c c' cs Hnz Hst Hp IH];
    intros Hon mask len fuel Hset Hfuel.
  - destruct fuel as [|fuel]; [simpl in Hfuel; lia|].
    inversion Hset as [|? ? Hc _]; subst. unfold is_set in Hc.
    assert (Hlt : (arr_index c < List.length mask)%nat)
      by (apply nth_error_Some; congruence).
    destruct (clear_bit_defined mask Hlt) as (mask1 & Hcl).
    simpl. unfold bit_array_get_bit. rewrite Hc. cbn [lift bind negb].
    rewrite Hcl. cbn [lift bind]. rewrite Hz. simpl.
    exists mask1. do 3 f_equal. lia.
  - destruct fuel as [|fuel]; [simpl in Hfuel; lia|].
    inversion Hset as [|? ? Hc Hrest]; subst. unfold is_set in Hc.
    assert (Hlt : (arr_index c < List.length mask)%nat)
      by (apply nth_error_Some; congruence).
    destruct (clear_bit_defined mask Hlt) as (mask1 & Hcl).
    destruct (step_filled Hf Hon Hnz) as (c2 & Hst2 & Hon' & Hsb & _).
    assert (c2 = c') by congruence. subst c2.
    pose proof (step_back_less _ _ _ _ Hsb) as Hless.
    pose proof (path_coords Hf Hp Hon') as Hco.
    pose proof (path_on_plane Hf Hp Hon') as Hpl.
    assert (Hset1 : Forall (is_set mask1) (map arr_index cs)).
    { rewrite Forall_map in Hrest |- *. rewrite Forall_forall in *.
      intros c0 Hin. unfold is_set.
      erewrite clear_bit_other; [apply Hrest; exact Hin | exact Hcl |].
      destruct (Hco _ Hin) as (Hx0 & Hy0).
      destruct (Hpl _ Hin) as (Hxw & _ & E0 & _).
      destruct Hon as (Hxw' & _ & E & _).
      rewrite E0, E. intros Heq.
      apply ARR_2D_INDEX_inj in Heq; [|assumption|assumption]. lia. }
    simpl in Hfuel.
    destruct (IH Hon' mask1 (S len) fuel Hset1 ltac:(lia)) as (mask' & Hpr).
    simpl. unfold bit_array_get_bit. rewrite Hc. cbn [lift bind negb].
    rewrite Hcl. cbn [lift bind].
    apply Z.eqb_neq in Hnz. rewrite Hnz. rewrite Hst. cbn [lift bind].
    rewrite Hpr. exists mask'. do 3 f_equal. simpl. lia.
Qed.

(** The first loop changes no bit but those of the cells it visits. *)
Lemma probe_frame rd al : forall fuel mask c len mask' r,
  probe fuel rd al mask c len = Done (mask', r) ->
  forall j, ~ In j (probe_visits fuel rd al mask c) ->
    nth_error mask' j = nth_error mask j.
Proof.
  induction fuel as [|fuel IH]; intros mask c len mask' r H j Hj; [discriminate|].
  simpl in H, Hj. inv_bind H. rename v into bit.
  unfold bit_array_get_bit in *. rewrite Hm in Hj.
  destruct bit; cbn [negb] in H; [|inversion H; subst; reflexivity].
  inv_bind H. rename v into mask1. rewrite Hm0 in Hj.
  assert (Hne : j <> arr_index c) by (intros ->; apply Hj; left; reflexivity).
  pose proof Hm0 as Ho. eapply clear_bit_other in Ho; [|exact Hne].
  destruct (curr_score c =? 0); [inversion H; subst; exact Ho|].
  inv_bind H. rename v into c'. rewrite Hm1 in Hj.
  rewrite <- Ho. eapply IH; [exact H|].
  intros Hin. apply Hj. right. exact Hin.
Qed.

(** When every cell on the traceback of the hit under the cursor is set, a
    fetch that returns has followed that hit to the end. *)
Lemma available_hit_found rd a b la lb sc sw pos fuel res found sw' res' :
  primed rd a b la lb sc sw ->
  nth_error (sorted_match_indices (history sw)) (next_hit (history sw)) = Some pos ->
  Forall (is_set (match_scores_mask (history sw)))
         (traceback_cells rd (aligner sw) pos) ->
  smith_waterman_fetch fuel rd sw res = Done (found, sw', res') ->
  found = true /\
  end_cell (aligner sw) res' = pos /\
  score res' = nth pos (match_scores (aligner sw)) 0 /\
  next_hit (history sw') = S (next_hit (history sw)) /\
  (forall j, ~ In j (traceback_cells rd (aligner sw) pos) ->
     nth_error (match_scores_mask (history sw')) j
     = nth_error (match_scores_mask (history sw)) j).
Proof.
  intros Hp Hnth Hfree H.
  from Hp by primed_ok get (Hok & _).
  pose proof Hok as (Hf & _ & Hall & Hnum).
  assert (Hpos : (pos < score_width (aligner sw) * score_height (aligner sw))%nat).
  { rewrite Forall_forall in Hall. apply Hall. eapply nth_error_In; eauto. }
  assert (Hlt : (next_hit (history sw) < num_of_hits (history sw))%nat).
  { rewrite Hnum. apply nth_error_Some. congruence. }
  destruct (nth_error (match_scores (aligner sw)) pos) as [v|] eqn:Hv.
  2:{ apply nth_error_None in Hv. destruct Hf as (_ & _ & _ & Hlen). lia. }
  pose proof (hit_cursor_on_plane Hf Hpos Hv) as Hon.
  destruct (@path_exists rd (aligner sw) Hf
              (S (score_x (hit_cursor (aligner sw) pos v)
                  + score_y (hit_cursor (aligner sw) pos v)))
              (hit_cursor (aligner sw) pos v) ltac:(lia) Hon)
    as (cs & Hpath & _ & _).
  pose proof (traceback_cells_path Hf Hpos Hv Hpath) as Htc.
  rewrite Htc in Hfree.
  destruct fuel as [|fuel]; [discriminate|]. simpl in H.
  destruct (Nat.ltb_spec (next_hit (history sw)) (num_of_hits (history sw)));
    [|lia].
  rewrite Hnth in H. cbn [lift bind] in H.
  assert (Hbit : bit_array_get_bit (match_scores_mask (history sw)) pos = Some true).
  { inversion Hpath; subst; simpl in Hfree; inversion Hfree; subst; assumption. }
  rewrite Hbit in H. cbn [lift bind] in H.
  inv_bind H. destruct v0 as [[f sw2] res2].
  assert (f = true).
  { destruct f; [reflexivity|]. exfalso.
    from Hm by follow_inv get (v' & mask' & Hv' & _ & [(_ & _ & Hpr)|(E & _)]);
      [|discriminate].
    simpl in Hpr, Hv'. assert (v' = v) by congruence. subst v'.
    destruct (@probe_available rd (aligner sw) Hf cs _ Hpath Hon
                (match_scores_mask (history sw)) 0%nat
                (Nat.max fuel (List.length cs)) Hfree ltac:(lia))
      as (mask2 & Hpr2).
    eapply probe_mono in Hpr; [rewrite Hpr in Hpr2; discriminate | lia]. }
  subst f. inversion H; subst; clear H.
  from Hm by follow_true_cells get (Hend & Hsc & _ & _ & Hvis);
    [| apply session_ok_advance; exact Hok | exact Hpos].
  simpl in Hend, Hsc, Hvis.
  from Hm by follow_keeps get (_ & Hx & _). simpl in Hx.
  split; [reflexivity|]. split; [exact Hend|].
  split; [symmetry; apply nth_error_nth; congruence|].
  split; [exact Hx|].
  intros j Hj.
  from Hm by follow_inv get (v' & mask' & Hv' & -> & [(E & _)|(_ & len & c & ra & rb & ra' & rb' & Hpr & _)]);
    [discriminate|].
  cbv zeta in Hpr. simpl in Hpr, Hv'. simpl.
  assert (v' = score res') by congruence. subst v'.
  eapply probe_frame; [exact Hpr|]. rewrite Hvis. exact Hj.
Qed.

(** X15.  No alignment is passed over while it is still free: on a primed
    session, with a result record that owns its buffers and fuel beyond the
    number of hits left plus the matrix sides, when every cell on the
    traceback of the hit under the cursor has its bit set,
    [smith_waterman_fetch] returns 1 with the alignment that ends at that
    hit, and moves the cursor by exactly one. *)
Theorem available_hit_is_returned rd a b la lb sc sw pos fuel res :
  primed rd a b la lb sc sw -> result_ok res ->
  (num_of_hits (history sw) - next_hit (history sw) + S la + S lb < fuel)%nat ->
  nth_error (sorted_match_indices (history sw)) (next_hit (history sw)) = Some pos ->
  Forall (is_set (match_scores_mask (history sw)))
         (traceback_cells rd (aligner sw) pos) ->
  exists sw' res',
    smith_waterman_fetch fuel rd sw res = Done (true, sw', res') /\
    end_cell (aligner sw) res' = pos /\
    score res' = nth pos (match_scores (aligner sw)) 0 /\
    next_hit (history sw') = S (next_hit (history sw)).
Proof.
  intros Hp Hres Hfu Hnth Hfree.
  from Hp by primed_ok get (Hok & _).
  from Hp by primed_aligner get (Hw & Hh & _).
  destruct (@fetch_done rd fuel sw res Hok Hres) as (found & sw' & res' & Hfe);
    [rewrite Hw, Hh; lia|].
  from Hfe by available_hit_found get (-> & Hend & Hsc & Hnx & _);
    [| exact Hp | exact Hnth | exact Hfree].
  exists sw', res'. repeat split; assumption.
Qed.

Lemma available_hit_is_returned_witness :
  exists sw sw1 res1 sw2 res2,
    smith_waterman_align2 AsGlossed (bytes "ACAC") (bytes "AC") 4 2
      (simple_scoring 2 (-2) (-2) (-1))
      (smith_waterman_new (simple_scoring 2 (-2) (-2) (-1))) = Done sw /\
    smith_waterman_fetch 20 AsGlossed sw alignment_create = Done (true, sw1, res1) /\
    nth_error (sorted_match_indices (history sw1)) (next_hit (history sw1))
      = Some 14%nat /\
    traceback_cells AsGlossed (aligner sw1) 14 = [14; 8; 2]%nat /\
    smith_waterman_fetch 20 AsGlossed sw1 res1 = Done (true, sw2, res2) /\
    end_cell (aligner sw1) res2 = 14%nat.
Proof.
  assert (Hal : smith_waterman_align2 AsGlossed (bytes "ACAC") (bytes "AC") 4 2
                  (simple_scoring 2 (-2) (-2) (-1))
                  (smith_waterman_new (simple_scoring 2 (-2) (-2) (-1))) = Done _)
    by (vm_compute; reflexivity).
  match type of Hal with
  | _ = Done ?s =>
      assert (Hf1 : smith_waterman_fetch 20 AsGlossed s alignment_create
                    = Done (true, _, _))
        by (vm_compute; reflexivity)
  end.
  match type of Hf1 with
  | _ = Done (_, ?s, ?r) =>
      assert (Hn : nth_error (sorted_match_indices (history s)) (next_hit (history s))
                   = Some 14%nat) by (vm_compute; reflexivity);
      assert (Hfree : Forall (is_set (match_scores_mask (history s)))
                             (traceback_cells AsGlossed (aligner s) 14))
        by (vm_compute; repeat constructor);
      assert (Hres : result_ok r) by (split; reflexivity);
      assert (Hp : primed AsGlossed (bytes "ACAC") (bytes "AC") 4 2
                     (simple_scoring 2 (-2) (-2) (-1)) s)
        by (eapply primed_fetch; [|exact Hf1];
            eapply primed_align; [|exact Hal]; reflexivity)
  end.
  destruct (@available_hit_is_returned AsGlossed _ _ _ _ _ _ _ 20%nat _
              Hp Hres ltac:(vm_compute; lia) Hn Hfree)
    as (sw2 & res2 & Hf2 & Hend & _).
  eexists. eexists. eexists. exists sw2, res2.
  split; [exact Hal|]. split; [exact Hf1|]. split; [exact Hn|].
  split; [vm_compute; reflexivity|]. split; [exact Hf2 | exact Hend].
Defined.

(** ** Growth of the allocations *)

(** X16.  [smith_waterman_align2] on a session in use keeps the capacity
    when the new matrices fit in it, and otherwise grows it to at least their
    size: the capacity never shrinks, and the bitmap comes out with exactly
    [hits_capacity] bits, all of them set. *)
Theorem align2_capacity rd a b la lb sc sw0 sw :
  hist_ok (history sw0) ->
  smith_waterman_align2 rd a b la lb sc sw0 = Done sw ->
  let cells := (S la * S lb)%nat in
  let cap0 := hits_capacity (history sw0) in
  let cap := hits_capacity (history sw) in
  (cells <= cap0 -> cap = cap0)%nat /\
  (cap0 < cells -> cap = ROUNDUP2POW cells)%nat /\
  (cap0 <= cap)%nat /\ (cells <= cap)%nat /\
  match_scores_mask (history sw) = repeat true cap.
Proof.
  intros Hh Hal. cbv zeta.
  from Hal by align_facts get (Ha & _ & _ & _ & Hm & Hc).
  from Ha by aligner_align_filled get (_ & Hw & Hhe & _).
  rewrite Hw, Hhe in Hm, Hc.
  pose proof (@ensure_history_length (history sw0) (S la * S lb) Hh) as (Hok & _).
  unfold hist_ok in Hok.
  assert (Hmask : match_scores_mask (history sw)
                  = repeat true (hits_capacity (history sw))).
  { rewrite Hm, Hc, <- Hok. unfold bit_array_set_all.
    generalize (match_scores_mask
                  (_ensure_history_capacity (history sw0) (S la * S lb))).
    intros l. induction l as [|x l IH]; simpl; [reflexivity | f_equal; exact IH]. }
  rewrite Hc. unfold _ensure_history_capacity in *.
  destruct (Nat.ltb_spec (hits_capacity (history sw0)) (S la * S lb)) as [Hlt|Hge];
    cbn [hits_capacity] in *.
  - pose proof (ROUNDUP2POW_ge (S la * S lb)).
    repeat split; try lia. rewrite <- Hc. exact Hmask.
  - repeat split; try lia. rewrite <- Hc. exact Hmask.
Qed.

Lemma align2_capacity_witness :
  exists sw,
    smith_waterman_align2 AsGlossed (bytes "ACAC") (bytes "AC") 4 2
      (simple_scoring 2 (-2) (-2) (-1))
      (smith_waterman_new (simple_scoring 2 (-2) (-2) (-1))) = Done sw /\
    hits_capacity (history sw) = 256%nat.
Proof.
  assert (Hal : smith_waterman_align2 AsGlossed (bytes "ACAC") (bytes "AC") 4 2
                  (simple_scoring 2 (-2) (-2) (-1))
                  (smith_waterman_new (simple_scoring 2 (-2) (-2) (-1))) = Done _)
    by (vm_compute; reflexivity).
  eexists. split; [exact Hal|].
  pose proof (@align2_capacity AsGlossed _ _ _ _ _
                (smith_waterman_new (simple_scoring 2 (-2) (-2) (-1)))
                _ eq_refl Hal) as (Hkeep & _).
  apply Hkeep. vm_compute. lia.
Defined.

(** * The order of the hits

    Inside 2^31 columns the hit list and the alignments returned are in
    order; beyond, the comparator's tie-break wraps. *)

(** X17.  After [smith_waterman_align2] on a session whose bitmap has its
    [hits_capacity] bits, for a width that fits the comparator's [int]
    (score_width < 2^31): the hit array holds [num_of_hits] entries, which
    are exactly the positions of positive match score, each once, in
    descending score with ties in ascending [pos mod score_width]; the bitmap
    has [hits_capacity] bits, at least one for every cell, all of them set, so
    that every cell of the matrices has its bit set; [next_hit] is 0. *)
Theorem align2_primes_enumerator rd a b la lb sc sw0 sw :
  hist_ok (history sw0) ->
  Z.of_nat la + 1 < 2 ^ 31 ->
  smith_waterman_align2 rd a b la lb sc sw0 = Done sw ->
  let al := aligner sw in
  let hist := history sw in
  List.length (sorted_match_indices hist) = num_of_hits hist /\
  NoDup (sorted_match_indices hist) /\
  (forall pos, In pos (sorted_match_indices hist) <->
               exists v, nth_error (match_scores al) pos = Some v /\ 0 < v) /\
  StronglySorted (hit_before (match_scores al) (score_width al))
                 (sorted_match_indices hist) /\
  List.length (match_scores_mask hist) = hits_capacity hist /\
  (score_width al * score_height al <= hits_capacity hist)%nat /\
  Forall (fun bit => bit = true) (match_scores_mask hist) /\
  (forall pos, (pos < score_width al * score_height al)%nat ->
     is_set (match_scores_mask hist) pos) /\
  next_hit hist = 0%nat.
Proof.
  intros Hh0 Hsmall H. cbv zeta.
  from H by align_session_ok get ((_ & Hcells & _) & Hhok & _); [|exact Hh0].
  unfold hist_ok in Hhok.
  from H by align_facts get (Hal & Hs & Hn & Hx & Hm & Hc).
  from Hal by aligner_align_filled get (Hf & Hw & Hh & _).
  destruct Hf as (_ & _ & _ & Hlen).
  pose proof (sort_r_perm
                (sort_match_indices
                   {| ms_match_scores := match_scores (aligner sw);
                      ms_score_width := to_uint (Z.of_nat (score_width (aligner sw))) |})
                (collect_hits (match_scores (aligner sw))
                   (score_width (aligner sw) * score_height (aligner sw)))) as Hperm.
  rewrite <- Hs in Hperm.
  split; [rewrite Hn; apply Permutation_length; assumption|].
  split; [eapply Permutation_NoDup; [symmetry; eassumption | apply collect_hits_NoDup]|].
  split.
  { intros pos. split.
    - intros Hin. eapply Permutation_in in Hin; [|eassumption].
      apply collect_hits_In in Hin. destruct Hin as (Hlt & Hpos).
      rewrite <- Hlen in Hlt.
      exists (nth pos (match_scores (aligner sw)) 0). split; [|assumption].
      apply nth_error_nth'. assumption.
    - intros (v & Hv & Hpos). eapply Permutation_in; [symmetry; eassumption|].
      apply collect_hits_In. split.
      + rewrite <- Hlen. apply nth_error_Some. congruence.
      + erewrite nth_error_nth; eauto. }
  split.
  { rewrite Hs. apply sort_r_sorted.
    - intros p q. apply sort_match_indices_spec; lia.
    - apply hit_before_total.
    - apply hit_before_trans. }
  split; [exact Hhok|]. split; [rewrite <- Hhok; exact Hcells|].
  split; [rewrite Hm; apply set_all_true|].
  split; [|assumption].
  intros pos Hpos. rewrite Hm. apply set_all_is_set.
  rewrite <- (set_all_length (match_scores_mask
                 (_ensure_history_capacity (history sw0)
                    (score_width (aligner sw) * score_height (aligner sw))))).
  rewrite <- Hm. lia.
Qed.

Lemma align2_primes_enumerator_witness :
  exists sw,
    smith_waterman_align2 AsGlossed (bytes "AC") (bytes "AC") 2 2
      (simple_scoring 2 (-2) (-2) (-1))
      (smith_waterman_new (simple_scoring 2 (-2) (-2) (-1))) = Done sw /\
    sorted_match_indices (history sw) = [8; 4]%nat /\
    StronglySorted (hit_before (match_scores (aligner sw)) (score_width (aligner sw)))
                   (sorted_match_indices (history sw)) /\
    is_set (match_scores_mask (history sw)) 8.
Proof.
  assert (Hal : smith_waterman_align2 AsGlossed (bytes "AC") (bytes "AC") 2 2
                  (simple_scoring 2 (-2) (-2) (-1))
                  (smith_waterman_new (simple_scoring 2 (-2) (-2) (-1))) = Done _)
    by (vm_compute; reflexivity).
  pose proof (@align2_primes_enumerator AsGlossed (bytes "AC") (bytes "AC") 2 2
                (simple_scoring 2 (-2) (-2) (-1))
                (smith_waterman_new (simple_scoring 2 (-2) (-2) (-1))) _
                eq_refl ltac:(vm_compute; reflexivity) Hal)
    as (_ & _ & _ & Hsorted & _ & _ & _ & Hset & _).
  eexists. split; [exact Hal|]. split; [reflexivity|].
  split; [exact Hsorted|]. apply Hset. vm_compute. lia.
Defined.

(** X18.  For a run of fetches right after [smith_waterman_align2] (width
    below 2^31): the first alignment returned has the largest match score of
    the matrix; of any two returned alignments the later one scores no more
    than the earlier, and at equal score the earlier one ends at the smaller
    or equal [pos mod score_width]. *)
Theorem returned_in_score_order rd a b la lb sc sw0 sw n fuel res als sw' res' :
  hist_ok (history sw0) ->
  Z.of_nat la + 1 < 2 ^ 31 ->
  smith_waterman_align2 rd a b la lb sc sw0 = Done sw ->
  fetch_many n fuel rd sw res = Done (als, sw', res') ->
  let al := aligner sw in
  (forall r rest, als = r :: rest ->
     Forall (fun v => v <= score r) (match_scores al) /\
     In (score r) (match_scores al)) /\
  ForallOrdPairs
    (fun r1 r2 =>
       score r2 <= score r1 /\
       (score r1 = score r2 ->
        (ARR_2D_X (end_cell al r1) (score_width al)
         <= ARR_2D_X (end_cell al r2) (score_width al))%nat))
    als.
Proof.
  intros Hh0 Hsmall Hal H. cbv zeta.
  from Hal by align_session_ok get (Hok & _ & _); [|exact Hh0].
  from Hal by align2_order get (Hsorted & Hin & Hall & Hnx); [|exact Hsmall].
  from H by fetch_many_inv get (_ & _ & Hhits & _); [|exact Hok].
  split.
  - intros r rest ->. destruct n as [|n]; simpl in H; [discriminate|].
    inv_bind H. destruct v as [[found sw1] res1]. inv_bind H.
    destruct v as [[rest' sw2] res2].
    from Hm by first_fetch_fresh get [(-> & Hex)|(-> & H0 & Hsc)];
      try eassumption.
    { apply fetch_many_exhausted in Hm0; [|exact Hex]. subst rest'. discriminate. }
    inversion H; subst; clear H.
    assert (Hpos : 0 < score r).
    { apply nth_error_In in H0. apply Hin in H0.
      rewrite (nth_error_nth _ _ 0 Hsc) in H0. lia. }
    split; [|eapply nth_error_In; eauto].
    apply Forall_forall. intros v Hv.
    destruct (Z.le_gt_cases v 0) as [Hle|Hgt]; [lia|].
    apply In_nth_error in Hv. destruct Hv as (pos & Hv).
    assert (Hp : In pos (sorted_match_indices (history sw))).
    { apply Hin. split; [apply nth_error_Some; congruence|].
      rewrite (nth_error_nth _ _ 0 Hv). lia. }
    apply In_nth_error in Hp. destruct Hp as (j & Hj).
    destruct j as [|j].
    + assert (pos = end_cell (aligner sw) r) by congruence. subst pos.
      assert (v = score r) by congruence. lia.
    + pose proof (StronglySorted_nth Hsorted (i := 0%nat) (j := S j) ltac:(lia) H0 Hj)
        as Hb.
      unfold hit_before in Hb.
      rewrite (nth_error_nth _ _ 0 Hv), (nth_error_nth _ _ 0 Hsc) in Hb. lia.
  - rewrite Hnx in Hhits.
    pose proof (hits_from_Forall _ _ _ Hhits) as Hsc.
    pose proof (hits_from_pairs _ Hsorted _ _ Hhits) as Hpairs.
    clear -Hsc Hpairs. induction Hpairs as [|r1 l Hr1 Hl IH]; [constructor|].
    inversion Hsc as [|? ? (j1 & _ & _ & Hs1) Hsc']; subst.
    constructor; [|apply IH; assumption].
    rewrite Forall_forall in *. intros r2 Hin2.
    specialize (Hr1 r2 Hin2). destruct (Hsc' r2 Hin2) as (j2 & _ & _ & Hs2).
    unfold hit_before in Hr1.
    rewrite (nth_error_nth _ _ 0 Hs1), (nth_error_nth _ _ 0 Hs2) in Hr1.
    unfold ARR_2D_X. lia.
Qed.

Lemma returned_in_score_order_witness :
  let sc := simple_scoring 2 (-2) (-2) (-1) in
  exists sw r1 r2 sw' res',
    smith_waterman_align2 AsGlossed (bytes "ACAC") (bytes "AC") 4 2 sc
      (smith_waterman_new sc) = Done sw /\
    fetch_many 3 20 AsGlossed sw alignment_create = Done ([r1; r2], sw', res') /\
    (score r1 = 4 /\ pos_a r1 = 0%nat) /\ (score r2 = 4 /\ pos_a r2 = 2%nat) /\
    Forall (fun v => v <= score r1) (match_scores (aligner sw)) /\
    score r2 <= score r1.
Proof.
  cbv zeta.
  assert (Hal : smith_waterman_align2 AsGlossed (bytes "ACAC") (bytes "AC") 4 2
                  (simple_scoring 2 (-2) (-2) (-1))
                  (smith_waterman_new (simple_scoring 2 (-2) (-2) (-1))) = Done _)
    by (vm_compute; reflexivity).
  match type of Hal with
  | _ = Done ?s =>
      assert (Hfm : fetch_many 3 20 AsGlossed s alignment_create
                    = Done ([_; _], _, _))
        by (vm_compute; reflexivity)
  end.
  eexists. eexists. eexists. eexists. eexists.
  split; [exact Hal|]. split; [exact Hfm|].
  split; [split; reflexivity|]. split; [split; reflexivity|].
  assert (Hsmall : Z.of_nat 4 + 1 < 2 ^ 31) by (vm_compute; reflexivity).
  pose proof (@returned_in_score_order AsGlossed _ _ _ _ _
                (smith_waterman_new (simple_scoring 2 (-2) (-2) (-1)))
                _ _ _ _ _ _ _ eq_refl Hsmall Hal Hfm) as H.
  destruct H as (Hmax & Hord). split.
  - exact (proj1 (Hmax _ _ eq_refl)).
  - inversion Hord as [|r l Hall _]. inversion Hall as [|r' l' (Hle & _) _].
    exact Hle.
Defined.

(** ** The order of the hits beyond 2^31 columns *)

Lemma filter_none {A : Type} (f : A -> bool) l :
  (forall x, In x l -> f x = false) -> filter f l = [].
Proof.
  induction l as [|x l IH]; intros H; [reflexivity|]. simpl.
  rewrite (H x) by (left; reflexivity). apply IH. intros y Hy. apply H. right. exact Hy.
Qed.

(** A predicate true at exactly two places below [n] keeps those two. *)
Lemma filter_seq_two (f : nat -> bool) n p q :
  (p < q < n)%nat ->
  (forall i, (i < n)%nat -> f i = true <-> i = p \/ i = q) ->
  filter f (seq 0 n) = [p; q].
Proof.
  intros Hpq Hf.
  assert (Hfalse : forall i, (i < n)%nat -> i <> p -> i <> q -> f i = false).
  { intros i Hi H1 H2. destruct (f i) eqn:E; [|reflexivity].
    apply Hf in E; [|exact Hi]. lia. }
  replace n with (p + (1 + ((q - p - 1) + (1 + (n - q - 1)))))%nat by lia.
  rewrite !seq_app, !filter_app. cbn [seq filter].
  replace (0 + p)%nat with p by lia.
  replace (p + 1 + (q - p - 1))%nat with q by lia.
  rewrite (proj2 (Hf p ltac:(lia)) (or_introl eq_refl)).
  rewrite (proj2 (Hf q ltac:(lia)) (or_intror eq_refl)).
  rewrite !filter_none; [reflexivity | | |];
    intros x Hx; apply in_seq in Hx; apply Hfalse; lia.
Qed.

Section WideMatrix.

Variable rd : gap_reading.
Variable n : nat.
Hypothesis Hn_lo : 2 ^ 31 <= Z.of_nat n.
Hypothesis Hn_hi : Z.of_nat n + 3 < 2 ^ 32.

Lemma wide_a_nth i :
  (i < n + 2)%nat ->
  nth_error (wide_a n) i
  = Some (if (i =? 0)%nat || (i =? n + 1)%nat then "A"%byte else "C"%byte).
Proof.
  intros Hi. unfold wide_a. destruct i as [|i]; [reflexivity|].
  cbn [nth_error]. change (S i =? 0)%nat with false. cbn [orb].
  destruct (Nat.eqb_spec (S i) (n + 1)) as [E|E].
  - rewrite nth_error_app2 by (rewrite repeat_length; lia).
    rewrite repeat_length. replace (i - n)%nat with 0%nat by lia. reflexivity.
  - rewrite nth_error_app1 by (rewrite repeat_length; lia).
    apply nth_error_repeat. lia.
Qed.

Lemma wide_pair_score x :
  (1 <= x <= n + 2)%nat ->
  pair_score wide_sc (wide_a n) wide_b x 1
  = Some (if (x =? 1)%nat || (x =? n + 2)%nat then 2 else -2).
Proof.
  intros Hx. unfold pair_score. rewrite wide_a_nth by lia.
  replace (x - 1 =? 0)%nat with (x =? 1)%nat
    by (destruct (Nat.eqb_spec x 1), (Nat.eqb_spec (x - 1) 0); lia).
  replace (x - 1 =? n + 1)%nat with (x =? n + 2)%nat
    by (destruct (Nat.eqb_spec x (n + 2)), (Nat.eqb_spec (x - 1) (n + 1)); lia).
  destruct ((x =? 1)%nat || (x =? n + 2)%nat); reflexivity.
Qed.

Lemma wide_all_pairs : all_pairs_scored wide_sc (wide_a n) wide_b (n + 2) 1 = true.
Proof.
  unfold all_pairs_scored. cbn [seq forallb]. rewrite andb_true_r.
  apply forallb_forall. intros x Hx. apply in_seq in Hx.
  rewrite wide_pair_score by lia. reflexivity.
Qed.

(** The match plane of the wide matrix: 2 in row 1 at columns 1 and
    [n + 2], 0 elsewhere. *)
Lemma wide_cM x y :
  (x <= n + 2)%nat -> (y <= 1)%nat ->
  cM (dp rd wide_sc (wide_a n) wide_b x y)
  = if (y =? 1)%nat && ((x =? 1)%nat || (x =? n + 2)%nat) then 2 else 0.
Proof.
  intros Hx Hy. destruct y as [|[|y]]; [| |lia].
  - rewrite dp_border_y. reflexivity.
  - destruct x as [|x].
    + rewrite dp_border_x.
      destruct (Nat.eqb_spec 0 (n + 2)) as [E|E]; [lia | reflexivity].
    + rewrite dp_interior. cbn [cM]. rewrite dp_border_y.
      unfold pair_score0. rewrite wide_pair_score by lia.
      change (1 =? 1)%nat with true. cbn [andb].
      destruct ((S x =? 1)%nat || (S x =? n + 2)%nat); reflexivity.
Qed.

Lemma to_int_wrap_neg z : - 2 ^ 32 < z < - 2 ^ 31 -> to_int z = z + 2 ^ 32.
Proof.
  intros H. unfold to_int.
  replace (z + 2 ^ 31) with ((z + 2 ^ 31 + 2 ^ 32) + (-1) * 2 ^ 32) by lia.
  rewrite Z.mod_add by lia. rewrite Z.mod_small by lia. lia.
Qed.

Lemma wide_aligner :
  exists al, aligner_align rd (wide_a n) wide_b (n + 2) 1 wide_sc = Done al.
Proof.
  unfold aligner_align. rewrite wide_all_pairs. eexists. reflexivity.
Qed.

Lemma wide_scores al x y :
  aligner_align rd (wide_a n) wide_b (n + 2) 1 wide_sc = Done al ->
  (x <= n + 2)%nat -> (y <= 1)%nat ->
  nth_error (match_scores al) (ARR_2D_INDEX (S (n + 2)) x y)
  = Some (if (y =? 1)%nat && ((x =? 1)%nat || (x =? n + 2)%nat) then 2 else 0).
Proof.
  intros Hal Hx Hy.
  from Hal by aligner_align_filled get ((_ & Hcells & _) & Hw & Hh & Ha & Hb & Hsc).
  rewrite Hw, Hh in Hcells.
  destruct (Hcells x y ltac:(lia) ltac:(lia)) as (Hm & _).
  rewrite Hm. unfold dp_of. rewrite Ha, Hb, Hsc. f_equal.
  apply wide_cM; assumption.
Qed.

(** The positive cells of the wide matrix are the two matches. *)
Lemma wide_collect_hits al :
  aligner_align rd (wide_a n) wide_b (n + 2) 1 wide_sc = Done al ->
  collect_hits (match_scores al) (S (n + 2) * 2)
  = [ARR_2D_INDEX (S (n + 2)) 1 1; ARR_2D_INDEX (S (n + 2)) (n + 2) 1].
Proof.
  intros Hal. rewrite collect_hits_filter.
  apply filter_seq_two; [unfold ARR_2D_INDEX; lia|].
  intros i Hi.
  pose proof (@ARR_2D_INDEX_XY (S (n + 2)) i ltac:(lia)) as Hxy.
  set (x := ARR_2D_X i (S (n + 2))) in *.
  set (y := ARR_2D_Y i (S (n + 2))) in *.
  assert (Hx : (x < S (n + 2))%nat) by (apply Nat.mod_upper_bound; lia).
  assert (Hy : (y < 2)%nat) by (apply Nat.Div0.div_lt_upper_bound; lia).
  pose proof (@wide_scores al x y Hal ltac:(lia) ltac:(lia)) as Hs.
  rewrite Hxy in Hs. rewrite (nth_error_nth _ _ 0 Hs).
  unfold ARR_2D_INDEX in *.
  destruct (Nat.eqb_spec y 1), (Nat.eqb_spec x 1), (Nat.eqb_spec x (n + 2));
    cbn [andb orb]; split; intros H; try discriminate; try reflexivity;
    destruct y as [|[|y]]; lia.
Qed.

Lemma wide_columns x :
  (x < S (n + 2))%nat ->
  Z.of_nat (ARR_2D_INDEX (S (n + 2)) x 1) mod Z.of_nat (S (n + 2)) = Z.of_nat x.
Proof.
  intros Hx. rewrite <- Nat2Z.inj_mod. f_equal.
  apply ARR_2D_X_INDEX. exact Hx.
Qed.

(** On the two hits the comparator answers against the columns, whichever
    way it is asked. *)
Lemma wide_compare ms :
  nth (ARR_2D_INDEX (S (n + 2)) 1 1) ms 0
    = nth (ARR_2D_INDEX (S (n + 2)) (n + 2) 1) ms 0 ->
  let tmp := {| ms_match_scores := ms;
                ms_score_width := to_uint (Z.of_nat (S (n + 2))) |} in
  0 < sort_match_indices tmp (ARR_2D_INDEX (S (n + 2)) 1 1)
                             (ARR_2D_INDEX (S (n + 2)) (n + 2) 1) /\
  sort_match_indices tmp (ARR_2D_INDEX (S (n + 2)) (n + 2) 1)
                         (ARR_2D_INDEX (S (n + 2)) 1 1) < 0.
Proof.
  intros Hs. cbv zeta. unfold sort_match_indices.
  cbn [ms_match_scores ms_score_width].
  rewrite to_uint_small by lia.
  rewrite Hs, Z.sub_diag. change (0 =? 0) with true. cbv iota.
  rewrite !wide_columns by lia.
  split.
  - rewrite to_int_wrap_neg by lia. lia.
  - rewrite to_int_wrap by lia. lia.
Qed.

Lemma wide_sorted ms :
  nth (ARR_2D_INDEX (S (n + 2)) 1 1) ms 0
    = nth (ARR_2D_INDEX (S (n + 2)) (n + 2) 1) ms 0 ->
  sort_r [ARR_2D_INDEX (S (n + 2)) 1 1; ARR_2D_INDEX (S (n + 2)) (n + 2) 1]
         (sort_match_indices {| ms_match_scores := ms;
                                ms_score_width := to_uint (Z.of_nat (S (n + 2))) |})
  = [ARR_2D_INDEX (S (n + 2)) (n + 2) 1; ARR_2D_INDEX (S (n + 2)) 1 1].
Proof.
  intros Hs. destruct (wide_compare ms Hs) as (Hgt & _).
  unfold sort_r. cbn [fold_right sort_insert].
  destruct (Z.leb_spec (sort_match_indices
              {| ms_match_scores := ms;
                 ms_score_width := to_uint (Z.of_nat (S (n + 2))) |}
              (ARR_2D_INDEX (S (n + 2)) 1 1)
              (ARR_2D_INDEX (S (n + 2)) (n + 2) 1)) 0); [lia | reflexivity].
Qed.

(** [smith_waterman_align2] on the wide input: two hits of score 2, the one
    in column [n + 2] stored before the one in column 1. *)
Lemma wide_session sw0 :
  hist_ok (history sw0) ->
  exists sw,
    smith_waterman_align2 rd (wide_a n) wide_b (n + 2) 1 wide_sc sw0 = Done sw /\
    primed rd (wide_a n) wide_b (n + 2) 1 wide_sc sw /\
    score_width (aligner sw) = S (n + 2) /\ score_height (aligner sw) = 2%nat /\
    sorted_match_indices (history sw)
      = [ARR_2D_INDEX (S (n + 2)) (n + 2) 1; ARR_2D_INDEX (S (n + 2)) 1 1] /\
    num_of_hits (history sw) = 2%nat /\ next_hit (history sw) = 0%nat /\
    nth_error (match_scores (aligner sw)) (ARR_2D_INDEX (S (n + 2)) 1 1) = Some 2 /\
    nth_error (match_scores (aligner sw)) (ARR_2D_INDEX (S (n + 2)) (n + 2) 1)
      = Some 2 /\
    (forall pos, (pos < S (n + 2) * 2)%nat ->
       is_set (match_scores_mask (history sw)) pos).
Proof.
  intros Hh. destruct wide_aligner as (al & Hal).
  assert (Hex : exists sw, smith_waterman_align2 rd (wide_a n) wide_b (n + 2) 1
                             wide_sc sw0 = Done sw).
  { unfold smith_waterman_align2. rewrite Hal. cbn [bind]. eexists. reflexivity. }
  destruct Hex as (sw & Hsw). exists sw.
  from Hsw by align_facts get (Ha & Hs & Hnum & Hx & Hm & _).
  assert (al = aligner sw) by congruence. subst al.
  from Hal by aligner_align_filled get (_ & Hw & Hhe & _).
  from Hsw by align_session_ok get ((_ & Hcap & _) & _ & _); [|exact Hh].
  rewrite Hw, Hhe in *.
  pose proof (@wide_scores _ 1%nat 1%nat Hal ltac:(lia) ltac:(lia)) as H1.
  pose proof (@wide_scores _ (n + 2)%nat 1%nat Hal ltac:(lia) ltac:(lia)) as H2.
  change (1 =? 1)%nat with true in H1, H2. cbn [andb orb] in H1.
  rewrite Nat.eqb_refl, orb_true_r in H2. cbn [andb] in H2.
  rewrite (wide_collect_hits Hal) in Hs, Hnum.
  rewrite wide_sorted in Hs
    by (rewrite (nth_error_nth _ _ 0 H1), (nth_error_nth _ _ 0 H2); reflexivity).
  split; [exact Hsw|].
  split; [eapply primed_align; eassumption|].
  split; [reflexivity|]. split; [reflexivity|]. split; [exact Hs|].
  split; [exact Hnum|]. split; [exact Hx|]. split; [exact H1|]. split; [exact H2|].
  intros pos Hpos.
  assert (Hset : Forall (fun bit => bit = true) (match_scores_mask (history sw)))
    by (rewrite Hm; apply set_all_true).
  unfold is_set.
  destruct (nth_error (match_scores_mask (history sw)) pos) as [bit|] eqn:E.
  - rewrite Forall_forall in Hset. rewrite (Hset bit); [reflexivity|].
    eapply nth_error_In; eauto.
  - apply nth_error_None in E. lia.
Qed.

(** The traceback of a hit of the wide matrix: the hit and the border cell
    diagonally before it. *)
Lemma wide_traceback sw x :
  primed rd (wide_a n) wide_b (n + 2) 1 wide_sc sw ->
  (x <= n + 1)%nat ->
  nth_error (match_scores (aligner sw)) (ARR_2D_INDEX (S (n + 2)) (S x) 1) = Some 2 ->
  traceback_cells rd (aligner sw) (ARR_2D_INDEX (S (n + 2)) (S x) 1)
  = [ARR_2D_INDEX (S (n + 2)) (S x) 1; x].
Proof.
  intros Hp Hx Hv.
  from Hp by primed_ok get ((Hf & _) & _).
  from Hp by primed_aligner get (Hw & Hh & _).
  assert (Hpos : (ARR_2D_INDEX (S (n + 2)) (S x) 1
                  < score_width (aligner sw) * score_height (aligner sw))%nat)
    by (rewrite Hw, Hh; unfold ARR_2D_INDEX; lia).
  pose proof (hit_cursor_on_plane Hf Hpos Hv) as Hon.
  set (start := hit_cursor (aligner sw) (ARR_2D_INDEX (S (n + 2)) (S x) 1) 2) in *.
  assert (Hsx : score_x start = S x).
  { unfold start, hit_cursor. cbn [score_x]. rewrite Hw.
    apply ARR_2D_X_INDEX. lia. }
  assert (Hsy : score_y start = 1%nat).
  { unfold start, hit_cursor. cbn [score_y]. rewrite Hw.
    apply ARR_2D_Y_INDEX. lia. }
  assert (Hnz : curr_score start <> 0) by (unfold start; simpl; lia).
  destruct (step_filled Hf Hon Hnz) as (c' & Hmove & Hon' & Hsb & _).
  rewrite Hsx, Hsy in Hsb. change (curr_matrix start) with MATCH in Hsb.
  cbn [step_back pred_nat] in Hsb. injection Hsb as Hx' Hy'.
  destruct Hon' as (_ & _ & Hidx & Hplane).
  rewrite <- Hx', <- Hy' in Hidx, Hplane.
  unfold dp_of in Hplane. rewrite dp_border_y in Hplane.
  assert (Hz : curr_score c' = 0).
  { destruct (curr_matrix c'); simpl in Hplane; [congruence | discriminate | discriminate]. }
  assert (Hpath : path rd (aligner sw) start [start; c']).
  { eapply path_step; [exact Hnz | exact Hmove |]. apply path_end. exact Hz. }
  rewrite (traceback_cells_path Hf Hpos Hv Hpath). cbn [map].
  f_equal. f_equal. rewrite Hidx, Hw. unfold ARR_2D_INDEX. lia.
Qed.

(** Two fetches on the wide input: both hits are returned, the one in
    column [n + 2] first. *)
Lemma wide_run sw0 fuel :
  hist_ok (history sw0) -> (n + 8 < fuel)%nat ->
  exists sw r1 r2 sw' res',
    smith_waterman_align2 rd (wide_a n) wide_b (n + 2) 1 wide_sc sw0 = Done sw /\
    fetch_many 2 fuel rd sw alignment_create = Done ([r1; r2], sw', res') /\
    score r1 = 2 /\ score r2 = 2 /\
    end_cell (aligner sw) r1 = ARR_2D_INDEX (S (n + 2)) (n + 2) 1 /\
    end_cell (aligner sw) r2 = ARR_2D_INDEX (S (n + 2)) 1 1.
Proof.
  intros Hh Hfu.
  destruct (@wide_session sw0 Hh)
    as (sw & Hsw & Hp & Hw & Hhe & Hs & Hnum & Hnx & H1 & H2 & Hset).
  from Hp by primed_ok get (Hok & _).
  destruct (@fetch_done rd fuel sw alignment_create Hok alignment_create_ok)
    as (f1 & sw1 & r1 & Hfe1); [rewrite Hnum, Hnx, Hw, Hhe; lia|].
  assert (Ht2 : traceback_cells rd (aligner sw) (ARR_2D_INDEX (S (n + 2)) (n + 2) 1)
                = [ARR_2D_INDEX (S (n + 2)) (n + 2) 1; (n + 1)%nat]).
  { assert (E : (n + 2 = S (n + 1))%nat) by lia.
    rewrite E at 2 4. apply wide_traceback; [exact Hp | lia |].
    rewrite <- E. exact H2. }
  pose proof (@wide_traceback sw 0%nat Hp ltac:(lia) H1) as Ht1.
  from Hfe1 by available_hit_found get (-> & He1 & Hs1 & Hn1 & Hframe);
    [ | exact Hp
      | rewrite Hnx, Hs; reflexivity
      | rewrite Ht2; repeat constructor; apply Hset; unfold ARR_2D_INDEX; lia ].
  rewrite (nth_error_nth _ _ 0 H2) in Hs1.
  assert (Hp1 : primed rd (wide_a n) wide_b (n + 2) 1 wide_sc sw1)
    by (eapply primed_fetch; eassumption).
  from Hfe1 by fetch_keeps get (((Ea & Es & En & _) & _) & _ & _ & _ & Hr1).
  specialize (Hr1 alignment_create_ok).
  from Hp1 by primed_ok get (Hok1 & _).
  destruct (@fetch_done rd fuel sw1 r1 Hok1 Hr1)
    as (f2 & sw2 & r2 & Hfe2); [rewrite En, Hnum, Ea, Hw, Hhe; lia|].
  from Hfe2 by available_hit_found get (-> & He2 & Hs2 & _);
    [ | exact Hp1
      | rewrite Hn1, Hnx, Es, Hs; reflexivity
      | rewrite Ea, Ht1, Ht2 in *; repeat constructor; unfold is_set;
        (rewrite Hframe; [apply Hset; unfold ARR_2D_INDEX; lia|]);
        unfold ARR_2D_INDEX; simpl; lia ].
  rewrite Ea in He2, Hs2. rewrite (nth_error_nth _ _ 0 H1) in Hs2.
  exists sw, r1, r2, sw2, r2.
  split; [exact Hsw|]. split.
  { cbn [fetch_many]. rewrite Hfe1. cbn [bind]. rewrite Hfe2. reflexivity. }
  repeat split; assumption.
Qed.

End WideMatrix.

Lemma wide_n_value : Z.of_nat wide_n = 2 ^ 31.
Proof. unfold wide_n. apply Z2Nat.id. lia. Qed.

(** C5 at the failing input.  For sequence A = 'A', 2^31 times 'C', 'A'
    against B = 'A' (match 2, mismatch -2) on a new session,
    [smith_waterman_align2] returns; the match matrix is [2^31 + 3] wide and
    has score 2 at two cells, in column 1 and in column [2^31 + 2] of row 1;
    the hit list holds the cell of column [2^31 + 2] first, so it is not in
    the order of descending score and ascending column.  The tie-break of
    [sort_match_indices], the difference of the columns returned through
    [int], is what puts it there.  Under either reading of the gap
    recurrences. *)
Theorem wide_hit_list_out_of_order (rd : gap_reading) :
  let n := wide_n in
  let w := S (n + 2) in
  let p_left := ARR_2D_INDEX w 1 1 in
  let p_right := ARR_2D_INDEX w (n + 2) 1 in
  exists sw,
    smith_waterman_align2 rd (wide_a n) wide_b (n + 2) 1 wide_sc
      (smith_waterman_new wide_sc) = Done sw /\
    score_width (aligner sw) = w /\
    nth_error (match_scores (aligner sw)) p_left = Some 2 /\
    nth_error (match_scores (aligner sw)) p_right = Some 2 /\
    (p_left mod w = 1)%nat /\ (p_right mod w = n + 2)%nat /\
    sorted_match_indices (history sw) = [p_right; p_left] /\
    ~ StronglySorted (hit_before (match_scores (aligner sw)) w)
                     (sorted_match_indices (history sw)).
Proof.
  pose proof wide_n_value as Hv. cbv zeta.
  generalize dependent wide_n. intros n Hv.
  assert (Hlo : 2 ^ 31 <= Z.of_nat n) by lia.
  assert (Hhi : Z.of_nat n + 3 < 2 ^ 32) by lia.
  destruct (@wide_session rd n Hlo Hhi (smith_waterman_new wide_sc) eq_refl)
    as (sw & Hsw & _ & Hw & _ & Hs & _ & _ & H1 & H2 & _).
  assert (Hx1 : (ARR_2D_INDEX (S (n + 2)) 1 1 mod S (n + 2) = 1)%nat)
    by (apply (@ARR_2D_X_INDEX (S (n + 2)) 1 1); lia).
  assert (Hx2 : (ARR_2D_INDEX (S (n + 2)) (n + 2) 1 mod S (n + 2) = n + 2)%nat)
    by (apply (@ARR_2D_X_INDEX (S (n + 2)) (n + 2) 1); lia).
  exists sw. split; [exact Hsw|]. split; [exact Hw|].
  split; [exact H1|]. split; [exact H2|]. split; [exact Hx1|]. split; [exact Hx2|].
  split; [exact Hs|].
  rewrite Hs. intros Hsorted.
  inversion Hsorted as [|p l _ Hall]; subst.
  inversion Hall as [|q l' Hb _]; subst.
  unfold hit_before in Hb.
  rewrite (nth_error_nth _ _ 0 H1), (nth_error_nth _ _ 0 H2), Hx1, Hx2 in Hb. lia.
Qed.

(** C1 at the failing input.  On the same input two fetches return both
    alignments, each of score 2; the first one returned ends in column
    [2^31 + 2], the second in column 1: of two alignments of equal score the
    one with the larger x-coordinate comes first.  Under either reading of
    the gap recurrences. *)
Theorem wide_tie_returned_right_first (rd : gap_reading) :
  let n := wide_n in
  exists sw r1 r2 sw' res',
    smith_waterman_align2 rd (wide_a n) wide_b (n + 2) 1 wide_sc
      (smith_waterman_new wide_sc) = Done sw /\
    fetch_many 2 (n + 9) rd sw alignment_create = Done ([r1; r2], sw', res') /\
    score r1 = 2 /\ score r2 = 2 /\
    ARR_2D_X (end_cell (aligner sw) r1) (score_width (aligner sw)) = (n + 2)%nat /\
    ARR_2D_X (end_cell (aligner sw) r2) (score_width (aligner sw)) = 1%nat.
Proof.
  pose proof wide_n_value as Hv. cbv zeta.
  generalize dependent wide_n. intros n Hv.
  assert (Hlo : 2 ^ 31 <= Z.of_nat n) by lia.
  assert (Hhi : Z.of_nat n + 3 < 2 ^ 32) by lia.
  destruct (@wide_run rd n Hlo Hhi (smith_waterman_new wide_sc) (n + 9)%nat
              eq_refl ltac:(lia))
    as (sw & r1 & r2 & sw' & res' & Hsw & Hfm & Hs1 & Hs2 & He1 & He2).
  from Hsw by align_facts get (Ha & _).
  from Ha by aligner_align_filled get (_ & Hw & _).
  exists sw, r1, r2, sw', res'.
  split; [exact Hsw|]. split; [exact Hfm|]. split; [exact Hs1|]. split; [exact Hs2|].
  rewrite He1, He2, Hw.
  split; apply ARR_2D_X_INDEX; lia.
Qed.
